(** * tallybot: the score store, the group directory, the query engine,
    the message handler and the configuration reader

    A shallow embedding of [tallybot.go] (and of its single-channel variant,
    which carries the same data-layer functions word for word and differs
    only in [handleMessage]).

    The program keeps its state in three SQLite tables:
    - [tallies (item TEXT PRIMARY KEY, score INTEGER)]
    - [aliases (item TEXT PRIMARY KEY, group_id INTEGER)]
    - [groups  (group_id INTEGER PRIMARY KEY AUTOINCREMENT)]

    A table is modelled as the list of its rows in rowid order (the order of
    insertion; an UPDATE rewrites a row in place).  Go's [int] and SQLite's
    INTEGER are 64-bit signed integers, modelled as [Z] with the wrap-around
    of Go's addition and the overflow error of SQLite's [SUM] written out.
    The database handle is threaded explicitly: every function that touches
    [bot.db] takes the database and returns the new one.

    Storage failures other than a PRIMARY KEY violation (I/O errors, a closed
    connection) are outside the model: every statement is executed against
    the tables and either succeeds or violates a constraint. *)

From Stdlib Require Import ZArith List String Ascii Bool Lia.
From Stdlib Require Import DecimalString.
Import ListNotations.

Local Open Scope Z_scope.

(** ** 64-bit integers *)

Definition min_int64 : Z := - 2 ^ 63.
Definition max_int64 : Z := 2 ^ 63 - 1.

(** Go's [int] addition wraps around in two's complement. *)
Definition wrap64 (z : Z) : Z := (z + 2 ^ 63) mod 2 ^ 64 - 2 ^ 63.

Definition in_int64 (z : Z) : bool := (min_int64 <=? z) && (z <=? max_int64).

(** ** Tables *)

Module Sql.

(** A two-column table whose first column is [item TEXT PRIMARY KEY]. *)
Definition table : Type := list (string * Z).

Definition items (t : table) : list string := map fst t.

(** [SELECT COUNT( * ) FROM t WHERE item = ?] *)
Definition count_item (item : string) (t : table) : nat :=
  List.length (filter (fun r => String.eqb (fst r) item) t).

(** [SELECT v FROM t WHERE item = ?] read with [QueryRow(...).Scan]: the
    first row, or [None] for [sql.ErrNoRows]. *)
Fixpoint select_item (item : string) (t : table) : option Z :=
  match t with
  | [] => None
  | (k, v) :: rest => if String.eqb k item then Some v else select_item item rest
  end.

(** [INSERT INTO t VALUES (?, ?)]: the row goes to the end of the table;
    [None] when the PRIMARY KEY is already taken. *)
Definition insert_row (item : string) (v : Z) (t : table) : option table :=
  match select_item item t with
  | Some _ => None
  | None => Some (t ++ [(item, v)])
  end.

(** [UPDATE t SET v = ? WHERE item = ?] *)
Definition update_item (item : string) (v : Z) (t : table) : table :=
  map (fun r => if String.eqb (fst r) item then (fst r, v) else r) t.

(** [UPDATE t SET v = ? WHERE v = ?] *)
Definition update_value (new old : Z) (t : table) : table :=
  map (fun r => if snd r =? old then (fst r, new) else r) t.

(** [SELECT item FROM t WHERE v = ? AND item != ?] *)
Definition select_others (v : Z) (item : string) (t : table) : list string :=
  items (filter (fun r => (snd r =? v) && negb (String.eqb (fst r) item)) t).

(** [SELECT score FROM l JOIN r USING(item) WHERE group_id = ?]: the
    [score] column of every pair of rows that agree on [item] and whose
    right row carries the group. *)
Definition join_scores (g : Z) (l r : table) : list Z :=
  flat_map
    (fun lrow =>
       map (fun _ => snd lrow)
           (filter (fun rrow => String.eqb (fst rrow) (fst lrow) && (snd rrow =? g)) r))
    l.

(** The running total of SQLite's [SUM] over integers: an addition that
    leaves the 64-bit range raises "integer overflow". *)
Fixpoint sum_from (acc : Z) (vs : list Z) : option Z :=
  match vs with
  | [] => Some acc
  | v :: rest =>
      if in_int64 (acc + v) then sum_from (acc + v) rest else None
  end.

(** [SUM] as read by [Scan] into a Go [int]: over no rows the result is
    NULL, which [Scan] refuses; an overflow is an error as well. *)
Definition sum_scan (vs : list Z) : option Z :=
  match vs with
  | [] => None
  | _ => sum_from 0 vs
  end.

End Sql.

(** ** The database *)

Record DB : Type := mkDB {
  tallies : Sql.table;      (* item, score *)
  aliases : Sql.table;      (* item, group_id *)
  groups : list Z;          (* group_id *)
  groups_seq : Z            (* sqlite_sequence: the largest group_id ever handed out *)
}.

(** The state right after [initializeDatabase] on a fresh file. *)
Definition empty_db : DB := mkDB [] [] [] 0.

Definition with_tallies (d : DB) (t : Sql.table) : DB :=
  mkDB t (aliases d) (groups d) (groups_seq d).

Definition with_aliases (d : DB) (a : Sql.table) : DB :=
  mkDB (tallies d) a (groups d) (groups_seq d).

(** [INSERT INTO groups DEFAULT VALUES] followed by [LastInsertId]: with
    AUTOINCREMENT the new rowid is one more than the largest rowid the table
    ever held, whether or not that row has been deleted since. *)
Definition insert_group (d : DB) : Z * DB :=
  let g := groups_seq d + 1 in
  (g, mkDB (tallies d) (aliases d) (groups d ++ [g]) g).

(** [DELETE FROM groups WHERE group_id = ?] *)
Definition delete_group (g : Z) (d : DB) : DB :=
  mkDB (tallies d) (aliases d) (filter (fun h => negb (h =? g)) (groups d)) (groups_seq d).

(** ** Item score store *)

Definition ensureItemExists (d : DB) (item : string) : DB :=
  if Nat.eqb (Sql.count_item item (tallies d)) 0 then
    match Sql.insert_row item 0 (tallies d) with
    | None => d
    | Some t =>
        let d1 := with_tallies d t in
        let (groupID, d2) := insert_group d1 in
        match Sql.insert_row item groupID (aliases d2) with
        | None => d2
        | Some a => with_aliases d2 a
        end
    end
  else d.

Definition getScore (d : DB) (item : string) : Z :=
  match Sql.select_item item (tallies d) with
  | Some score => score
  | None => 0
  end.

Definition updateScore (d : DB) (item : string) (score : Z) : DB :=
  with_tallies d (Sql.update_item item score (tallies d)).

(** ** Group directory *)

Definition getGroupID (d : DB) (item : string) : Z :=
  match Sql.select_item item (aliases d) with
  | Some groupID => groupID
  | None => 0
  end.

Definition linkItems (d : DB) (item1 item2 : string) : DB :=
  let d1 := ensureItemExists d item1 in
  let d2 := ensureItemExists d1 item2 in
  let group1 := getGroupID d2 item1 in
  let group2 := getGroupID d2 item2 in
  if negb (group1 =? group2) then
    delete_group group2 (with_aliases d2 (Sql.update_value group1 group2 (aliases d2)))
  else d2.

Definition unlinkItems (d : DB) (item1 item2 : string) : DB :=
  let d1 := ensureItemExists d item1 in
  let d2 := ensureItemExists d1 item2 in
  let group1 := getGroupID d2 item1 in
  let group2 := getGroupID d2 item2 in
  if group1 =? group2 then
    let (newGroupID, d3) := insert_group d2 in
    with_aliases d3 (Sql.update_item item2 newGroupID (aliases d3))
  else d2.

(** ** Query engine *)

Definition getTotalScore (d : DB) (item : string) : Z :=
  let groupID := getGroupID d item in
  if groupID =? 0 then getScore d item
  else
    match Sql.sum_scan (Sql.join_scores groupID (tallies d) (aliases d)) with
    | Some total => total
    | None => 0
    end.

Definition getLinkedItems (d : DB) (item : string) : list string :=
  let groupID := getGroupID d item in
  if groupID =? 0 then []
  else Sql.select_others groupID item (aliases d).

(** ** Text: the functions of [strings], [regexp] and [fmt] that
    [handleMessage] calls

    Messages are byte strings; the model covers ASCII text (on other bytes
    [ToLower] and [TrimSpace] are taken to do nothing). *)

Module Text.

Local Open Scope string_scope.

Definition code (c : ascii) : N := N_of_ascii c.

Definition between (lo hi : N) (c : ascii) : bool :=
  (N.leb lo (code c)) && (N.leb (code c) hi).

Definition isUpper : ascii -> bool := between 65 90.
Definition isLower : ascii -> bool := between 97 122.
Definition isDigit : ascii -> bool := between 48 57.

(** The white space [strings.TrimSpace] removes: tab, line feed, vertical
    tab, form feed, carriage return and space. *)
Definition isSpace (c : ascii) : bool :=
  between 9 13 c || N.eqb (code c) 32.

(** [\w] of Go's regexp: [0-9A-Za-z_]. *)
Definition isWord (c : ascii) : bool :=
  isDigit c || isUpper c || isLower c || N.eqb (code c) 95.

(** The character class [[\w\.]]. *)
Definition isItemChar (c : ascii) : bool :=
  isWord c || N.eqb (code c) 46.

Definition lowerChar (c : ascii) : ascii :=
  if isUpper c then ascii_of_N (code c + 32) else c.

(** [strings.ToLower] *)
Fixpoint ToLower (s : string) : string :=
  match s with
  | EmptyString => EmptyString
  | String c rest => String (lowerChar c) (ToLower rest)
  end.

Fixpoint trimLeft (s : string) : string :=
  match s with
  | EmptyString => EmptyString
  | String c rest => if isSpace c then trimLeft rest else s
  end.

Fixpoint trimRight (s : string) : string :=
  match s with
  | EmptyString => EmptyString
  | String c rest =>
      match trimRight rest with
      | EmptyString => if isSpace c then EmptyString else String c EmptyString
      | kept => String c kept
      end
  end.

(** [strings.TrimSpace] *)
Definition TrimSpace (s : string) : string := trimRight (trimLeft s).

(** [strings.HasPrefix] *)
Definition HasPrefix (s p : string) : bool := String.prefix p s.

(** [strings.Join] *)
Definition Join (elems : list string) (sep : string) : string :=
  String.concat sep elems.

(** The verb [%d] of [fmt.Sprintf]. *)
Definition fmt_d (z : Z) : string := NilZero.string_of_int (Z.to_int z).

(** What is left of [s] after the literal [p], if [s] starts with it. *)
Fixpoint after (p s : string) : option string :=
  match p, s with
  | EmptyString, _ => Some s
  | String a p', String b s' => if Ascii.eqb a b then after p' s' else None
  | String _ _, EmptyString => None
  end.

(** The longest run of [[\w\.]] at the head of [s], and the rest. *)
Fixpoint span_item (s : string) : string * string :=
  match s with
  | EmptyString => (EmptyString, EmptyString)
  | String c rest =>
      if isItemChar c then
        let (run, tl) := span_item rest in (String c run, tl)
      else (EmptyString, s)
  end.

Definition is_empty (s : string) : bool :=
  match s with EmptyString => true | _ => false end.

(** [^<cmd> ([\w\.]+)$]: the submatch, when the whole text matches. *)
Definition match_item (cmd s : string) : option string :=
  match after cmd s with
  | None => None
  | Some r =>
      let (item, tl) := span_item r in
      if is_empty item then None
      else if is_empty tl then Some item else None
  end.

(** [^<cmd> ([\w\.]+) ([\w\.]+)$]: the two submatches.  No character of
    the class is a space, so the first group is the whole run before the
    separating space. *)
Definition match_two_items (cmd s : string) : option (string * string) :=
  match after cmd s with
  | None => None
  | Some r =>
      let (item1, tl1) := span_item r in
      if is_empty item1 then None
      else
        match after " " tl1 with
        | None => None
        | Some r2 =>
            let (item2, tl2) := span_item r2 in
            if is_empty item2 then None
            else if is_empty tl2 then Some (item1, item2) else None
        end
  end.

(** [^!help$] *)
Definition helpRegex (s : string) : bool := String.eqb s "!help".
(** [^!link ([\w\.]+) ([\w\.]+)$] *)
Definition linkRegex : string -> option (string * string) := match_two_items "!link ".
(** [^!unlink ([\w\.]+) ([\w\.]+)$] *)
Definition unlinkRegex : string -> option (string * string) := match_two_items "!unlink ".
(** [^!total ([\w\.]+)$] *)
Definition totalRegex : string -> option string := match_item "!total ".

(** [FindAllStringSubmatch] of [([\w\.]+)(\+\+|--)]: the successive
    leftmost matches, without overlap.  Neither [+] nor [-] is in the
    class, so a match is a whole run of the class followed at once by
    [++] or [--]; [run] is the run read so far. *)
Fixpoint upvote_scan (run s : string) : list (string * string) :=
  match s with
  | EmptyString => []
  | String c rest =>
      if isItemChar c then upvote_scan (run ++ String c EmptyString) rest
      else if is_empty run then upvote_scan EmptyString rest
      else
        match rest with
        | String c' rest' =>
            if Ascii.eqb c "+" && Ascii.eqb c' "+" then (run, "++") :: upvote_scan EmptyString rest'
            else if Ascii.eqb c "-" && Ascii.eqb c' "-" then (run, "--") :: upvote_scan EmptyString rest'
            else upvote_scan EmptyString rest
        | EmptyString => []
        end
  end.

Definition upvoteRegex (s : string) : list (string * string) := upvote_scan EmptyString s.

End Text.

(** ** The bot *)

(** One [bot.conn.Privmsg(target, text)]. *)
Definition privmsg : Type := (string * string)%type.

Definition help : string :=
  String.concat (String "010" EmptyString)
    ["Available commands:";
     "item++ or item--: Increment/decrement score for item";
     "!link item1 item2: Link two items to share scores";
     "!unlink item1 item2: Unlink two items";
     "!total item: Show total score for item and all linked items"]%string.

(** The body of the loop over [upvoteMatches] in [handleMessage]: one
    [item++] or [item--].  Returns the database and the response. *)
Definition applyVote (d : DB) (m : string * string) : DB * string :=
  let item := Text.ToLower (fst m) in
  let operation := snd m in
  let d1 := ensureItemExists d item in
  let currentScore := getScore d1 item in
  let newScore :=
    if String.eqb operation "++" then wrap64 (currentScore + 1)
    else wrap64 (currentScore - 1) in
  let d2 := updateScore d1 item newScore in
  let linkedItems := getLinkedItems d2 item in
  let linkedStr :=
    if (0 <? List.length linkedItems)%nat
    then (" (linked with: " ++ Text.Join linkedItems ", " ++ ")")%string
    else EmptyString in
  (d2, (item ++ ": [" ++ Text.fmt_d newScore ++ "]" ++ linkedStr)%string).

(** The loop itself: the matches from left to right, each with a response
    of its own sent to [target]. *)
Fixpoint applyVotes (target : string) (d : DB) (ms : list (string * string))
  : DB * list privmsg :=
  match ms with
  | [] => (d, [])
  | m :: rest =>
      let (d1, response) := applyVote d m in
      let (d2, out) := applyVotes target d1 rest in
      (d2, (target, response) :: out)
  end.

(** What [handleMessage] does once the message is trimmed, from the
    [!unlink] test on; this part is the same in both variants of the
    program. *)
Definition handleCommand (target : string) (d : DB) (message : string)
  : DB * list privmsg :=
  let messageLower := Text.ToLower message in
  match Text.unlinkRegex messageLower with
  | Some (item1, item2) =>
      (unlinkItems d item1 item2,
       [(target, "Unlinked " ++ item1 ++ " and " ++ item2 ++ ".")%string])
  | None =>
  match Text.linkRegex messageLower with
  | Some (item1, item2) =>
      (linkItems d item1 item2,
       [(target, "Linked " ++ item1 ++ " and " ++ item2 ++ ".")%string])
  | None =>
  match Text.totalRegex messageLower with
  | Some item =>
      (d, [(target, "Total score for group including " ++ item ++ ": ["
                      ++ Text.fmt_d (getTotalScore d item) ++ "]")%string])
  | None => applyVotes target d (Text.upvoteRegex message)
  end end end.

(** [tallybot.go]: the bot answers in the channel the message came from,
    when that is a private message or one of its active channels.
    [activeChannels] is the Go map, read as the function it is looked up
    with (a missing key reads [false]). *)
Definition handleMessage (activeChannels : string -> bool) (d : DB)
    (channel nick message : string) : DB * list privmsg :=
  let isPM := negb (Text.HasPrefix channel "#") in
  if negb isPM && negb (activeChannels channel) then (d, [])
  else
    let message := Text.TrimSpace message in
    let messageLower := Text.ToLower message in
    if Text.helpRegex messageLower then (d, [(channel, help)])
    else handleCommand channel d message.

(** The single-channel variant of the program: [handleMessage] has no
    channel argument, answers in [bot.channel], and has no [!help]. *)
Module SingleChannel.

Definition handleMessage (bot_channel : string) (d : DB)
    (nick message : string) : DB * list privmsg :=
  let message := Text.TrimSpace message in
  handleCommand bot_channel d message.

End SingleChannel.

(** A run of the bot: the messages of one channel, one after the other. *)
Fixpoint handleAll (handle : DB -> string -> DB * list privmsg) (d : DB)
    (lines : list string) : DB * list privmsg :=
  match lines with
  | [] => (d, [])
  | line :: rest =>
      let (d1, out1) := handle d line in
      let (d2, out2) := handleAll handle d1 rest in
      (d2, out1 ++ out2)
  end.

(** ** The operations of the tally engine *)

Inductive op : Type :=
| EnsureItem (item : string)
| ApplyDelta (item operation : string)
| Link (item1 item2 : string)
| Unlink (item1 item2 : string)
| Total (item : string)
| ListLinked (item : string).

(** The database after one operation; the two queries only read. *)
Definition step (d : DB) (o : op) : DB :=
  match o with
  | EnsureItem item => ensureItemExists d item
  | ApplyDelta item operation => fst (applyVote d (item, operation))
  | Link item1 item2 => linkItems d item1 item2
  | Unlink item1 item2 => unlinkItems d item1 item2
  | Total item => let _ := getTotalScore d item in d
  | ListLinked item => let _ := getLinkedItems d item in d
  end.

Definition run (d : DB) (ops : list op) : DB := fold_left step ops d.

(** ** Notions the claims are stated with *)

(** The item has a row in the score store. *)
Definition created (d : DB) (item : string) : Prop := In item (Sql.items (tallies d)).

(** The group id is referenced by some row of the membership table. *)
Definition referenced (d : DB) (g : Z) : Prop := In g (map snd (aliases d)).

(** The members of a group, in storage order. *)
Definition members (d : DB) (g : Z) : list string :=
  Sql.items (filter (fun r => snd r =? g) (aliases d)).

Definition sumZ (vs : list Z) : Z := fold_right Z.add 0 vs.

(** The weight of the score store: the sum of the absolute values. *)
Definition mass (d : DB) : Z := sumZ (map (fun r => Z.abs (snd r)) (tallies d)).

(** The invariant of the database: the two keyed tables hold the same items
    in the same order, each once, and every group id in use was handed out
    by the [groups] table. *)
Record wf (d : DB) : Prop := mk_wf {
  wf_items : Sql.items (tallies d) = Sql.items (aliases d);
  wf_nodup : NoDup (Sql.items (aliases d));
  wf_range : forall g, referenced d g -> 1 <= g <= groups_seq d;
  wf_seq : 0 <= groups_seq d
}.

(** The database with [x] added: score 0, alone in the next group. *)
Definition added (d : DB) (x : string) : DB :=
  mkDB (tallies d ++ [(x, 0)])
       (aliases d ++ [(x, groups_seq d + 1)])
       (groups d ++ [groups_seq d + 1])
       (groups_seq d + 1).

(** The database [linkItems] and [unlinkItems] compare the groups in. *)
Definition ensured (d : DB) (a b : string) : DB :=
  ensureItemExists (ensureItemExists d a) b.

(** The states the program can be in: the empty database after any
    sequence of operations. *)
Definition reachable (d : DB) : Prop := exists ops, d = run empty_db ops.

(** A retired group id: handed out once, referenced by no item now. *)
Definition retired (d : DB) (g : Z) : Prop :=
  1 <= g <= groups_seq d /\ ~ referenced d g.

(** The rows of the score table whose item is in group [g]. *)
Definition in_group (g : Z) (a : Sql.table) (r : string * Z) : bool :=
  match Sql.select_item (fst r) a with
  | Some g' => g' =? g
  | None => false
  end.

Definition sum_abs (vs : list Z) : Z := sumZ (map Z.abs vs).

(** Two databases to try the theorems on. *)
Definition abc : DB :=
  run empty_db [Link "a" "b"; Link "b" "c"; EnsureItem "z"]%string.

Definition one_vote : DB := run empty_db [ApplyDelta "a" "++"]%string.

(** The channel test at the head of [handleMessage] lets the message
    through: a private message, or an active channel. *)
Definition accepted (activeChannels : string -> bool) (channel : string) : Prop :=
  Text.HasPrefix channel "#" = false \/ activeChannels channel = true.

(** [needle] occurs in [text]. *)
Definition occurs (needle text : string) : bool :=
  match String.index 0 needle text with
  | Some _ => true
  | None => false
  end.

(** The scenario of the specification and the responses it lists. *)
Definition scenario : list string :=
  ["alpha++"; "beta++"; "!link alpha beta"; "alpha++"; "!total beta"]%string.

Definition scenario_responses : list string :=
  ["alpha: [1]"; "beta: [1]"; "Linked alpha and beta.";
   "alpha: [2] (linked with: beta)";
   "Total score for group including beta: [3]"]%string.

(** Every stored score is a 64-bit integer. *)
Definition scores_in_range (d : DB) : Prop :=
  forall x v, In (x, v) (tallies d) -> in_int64 v = true.

(** The [groups] table against the membership table: every group id in
    use has its row, no row is there twice, and every row was handed out
    by the counter. *)
Record groups_ok (d : DB) : Prop := mk_groups_ok {
  live_rows : forall g, referenced d g -> In g (groups d);
  rows_nodup : NoDup (groups d);
  rows_range : forall g, In g (groups d) -> 1 <= g <= groups_seq d
}.

(** The sum of the scores of the members of a group. *)
Definition group_sum (d : DB) (g : Z) : Z := sumZ (map (getScore d) (members d g)).

(** Every character of the string passes the test. *)
Fixpoint all_chars (p : ascii -> bool) (s : string) : bool :=
  match s with
  | EmptyString => true
  | String c rest => p c && all_chars p rest
  end.

(** A match of [[\w\.]+]: one or more characters of the class. *)
Definition is_item (s : string) : bool :=
  negb (Text.is_empty s) && all_chars Text.isItemChar s.

(** The head of the string, when there is one, is outside the class. *)
Definition stops (s : string) : bool :=
  match s with
  | EmptyString => true
  | String c _ => negb (Text.isItemChar c)
  end.

(** What a match of the vote pattern in the text [s] looks like: an item,
    then [++] or [--], somewhere in [s]. *)
Definition vote_in (s : string) (m : string * string) : Prop :=
  is_item (fst m) = true /\
  (snd m = "++" \/ snd m = "--")%string /\
  exists pre post, s = (pre ++ fst m ++ snd m ++ post)%string.

(** ** The bot and its callbacks

    [NewTallyBot] fills the map [activeChannels] from the configured
    list; [main] registers three callbacks on the connection, for the
    welcome reply [001], for [INVITE] and for [PRIVMSG].  A callback is
    modelled on the values it takes from the event: the channel (the last
    argument of an [INVITE], the first of a [PRIVMSG]), the nick and the
    message. *)

Record TallyBot : Type := mkBot {
  bot_db : DB;
  bot_active : string -> bool
}.

(** [activeMap[ch] = true] *)
Definition set_active (m : string -> bool) (ch : string) : string -> bool :=
  fun c => if String.eqb c ch then true else m c.

(** The map built by the loop of [NewTallyBot] over [activeChannels]. *)
Definition activeMap (activeChannels : list string) : string -> bool :=
  fold_left set_active activeChannels (fun _ => false).

(** Of the arguments of [NewTallyBot] the nickname, the server, the
    channels and the TLS flag only set up the connection; the database is
    the one [initializeDatabase] opens. *)
Definition NewTallyBot (activeChannels : list string) (d : DB) : TallyBot :=
  mkBot d (activeMap activeChannels).

Inductive event : Type :=
| Welcome
| Invite (channel nick : string)
| Privmsg (channel nick message : string).

(** What a callback sends on the connection. *)
Inductive action : Type :=
| Join (channel : string)
| Say (target text : string).

Definition say (r : privmsg) : action := Say (fst r) (snd r).

(** The callbacks of [main]; [channels] is [config.Channels]. *)
Definition on_event (channels : list string) (bot : TallyBot) (e : event)
  : TallyBot * list action :=
  match e with
  | Welcome => (bot, map Join channels)
  | Invite channel nick =>
      (if negb (bot_active bot channel)
       then mkBot (bot_db bot) (set_active (bot_active bot) channel)
       else bot,
       [Join channel])
  | Privmsg channel nick message =>
      let (d, out) := handleMessage (bot_active bot) (bot_db bot) channel nick message in
      (mkBot d (bot_active bot), map say out)
  end.

(** The events of a session, one after the other. *)
Fixpoint serve (channels : list string) (bot : TallyBot) (events : list event)
  : TallyBot * list action :=
  match events with
  | [] => (bot, [])
  | e :: rest =>
      let (bot1, out1) := on_event channels bot e in
      let (bot2, out2) := serve channels bot1 rest in
      (bot2, out1 ++ out2)
  end.

(** The operations a trimmed message stands for. *)
Definition message_ops (message : string) : list op :=
  let messageLower := Text.ToLower message in
  match Text.unlinkRegex messageLower with
  | Some (item1, item2) => [Unlink item1 item2]
  | None =>
  match Text.linkRegex messageLower with
  | Some (item1, item2) => [Link item1 item2]
  | None =>
  match Text.totalRegex messageLower with
  | Some item => [Total item]
  | None => map (fun m => ApplyDelta (fst m) (snd m)) (Text.upvoteRegex message)
  end end end.

Definition invited (c : string) (e : event) : bool :=
  match e with
  | Invite channel _ => String.eqb c channel
  | _ => false
  end.

(** A vote with its item lowercased, as the loop of [handleMessage]
    reads it. *)
Definition lower_match (m : string * string) : string * string :=
  (Text.ToLower (fst m), snd m).

(** A stored item name: one or more characters of [[\w\.]], none of them
    an upper-case letter. *)
Definition good_name (x : string) : Prop :=
  is_item x = true /\ Text.ToLower x = x.

(** The operations that create good names only. *)
Definition good_op (o : op) : Prop :=
  match o with
  | EnsureItem item => good_name item
  | ApplyDelta item _ => good_name (Text.ToLower item)
  | Link item1 item2 | Unlink item1 item2 => good_name item1 /\ good_name item2
  | Total _ | ListLinked _ => True
  end.

(** Neither [+] nor [-]. *)
Definition no_sign (c : ascii) : bool :=
  negb (Ascii.eqb c "+" || Ascii.eqb c "-").

(** ** Configuration: [readConfig]

    An opened file is what [bufio.Scanner] makes of it: the lines that
    [Scan] hands over, and the error that [Err] reports once [Scan] has
    stopped (a line of 64 KiB or more, a failed read), if any.  The two
    places searched are given as what [os.Open] finds there. *)

Definition scanned : Type := (list string * option string)%type.

Record Config : Type := mkConfig {
  Nickname : string;
  Server : string;
  Channels : list string;
  ActiveChannels : list string;
  UseTLS : bool
}.

(** The zero value of [Config]. *)
Definition zero_config : Config := mkConfig EmptyString EmptyString [] [] false.

(** [strings.Split(s, sep)] for a separator of one character: the fields
    between the separators; one empty field for the empty string. *)
Fixpoint Split (s : string) (sep : ascii) : list string :=
  match s with
  | EmptyString => [EmptyString]
  | String c rest =>
      if Ascii.eqb c sep then EmptyString :: Split rest sep
      else
        match Split rest sep with
        | field :: fields => String c field :: fields
        | [] => [String c EmptyString]
        end
  end.

(** [strings.SplitN(s, sep, 2)] for a separator of one character: [None]
    stands for the slice of length 1 (no separator in [s]), [Some] for the
    two parts around the first separator. *)
Fixpoint SplitN2 (s : string) (sep : ascii) : option (string * string) :=
  match s with
  | EmptyString => None
  | String c rest =>
      if Ascii.eqb c sep then Some (EmptyString, rest)
      else
        match SplitN2 rest sep with
        | Some (before, after) => Some (String c before, after)
        | None => None
        end
  end.

(** The head of the loop body: the key and the value of a line, or [None]
    for a line the loop skips (empty, a comment, or without [=]). *)
Definition key_value (line : string) : option (string * string) :=
  let line := Text.TrimSpace line in
  if Text.is_empty line || Text.HasPrefix line "#" then None
  else
    match SplitN2 line "=" with
    | None => None
    | Some (key, value) => Some (Text.TrimSpace key, Text.TrimSpace value)
    end.

(** The [switch] of the loop body; the second component is what
    [fmt.Printf] writes. *)
Definition assign (config : Config) (key value : string) : Config * list string :=
  if String.eqb key "nickname" then
    (mkConfig value (Server config) (Channels config) (ActiveChannels config)
              (UseTLS config), [])
  else if String.eqb key "server" then
    (mkConfig (Nickname config) value (Channels config) (ActiveChannels config)
              (UseTLS config), [])
  else if String.eqb key "channels" then
    (mkConfig (Nickname config) (Server config) (Split value ",")
              (ActiveChannels config) (UseTLS config), [])
  else if String.eqb key "active_channels" then
    (mkConfig (Nickname config) (Server config) (Channels config)
              (Split value ",") (UseTLS config), [])
  else if String.eqb key "use_tls" then
    let valueLower := Text.ToLower value in
    (mkConfig (Nickname config) (Server config) (Channels config)
              (ActiveChannels config)
              (String.eqb valueLower "true" || String.eqb valueLower "yes"
               || String.eqb valueLower "1"), [])
  else
    (config, [("Unknown configuration key: " ++ key ++ String "010" EmptyString)%string]).

(** The loop over the lines. *)
Fixpoint scan_lines (config : Config) (lines : list string) : Config * list string :=
  match lines with
  | [] => (config, [])
  | line :: rest =>
      match key_value line with
      | None => scan_lines config rest
      | Some (key, value) =>
          let (config1, printed1) := assign config key value in
          let (config2, printed2) := scan_lines config1 rest in
          (config2, printed1 ++ printed2)
      end
  end.

(** The defaults set after the loop. *)
Definition with_defaults (config : Config) : Config :=
  let nickname := if String.eqb (Nickname config) "" then "TallyBot"%string
                  else Nickname config in
  let server := if String.eqb (Server config) "" then "irc.libera.chat:6667"%string
                else Server config in
  let channels := if Nat.eqb (List.length (Channels config)) 0 then ["#tallybot"%string]
                  else Channels config in
  let activeChannels := if Nat.eqb (List.length (ActiveChannels config)) 0 then channels
                        else ActiveChannels config in
  mkConfig nickname server channels activeChannels (UseTLS config).

(** [readConfig]: [here] and [home] are [.tally.conf] in the current
    directory and in the home directory, [None] when [os.Open] fails (for
    [home], also when the user is unknown).  The result is the
    configuration, the error and what was printed; after an error of the
    scanner the configuration is returned as the loop left it, without
    the defaults. *)
Definition readConfig (here home : option scanned)
  : Config * option string * list string :=
  let file := match here with Some f => Some f | None => home end in
  match file with
  | None => (zero_config, Some "configuration file .tally.conf not found"%string, [])
  | Some (lines, scan_err) =>
      let (config, printed) := scan_lines zero_config lines in
      match scan_err with
      | Some err => (config, Some err, printed)
      | None => (with_defaults config, None, printed)
      end
  end.


(** The string does not hold the character. *)
Definition without (sep : ascii) (s : string) : bool :=
  all_chars (fun c => negb (Ascii.eqb c sep)) s.

(** The value of the last line of the file that has the key. *)
Fixpoint last_value (key : string) (lines : list string) : option string :=
  match lines with
  | [] => None
  | line :: rest =>
      match last_value key rest with
      | Some v => Some v
      | None =>
          match key_value line with
          | Some (k, v) => if String.eqb k key then Some v else None
          | None => None
          end
      end
  end.

(** The items an operation makes sure exist. *)
Definition op_creates (o : op) : list string :=
  match o with
  | EnsureItem item => [item]
  | ApplyDelta item _ => [Text.ToLower item]
  | Link item1 item2 | Unlink item1 item2 => [item1; item2]
  | Total _ | ListLinked _ => []
  end.

(** Two items carry the same group id (0 for an item never created). *)
Definition same_group (d : DB) (x y : string) : Prop :=
  getGroupID d x = getGroupID d y.

(** The text is ASCII: every byte is below 128.  On such text
    [Text.ToLower] and [Text.TrimSpace] compute what [strings.ToLower] and
    [strings.TrimSpace] compute. *)
Definition ascii_text (s : string) : bool :=
  all_chars (fun c => N.ltb (Text.code c) 128) s.

(** * Proofs *)

(** ** Tables *)

Section TableFacts.

Import Sql.

Lemma select_item_none (k : string) (t : table) :
  select_item k t = None <-> ~ In k (items t).
Proof.
  induction t as [|[k' v] t IH]; simpl.
  - tauto.
  - destruct (String.eqb_spec k' k) as [->|Hne].
    + split; [discriminate | intros H; exfalso; apply H; now left].
    + rewrite IH. split; [intros H [E|I]; [congruence | tauto] | tauto].
Qed.

Lemma select_item_some_in (k : string) (v : Z) (t : table) :
  select_item k t = Some v -> In (k, v) t.
Proof.
  induction t as [|[k' v'] t IH]; simpl; [discriminate|].
  destruct (String.eqb_spec k' k) as [->|Hne].
  - intros [= ->]. now left.
  - intros H. right. auto.
Qed.

Lemma select_item_in_items (k : string) (v : Z) (t : table) :
  select_item k t = Some v -> In k (items t).
Proof.
  intros H. apply select_item_some_in in H.
  unfold items. change k with (fst (k, v)). now apply in_map.
Qed.

Lemma in_items_select (k : string) (t : table) :
  In k (items t) -> exists v, select_item k t = Some v.
Proof.
  intros H. destruct (select_item k t) as [v|] eqn:E; [now exists v|].
  apply select_item_none in E. contradiction.
Qed.

Lemma nodup_select (k : string) (v : Z) (t : table) :
  NoDup (items t) -> In (k, v) t -> select_item k t = Some v.
Proof.
  induction t as [|[k' v'] t IH]; simpl; [tauto|].
  intros Hnd [E|I].
  - injection E as -> ->. now rewrite String.eqb_refl.
  - inversion Hnd as [|? ? Hnotin Hnd']; subst.
    destruct (String.eqb_spec k' k) as [->|Hne].
    + exfalso. apply Hnotin. unfold items.
      change k with (fst (k, v)). now apply in_map.
    + auto.
Qed.

Lemma count_item_zero (k : string) (t : table) :
  count_item k t = 0%nat <-> select_item k t = None.
Proof.
  unfold count_item.
  induction t as [|[k' v] t IH]; simpl; [tauto|].
  destruct (String.eqb_spec k' k); simpl; [split; discriminate | exact IH].
Qed.

Lemma select_item_app (k : string) (t u : table) :
  select_item k (t ++ u) =
  match select_item k t with Some v => Some v | None => select_item k u end.
Proof.
  induction t as [|[k' v] t IH]; simpl; [reflexivity|].
  now destruct (String.eqb k' k).
Qed.

Lemma items_app (t u : table) : items (t ++ u) = items t ++ items u.
Proof. apply map_app. Qed.

Lemma items_update_item (k : string) (v : Z) (t : table) :
  items (update_item k v t) = items t.
Proof.
  unfold items, update_item. rewrite map_map. apply map_ext.
  intros [k' v']; simpl. now destruct (String.eqb k' k).
Qed.

Lemma items_update_value (new old : Z) (t : table) :
  items (update_value new old t) = items t.
Proof.
  unfold items, update_value. rewrite map_map. apply map_ext.
  intros [k' v']; simpl. now destruct (v' =? old).
Qed.

Lemma select_update_item (k k' : string) (v : Z) (t : table) :
  select_item k (update_item k' v t) =
  if String.eqb k k' then option_map (fun _ => v) (select_item k t)
  else select_item k t.
Proof.
  induction t as [|[k0 v0] t IH]; simpl.
  - now destruct (String.eqb k k').
  - destruct (String.eqb_spec k0 k') as [->|Hne]; simpl.
    + destruct (String.eqb_spec k' k) as [->|Hne'].
      * now rewrite String.eqb_refl.
      * rewrite IH. reflexivity.
    + destruct (String.eqb_spec k0 k) as [->|Hne'].
      * apply String.eqb_neq in Hne. now rewrite Hne.
      * exact IH.
Qed.

Lemma select_update_value (k : string) (new old : Z) (t : table) :
  select_item k (update_value new old t) =
  option_map (fun g => if g =? old then new else g) (select_item k t).
Proof.
  induction t as [|[k0 v0] t IH]; simpl; [reflexivity|].
  destruct (v0 =? old) eqn:E; simpl; destruct (String.eqb k0 k); simpl;
    rewrite ?E; auto.
Qed.

Lemma values_update_value (new old : Z) (t : table) :
  map snd (update_value new old t) =
  map (fun g => if g =? old then new else g) (map snd t).
Proof.
  unfold update_value. rewrite !map_map. apply map_ext.
  intros [k v]; simpl. now destruct (v =? old).
Qed.

Lemma insert_row_fresh (k : string) (v : Z) (t : table) :
  ~ In k (items t) -> insert_row k v t = Some (t ++ [(k, v)]).
Proof.
  intros H. unfold insert_row.
  now rewrite (proj2 (select_item_none k t) H).
Qed.

End TableFacts.

(** ** Creating an item *)

Section EnsureFacts.

Lemma created_iff_aliased (d : DB) (x : string) :
  wf d -> (created d x <-> In x (Sql.items (aliases d))).
Proof. intros W. unfold created. now rewrite (wf_items d W). Qed.

Lemma created_dec (d : DB) (x : string) : {created d x} + {~ created d x}.
Proof. apply in_dec, string_dec. Defined.

Lemma ensure_created (d : DB) (x : string) :
  created d x -> ensureItemExists d x = d.
Proof.
  intros C. unfold ensureItemExists.
  destruct (Nat.eqb_spec (Sql.count_item x (tallies d)) 0) as [E|E]; [|reflexivity].
  apply count_item_zero, select_item_none in E. contradiction.
Qed.

Lemma ensure_new (d : DB) (x : string) :
  wf d -> ~ created d x -> ensureItemExists d x = added d x.
Proof.
  intros W C. unfold ensureItemExists.
  assert (E : Sql.count_item x (tallies d) = 0%nat)
    by now apply count_item_zero, select_item_none.
  rewrite E. simpl Nat.eqb. cbv iota.
  rewrite (insert_row_fresh x 0 (tallies d) C).
  cbn [insert_group with_tallies aliases tallies groups groups_seq].
  rewrite insert_row_fresh; [reflexivity|].
  now rewrite <- (created_iff_aliased d x W).
Qed.

Lemma ensure_cases (d : DB) (x : string) :
  wf d ->
  (created d x /\ ensureItemExists d x = d) \/
  (~ created d x /\ ensureItemExists d x = added d x).
Proof.
  intros W. destruct (created_dec d x) as [C|C].
  - left. split; [assumption | now apply ensure_created].
  - right. split; [assumption | now apply ensure_new].
Qed.

Lemma wf_added (d : DB) (x : string) :
  wf d -> ~ created d x -> wf (added d x).
Proof.
  intros W C. pose proof (wf_seq d W) as Hs. constructor; simpl.
  - rewrite !items_app, (wf_items d W). reflexivity.
  - rewrite items_app. simpl.
    apply NoDup_app; [apply (wf_nodup d W) | repeat constructor; simpl; tauto |].
    intros y Hy [<-|[]]. apply C. now apply created_iff_aliased.
  - intros g. unfold referenced. simpl. rewrite map_app, in_app_iff. simpl.
    intros [H|[<-|[]]]; [|lia].
    pose proof (wf_range d W g H). lia.
  - lia.
Qed.

Lemma wf_ensure (d : DB) (x : string) : wf d -> wf (ensureItemExists d x).
Proof.
  intros W. destruct (ensure_cases d x W) as [[_ ->]|[C ->]]; [assumption|].
  now apply wf_added.
Qed.

Lemma created_ensure_self (d : DB) (x : string) :
  wf d -> created (ensureItemExists d x) x.
Proof.
  intros W. destruct (ensure_cases d x W) as [[C ->]|[C ->]]; [assumption|].
  unfold created. simpl. rewrite items_app, in_app_iff. simpl. tauto.
Qed.

Lemma created_ensure_mono (d : DB) (x y : string) :
  wf d -> created d y -> created (ensureItemExists d x) y.
Proof.
  intros W Cy. destruct (ensure_cases d x W) as [[C ->]|[C ->]]; [assumption|].
  unfold created. simpl. rewrite items_app, in_app_iff. now left.
Qed.

Lemma created_ensure_inv (d : DB) (x y : string) :
  wf d -> created (ensureItemExists d x) y -> created d y \/ y = x.
Proof.
  intros W. destruct (ensure_cases d x W) as [[C ->]|[C ->]]; [tauto|].
  unfold created. simpl. rewrite items_app, in_app_iff. simpl.
  intros [H|[<-|[]]]; tauto.
Qed.

Lemma getGroupID_added (d : DB) (x y : string) :
  wf d -> ~ created d x ->
  getGroupID (added d x) y =
  if String.eqb x y then groups_seq d + 1 else getGroupID d y.
Proof.
  intros W C. unfold getGroupID. simpl. rewrite select_item_app. simpl.
  destruct (String.eqb_spec x y) as [<-|Hne].
  - assert (E : Sql.select_item x (aliases d) = None).
    { apply select_item_none. now rewrite <- (created_iff_aliased d x W). }
    now rewrite E.
  - now destruct (Sql.select_item y (aliases d)).
Qed.

Lemma getGroupID_ensure_old (d : DB) (x y : string) :
  wf d -> created d y ->
  getGroupID (ensureItemExists d x) y = getGroupID d y.
Proof.
  intros W Cy. destruct (ensure_cases d x W) as [[C ->]|[C ->]]; [reflexivity|].
  rewrite getGroupID_added by assumption.
  destruct (String.eqb_spec x y) as [<-|Hne]; [contradiction | reflexivity].
Qed.

Lemma getScore_ensure (d : DB) (x y : string) :
  getScore (ensureItemExists d x) y = getScore d y.
Proof.
  unfold ensureItemExists.
  destruct (Nat.eqb_spec (Sql.count_item x (tallies d)) 0) as [E|E]; [|reflexivity].
  apply count_item_zero in E. unfold Sql.insert_row at 1. rewrite E.
  assert (G : forall a g, getScore (mkDB (tallies d ++ [(x, 0)]) a g (groups_seq d + 1)) y
                          = getScore d y).
  { intros a g. unfold getScore. simpl. rewrite select_item_app. simpl.
    destruct (Sql.select_item y (tallies d)) eqn:Ey; [reflexivity|].
    destruct (String.eqb_spec x y) as [<-|Hne]; reflexivity. }
  cbn [insert_group with_tallies aliases tallies groups groups_seq].
  destruct (Sql.insert_row x (groups_seq d + 1) (aliases d)); apply G.
Qed.

(** A created item has a group, and its id is positive. *)
Lemma getGroupID_created (d : DB) (x : string) :
  wf d -> created d x -> 1 <= getGroupID d x <= groups_seq d.
Proof.
  intros W C. apply (created_iff_aliased d x W), in_items_select in C.
  destruct C as [g Hg]. unfold getGroupID. rewrite Hg.
  apply (wf_range d W). unfold referenced.
  apply select_item_some_in in Hg. change g with (snd (x, g)). now apply in_map.
Qed.

Lemma getGroupID_not_created (d : DB) (x : string) :
  wf d -> ~ created d x -> getGroupID d x = 0.
Proof.
  intros W C. unfold getGroupID.
  assert (E : Sql.select_item x (aliases d) = None).
  { apply select_item_none. now rewrite <- (created_iff_aliased d x W). }
  now rewrite E.
Qed.

End EnsureFacts.

(** ** Merging and splitting *)

Section GroupFacts.

Lemma wf_ensured (d : DB) (a b : string) : wf d -> wf (ensured d a b).
Proof. intros W. now apply wf_ensure, wf_ensure. Qed.

Lemma created_ensured_l (d : DB) (a b : string) : wf d -> created (ensured d a b) a.
Proof.
  intros W. apply created_ensure_mono; [now apply wf_ensure|].
  now apply created_ensure_self.
Qed.

Lemma created_ensured_r (d : DB) (a b : string) : wf d -> created (ensured d a b) b.
Proof. intros W. apply created_ensure_self. now apply wf_ensure. Qed.

Lemma ensured_created (d : DB) (a b : string) :
  created d a -> created d b -> ensured d a b = d.
Proof.
  intros Ca Cb. unfold ensured. rewrite (ensure_created d a Ca).
  now apply ensure_created.
Qed.

Lemma getGroupID_ensured_old (d : DB) (a b x : string) :
  wf d -> created d x -> getGroupID (ensured d a b) x = getGroupID d x.
Proof.
  intros W C. unfold ensured.
  rewrite getGroupID_ensure_old; [| now apply wf_ensure | now apply created_ensure_mono].
  now apply getGroupID_ensure_old.
Qed.

Lemma values_update_item (k : string) (v g : Z) (t : Sql.table) :
  In g (map snd (Sql.update_item k v t)) -> g = v \/ In g (map snd t).
Proof.
  induction t as [|[k0 v0] t IH]; simpl; [tauto|].
  destruct (String.eqb k0 k); simpl; intros [H|H]; auto;
    destruct (IH H); auto.
Qed.

Lemma linkItems_eq (d : DB) (a b : string) :
  linkItems d a b =
  let d2 := ensured d a b in
  if getGroupID d2 a =? getGroupID d2 b then d2
  else mkDB (tallies d2)
            (Sql.update_value (getGroupID d2 a) (getGroupID d2 b) (aliases d2))
            (filter (fun h => negb (h =? getGroupID d2 b)) (groups d2))
            (groups_seq d2).
Proof.
  unfold linkItems, ensured. cbv zeta.
  destruct (_ =? _); reflexivity.
Qed.

Lemma unlinkItems_eq (d : DB) (a b : string) :
  unlinkItems d a b =
  let d2 := ensured d a b in
  if getGroupID d2 a =? getGroupID d2 b then
    mkDB (tallies d2)
         (Sql.update_item b (groups_seq d2 + 1) (aliases d2))
         (groups d2 ++ [groups_seq d2 + 1])
         (groups_seq d2 + 1)
  else d2.
Proof.
  unfold unlinkItems, ensured. cbv zeta.
  destruct (_ =? _); reflexivity.
Qed.

Lemma wf_link (d : DB) (a b : string) : wf d -> wf (linkItems d a b).
Proof.
  intros W. rewrite linkItems_eq. cbv zeta.
  pose proof (wf_ensured d a b W) as W2.
  pose proof (getGroupID_created _ a W2 (created_ensured_l d a b W)) as Ra.
  destruct (_ =? _); [assumption|].
  constructor; simpl.
  - rewrite items_update_value. apply (wf_items _ W2).
  - rewrite items_update_value. apply (wf_nodup _ W2).
  - intros g. unfold referenced. simpl. rewrite values_update_value, in_map_iff.
    intros (g0 & E & I). destruct (g0 =? _); subst; [assumption|].
    now apply (wf_range _ W2).
  - apply (wf_seq _ W2).
Qed.

Lemma wf_unlink (d : DB) (a b : string) : wf d -> wf (unlinkItems d a b).
Proof.
  intros W. rewrite unlinkItems_eq. cbv zeta.
  pose proof (wf_ensured d a b W) as W2.
  pose proof (wf_seq _ W2) as Hs.
  destruct (_ =? _); [|assumption].
  constructor; simpl.
  - rewrite items_update_item. apply (wf_items _ W2).
  - rewrite items_update_item. apply (wf_nodup _ W2).
  - intros g. unfold referenced. simpl. intros H.
    apply values_update_item in H. destruct H as [->|H]; [lia|].
    pose proof (wf_range _ W2 g H). lia.
  - lia.
Qed.

Lemma getGroupID_link (d : DB) (a b x : string) :
  wf d ->
  getGroupID (linkItems d a b) x =
  let d2 := ensured d a b in
  if getGroupID d2 x =? getGroupID d2 b then getGroupID d2 a else getGroupID d2 x.
Proof.
  intros W. rewrite linkItems_eq. cbv zeta.
  pose proof (wf_ensured d a b W) as W2.
  pose proof (getGroupID_created _ b W2 (created_ensured_r d a b W)) as Rb.
  set (g1 := getGroupID (ensured d a b) a) in *.
  set (g2 := getGroupID (ensured d a b) b) in *.
  destruct (Z.eqb_spec g1 g2) as [E|E].
  - destruct (Z.eqb_spec (getGroupID (ensured d a b) x) g2); congruence.
  - unfold getGroupID. cbn [aliases]. rewrite select_update_value.
    destruct (Sql.select_item x (aliases (ensured d a b))) as [g|]; cbn [option_map].
    + reflexivity.
    + destruct (Z.eqb_spec 0 g2); [lia | reflexivity].
Qed.

Lemma getGroupID_unlink (d : DB) (a b x : string) :
  wf d ->
  getGroupID (unlinkItems d a b) x =
  let d2 := ensured d a b in
  if (getGroupID d2 a =? getGroupID d2 b) && String.eqb x b
  then groups_seq d2 + 1 else getGroupID d2 x.
Proof.
  intros W. rewrite unlinkItems_eq. cbv zeta.
  pose proof (wf_ensured d a b W) as W2.
  destruct (getGroupID (ensured d a b) a =? getGroupID (ensured d a b) b); simpl;
    [|reflexivity].
  unfold getGroupID at 1. simpl. rewrite select_update_item.
  destruct (String.eqb_spec x b) as [->|Hne]; [|reflexivity].
  pose proof (created_ensured_r d a b W) as Cb.
  apply (created_iff_aliased _ _ W2), in_items_select in Cb.
  destruct Cb as [g ->]. reflexivity.
Qed.

Lemma tallies_link (d : DB) (a b : string) :
  tallies (linkItems d a b) = tallies (ensured d a b).
Proof. rewrite linkItems_eq. cbv zeta. now destruct (_ =? _). Qed.

Lemma tallies_unlink (d : DB) (a b : string) :
  tallies (unlinkItems d a b) = tallies (ensured d a b).
Proof. rewrite unlinkItems_eq. cbv zeta. now destruct (_ =? _). Qed.

Lemma created_link (d : DB) (a b x : string) :
  created (linkItems d a b) x <-> created (ensured d a b) x.
Proof. unfold created. now rewrite tallies_link. Qed.

Lemma created_unlink (d : DB) (a b x : string) :
  created (unlinkItems d a b) x <-> created (ensured d a b) x.
Proof. unfold created. now rewrite tallies_unlink. Qed.

End GroupFacts.

(** ** The invariant along a run *)

Section RunFacts.

Lemma wf_empty : wf empty_db.
Proof.
  constructor; simpl; try reflexivity; try lia.
  - constructor.
  - intros g [].
Qed.

Lemma applyVote_db (d : DB) (m : string * string) :
  exists score,
    fst (applyVote d m) =
    updateScore (ensureItemExists d (Text.ToLower (fst m))) (Text.ToLower (fst m)) score.
Proof. unfold applyVote. eexists. reflexivity. Qed.

Lemma wf_updateScore (d : DB) (x : string) (v : Z) : wf d -> wf (updateScore d x v).
Proof.
  intros W. constructor; simpl.
  - rewrite items_update_item. apply (wf_items d W).
  - apply (wf_nodup d W).
  - apply (wf_range d W).
  - apply (wf_seq d W).
Qed.

Lemma wf_step (d : DB) (o : op) : wf d -> wf (step d o).
Proof.
  intros W. destruct o as [x|x o|a b|a b|x|x]; cbn [step]; try assumption.
  - now apply wf_ensure.
  - destruct (applyVote_db d (x, o)) as [v ->]. now apply wf_updateScore, wf_ensure.
  - now apply wf_link.
  - now apply wf_unlink.
Qed.

Lemma wf_run (ops : list op) (d : DB) : wf d -> wf (run d ops).
Proof.
  revert d. induction ops as [|o ops IH]; intros d W; simpl; [assumption|].
  apply IH. now apply wf_step.
Qed.

Lemma reachable_wf (d : DB) : reachable d -> wf d.
Proof. intros [ops ->]. apply wf_run, wf_empty. Qed.

Lemma reachable_step (d : DB) (o : op) : reachable d -> reachable (step d o).
Proof.
  intros [ops ->]. exists (ops ++ [o]). unfold run. now rewrite fold_left_app.
Qed.

Lemma run_app (d : DB) (ops1 ops2 : list op) :
  run d (ops1 ++ ops2) = run (run d ops1) ops2.
Proof. apply fold_left_app. Qed.

(** The group ids a step brings into the membership table are new. *)
Lemma referenced_ensure (d : DB) (x : string) (g : Z) :
  wf d -> referenced (ensureItemExists d x) g ->
  referenced d g \/ groups_seq d < g.
Proof.
  intros W. destruct (ensure_cases d x W) as [[_ ->]|[_ ->]]; [tauto|].
  unfold referenced. simpl. rewrite map_app, in_app_iff. simpl.
  intros [H|[<-|[]]]; [tauto | right; lia].
Qed.

Lemma groups_seq_ensure (d : DB) (x : string) :
  wf d -> groups_seq d <= groups_seq (ensureItemExists d x).
Proof.
  intros W. destruct (ensure_cases d x W) as [[_ ->]|[_ ->]]; simpl; lia.
Qed.

Lemma referenced_ensured (d : DB) (a b : string) (g : Z) :
  wf d -> referenced (ensured d a b) g -> referenced d g \/ groups_seq d < g.
Proof.
  intros W H. apply referenced_ensure in H; [|now apply wf_ensure].
  pose proof (groups_seq_ensure d a W).
  destruct H as [H|H]; [|right; lia].
  now apply referenced_ensure in H.
Qed.

Lemma groups_seq_ensured (d : DB) (a b : string) :
  wf d -> groups_seq d <= groups_seq (ensured d a b).
Proof.
  intros W. pose proof (groups_seq_ensure d a W).
  pose proof (groups_seq_ensure _ b (wf_ensure d a W)). unfold ensured. lia.
Qed.

Lemma referenced_getGroupID (d : DB) (x : string) :
  wf d -> created d x -> referenced d (getGroupID d x).
Proof.
  intros W C. apply (created_iff_aliased d x W), in_items_select in C.
  destruct C as [g Hg]. unfold getGroupID. rewrite Hg.
  apply select_item_some_in in Hg. unfold referenced.
  change g with (snd (x, g)). now apply in_map.
Qed.

Lemma referenced_step (d : DB) (o : op) (g : Z) :
  wf d -> referenced (step d o) g -> referenced d g \/ groups_seq d < g.
Proof.
  intros W. destruct o as [x|x o|a b|a b|x|x]; cbn [step]; try tauto.
  - now apply referenced_ensure.
  - destruct (applyVote_db d (x, o)) as [v ->]. now apply referenced_ensure.
  - rewrite linkItems_eq. cbv zeta.
    destruct (_ =? _); [now apply referenced_ensured|].
    unfold referenced at 1. simpl. rewrite values_update_value, in_map_iff.
    intros (g0 & E & I). apply (referenced_ensured d a b); [assumption|].
    destruct (g0 =? _); subst; [|assumption].
    apply referenced_getGroupID;
      [apply (wf_ensured d a b W) | apply (created_ensured_l d a b W)].
  - rewrite unlinkItems_eq. cbv zeta.
    destruct (_ =? _); [|now apply referenced_ensured].
    unfold referenced at 1. simpl. intros H.
    apply values_update_item in H. pose proof (groups_seq_ensured d a b W).
    destruct H as [->|H]; [right; lia|]. now apply (referenced_ensured d a b).
Qed.

Lemma groups_seq_step (d : DB) (o : op) :
  wf d -> groups_seq d <= groups_seq (step d o).
Proof.
  intros W. destruct o as [x|x o|a b|a b|x|x]; cbn [step]; try lia.
  - now apply groups_seq_ensure.
  - destruct (applyVote_db d (x, o)) as [v ->]. simpl. now apply groups_seq_ensure.
  - rewrite linkItems_eq. cbv zeta. pose proof (groups_seq_ensured d a b W).
    now destruct (_ =? _).
  - rewrite unlinkItems_eq. cbv zeta. pose proof (groups_seq_ensured d a b W).
    destruct (_ =? _); simpl; lia.
Qed.

Lemma retired_step (d : DB) (o : op) (g : Z) :
  wf d -> retired d g -> retired (step d o) g.
Proof.
  intros W [R N]. pose proof (groups_seq_step d o W) as Hs. split; [lia|].
  intros H. apply referenced_step in H; [|assumption]. destruct H; [tauto | lia].
Qed.

Lemma retired_run (ops : list op) (d : DB) (g : Z) :
  wf d -> retired d g -> retired (run d ops) g.
Proof.
  revert d. induction ops as [|o ops IH]; intros d W R; simpl; [assumption|].
  apply IH; [now apply wf_step | now apply retired_step].
Qed.

Lemma groups_seq_run (ops : list op) (d : DB) :
  wf d -> groups_seq d <= groups_seq (run d ops).
Proof.
  revert d. induction ops as [|o ops IH]; intros d W; simpl; [lia|].
  pose proof (groups_seq_step d o W). pose proof (IH _ (wf_step d o W)). lia.
Qed.

End RunFacts.

(** ** Splitting a group: [unlinkItems] *)

Section UnlinkClaims.

Lemma fresh_not_referenced (d : DB) :
  wf d -> ~ referenced d (groups_seq d + 1).
Proof. intros W H. pose proof (wf_range d W _ H). lia. Qed.

Lemma shares_created (d : DB) (a b : string) :
  wf d -> created d a -> getGroupID d a = getGroupID d b -> created d b.
Proof.
  intros W Ca E. destruct (created_dec d b) as [C|C]; [assumption|].
  pose proof (getGroupID_created d a W Ca).
  pose proof (getGroupID_not_created d b W C). lia.
Qed.

Lemma getGroupID_bound (d : DB) (x : string) :
  wf d -> 0 <= getGroupID d x <= groups_seq d.
Proof.
  intros W. pose proof (wf_seq d W). destruct (created_dec d x) as [C|C].
  - pose proof (getGroupID_created d x W C). lia.
  - rewrite (getGroupID_not_created d x W C). lia.
Qed.

(** The assignment after [unlinkItems] on two created items of one group. *)
Lemma unlink_shared (d : DB) (a b x : string) :
  wf d -> created d a -> getGroupID d a = getGroupID d b ->
  getGroupID (unlinkItems d a b) x =
  if String.eqb x b then groups_seq d + 1 else getGroupID d x.
Proof.
  intros W Ca E. pose proof (shares_created d a b W Ca E) as Cb.
  rewrite getGroupID_unlink by assumption. cbv zeta.
  rewrite (ensured_created d a b Ca Cb), E, Z.eqb_refl. reflexivity.
Qed.




End UnlinkClaims.

(** ** Merging two groups: [linkItems] *)

Section LinkClaims.

Lemma created_ensured_iff (d : DB) (a b x : string) :
  wf d -> (created (ensured d a b) x <-> created d x \/ x = a \/ x = b).
Proof.
  intros W. pose proof (wf_ensure d a W) as W1. split.
  - intros H. apply created_ensure_inv in H; [|assumption].
    destruct H as [H|H]; [|tauto].
    apply created_ensure_inv in H; [|assumption]. tauto.
  - intros [H|[E|E]]; try subst x.
    + now apply created_ensure_mono, created_ensure_mono.
    + now apply created_ensured_l.
    + now apply created_ensured_r.
Qed.

(** A new item starts alone, in a group id larger than all before. *)
Lemma added_alone (d : DB) (x : string) :
  wf d -> ~ created d x ->
  getGroupID (added d x) x = groups_seq d + 1 /\
  forall y, getGroupID (added d x) y = getGroupID (added d x) x -> y = x.
Proof.
  intros W C.
  assert (E : getGroupID (added d x) x = groups_seq d + 1).
  { rewrite getGroupID_added by assumption. now rewrite String.eqb_refl. }
  split; [exact E|]. intros y. rewrite E, getGroupID_added by assumption.
  destruct (String.eqb_spec x y) as [->|Hne]; [reflexivity|].
  pose proof (getGroupID_bound d y W). lia.
Qed.

Lemma ensured_new_alone (d : DB) (a b x : string) :
  wf d -> created (ensured d a b) x -> ~ created d x ->
  groups_seq d < getGroupID (ensured d a b) x /\
  forall y, getGroupID (ensured d a b) y = getGroupID (ensured d a b) x -> y = x.
Proof.
  intros W C2 C. pose proof (wf_ensure d a W) as W1. unfold ensured in *.
  pose proof (groups_seq_ensure d a W) as S1.
  destruct (ensure_cases _ b W1) as [[Cb E2]|[Cb E2]]; rewrite E2 in *.
  - (* [b] was there after the first step, so [x] is [a], newly added *)
    destruct (ensure_cases d a W) as [[Ca E1]|[Ca E1]]; rewrite E1 in *;
      [contradiction|].
    assert (x = a) as ->.
    { unfold created in C2. simpl in C2. rewrite items_app, in_app_iff in C2.
      simpl in C2. destruct C2 as [H|[H|[]]]; [contradiction | now symmetry]. }
    destruct (added_alone d a W Ca) as [E A]. split; [lia | exact A].
  - destruct (String.eqb_spec x b) as [->|Hxb].
    + destruct (added_alone _ b W1 Cb) as [E A]. split; [lia | exact A].
    + (* [x] is [a], added by the first step; [b] came after it *)
      assert (C1 : created (ensureItemExists d a) x).
      { unfold created in C2. simpl in C2. rewrite items_app, in_app_iff in C2.
        simpl in C2. destruct C2 as [H|[H|[]]]; [exact H | now symmetry in H]. }
      destruct (ensure_cases d a W) as [[Ca E1]|[Ca E1]]; rewrite E1 in *;
        [contradiction|].
      assert (x = a) as ->.
      { unfold created in C1. simpl in C1. rewrite items_app, in_app_iff in C1.
        simpl in C1. destruct C1 as [H|[H|[]]]; [contradiction | now symmetry]. }
      destruct (added_alone d a W Ca) as [E A].
      assert (Ea : getGroupID (added (added d a) b) a = groups_seq d + 1).
      { rewrite getGroupID_added by assumption.
        apply not_eq_sym, String.eqb_neq in Hxb. now rewrite Hxb. }
      split; [lia|]. intros y. rewrite Ea.
      rewrite (getGroupID_added (added d a) b y) by assumption.
      destruct (String.eqb_spec b y) as [<-|Hby]; [simpl; lia|].
      rewrite <- E. apply A.
Qed.

Lemma link_joins (d : DB) (a b : string) :
  wf d ->
  getGroupID (linkItems d a b) a = getGroupID (ensured d a b) a /\
  getGroupID (linkItems d a b) b = getGroupID (ensured d a b) a.
Proof.
  intros W. rewrite !getGroupID_link by assumption. cbv zeta.
  rewrite Z.eqb_refl. split; [|reflexivity].
  destruct (Z.eqb_spec (getGroupID (ensured d a b) a) (getGroupID (ensured d a b) b));
    reflexivity.
Qed.

Lemma link_idempotent (d : DB) (a b : string) :
  wf d -> linkItems (linkItems d a b) a b = linkItems d a b.
Proof.
  intros W. pose proof (wf_link d a b W) as W'.
  assert (Ca : created (linkItems d a b) a)
    by (apply created_link; apply (created_ensured_l d a b W)).
  assert (Cb : created (linkItems d a b) b)
    by (apply created_link; apply (created_ensured_r d a b W)).
  destruct (link_joins d a b W) as [Ja Jb].
  rewrite (linkItems_eq (linkItems d a b)). cbv zeta.
  rewrite (ensured_created _ a b Ca Cb), Ja, Jb, Z.eqb_refl. reflexivity.
Qed.

Lemma link_chain (d : DB) (a b c : string) :
  wf d ->
  let d2 := linkItems (linkItems d a b) b c in
  getGroupID d2 a = getGroupID d2 b /\ getGroupID d2 b = getGroupID d2 c /\
  1 <= getGroupID d2 a.
Proof.
  intros W. cbv zeta. set (d1 := linkItems d a b).
  pose proof (wf_link d a b W) as W1. fold d1 in W1.
  assert (Ca : created d1 a)
    by (apply created_link; apply (created_ensured_l d a b W)).
  assert (Cb : created d1 b)
    by (apply created_link; apply (created_ensured_r d a b W)).
  destruct (link_joins d a b W) as [Ja Jb]. fold d1 in Ja, Jb.
  pose proof (getGroupID_ensured_old d1 b c a W1 Ca) as Ga.
  pose proof (getGroupID_ensured_old d1 b c b W1 Cb) as Gb.
  assert (Gab : getGroupID (ensured d1 b c) a = getGroupID (ensured d1 b c) b)
    by congruence.
  assert (Ea : getGroupID (linkItems d1 b c) a = getGroupID (ensured d1 b c) b).
  { rewrite getGroupID_link by assumption. cbv zeta. rewrite Gab.
    now destruct (_ =? _). }
  assert (Eb : getGroupID (linkItems d1 b c) b = getGroupID (ensured d1 b c) b).
  { rewrite getGroupID_link by assumption. cbv zeta. now destruct (_ =? _). }
  assert (Ec : getGroupID (linkItems d1 b c) c = getGroupID (ensured d1 b c) b).
  { rewrite getGroupID_link by assumption. cbv zeta. now rewrite Z.eqb_refl. }
  rewrite Ea, Eb, Ec. repeat split.
  rewrite Gb. pose proof (getGroupID_created d1 b W1 Cb). lia.
Qed.

Lemma link_retires (d : DB) (a b : string) :
  let d2 := ensured d a b in
  getGroupID d2 a <> getGroupID d2 b ->
  ~ referenced (linkItems d a b) (getGroupID d2 b) /\
  ~ In (getGroupID d2 b) (groups (linkItems d a b)).
Proof.
  cbv zeta. intros Hne. rewrite linkItems_eq. cbv zeta.
  destruct (Z.eqb_spec (getGroupID (ensured d a b) a) (getGroupID (ensured d a b) b))
    as [E|_]; [contradiction|].
  unfold referenced. simpl. split.
  - rewrite values_update_value, in_map_iff. intros (g0 & E & _).
    destruct (Z.eqb_spec g0 (getGroupID (ensured d a b) b)); congruence.
  - rewrite filter_In. intros [_ H]. now rewrite Z.eqb_refl in H.
Qed.

End LinkClaims.

Section LinkTheorems.

(** C2.  [linkItems a b] first makes sure both items exist: items that
    were there keep their group, an item made now is alone in a group id
    larger than all handed out before.  Then every item of [b]'s group is
    re-pointed to [a]'s group and every other item keeps its group; when
    the two groups differ, [b]'s old group id is referenced by no item
    any more and is gone from the [groups] table; the group id [a] and
    [b] end up with is [a]'s; when the two groups are the same nothing
    changes.  Linking a second time changes nothing, and after
    [linkItems a b] and [linkItems b c] the three items share one
    group. *)
Theorem link_merges_into_first (d : DB) (a b : string) :
  reachable d ->
  let d2 := ensured d a b in
  let d' := linkItems d a b in
  (created d2 a /\ created d2 b) /\
  (forall x, created d x -> getGroupID d2 x = getGroupID d x) /\
  (forall x, created d2 x -> ~ created d x ->
     groups_seq d < getGroupID d2 x /\
     forall y, getGroupID d2 y = getGroupID d2 x -> y = x) /\
  (forall x, getGroupID d' x =
     if getGroupID d2 x =? getGroupID d2 b then getGroupID d2 a
     else getGroupID d2 x) /\
  (getGroupID d2 a <> getGroupID d2 b ->
     ~ referenced d' (getGroupID d2 b) /\ ~ In (getGroupID d2 b) (groups d')) /\
  (getGroupID d' a = getGroupID d2 a /\ getGroupID d' b = getGroupID d2 a) /\
  (getGroupID d2 a = getGroupID d2 b -> d' = d2) /\
  linkItems d' a b = d' /\
  (forall c, let d3 := linkItems d' b c in
     getGroupID d3 a = getGroupID d3 b /\ getGroupID d3 b = getGroupID d3 c /\
     1 <= getGroupID d3 a).
Proof.
  intros R. pose proof (reachable_wf d R) as W. cbv zeta.
  split; [split; [apply (created_ensured_l d a b W) | apply (created_ensured_r d a b W)]|].
  split; [intros x Cx; now apply getGroupID_ensured_old|].
  split; [intros x C2 C; now apply ensured_new_alone|].
  split; [intros x; now apply getGroupID_link|].
  split; [apply link_retires|].
  split; [now apply link_joins|].
  split.
  { intros E. rewrite linkItems_eq. cbv zeta. now rewrite E, Z.eqb_refl. }
  split; [now apply link_idempotent|].
  intros c. now apply link_chain.
Qed.

Lemma link_merges_into_first_witness :
  getGroupID (linkItems one_vote "a" "b") "b" = 1 /\
  ~ referenced (linkItems one_vote "a" "b") 2 /\
  linkItems (linkItems one_vote "a" "b") "a" "b" = linkItems one_vote "a" "b".
Proof.
  assert (R : reachable one_vote) by (eexists; reflexivity).
  destruct (link_merges_into_first one_vote "a" "b" R)
    as (_ & _ & _ & _ & Hret & [_ Hb] & _ & Hidem & _).
  split; [exact Hb|]. split; [|exact Hidem].
  apply Hret. vm_compute. discriminate.
Defined.

(** C6 as the claim states it fails twice.  With [a = b], a line the
    patterns accept, [linkItems x x] and [unlinkItems x x] leave the
    one item in group 2, so the two group ids compared are the same.  And
    [unlinkItems] does write to the score store: on two names that are
    new it inserts a row for each. *)
Lemma link_then_unlink_fails :
  (let d2 := unlinkItems (linkItems empty_db "x" "x") "x" "x" in
   aliases d2 = [("x"%string, 2)] /\
   ~ (getGroupID d2 "x" <> getGroupID d2 "x")) /\
  (tallies empty_db = [] /\
   tallies (unlinkItems empty_db "a" "b") = [("a"%string, 0); ("b"%string, 0)] /\
   tallies (unlinkItems empty_db "a" "b") <> tallies empty_db).
Proof.
  split.
  - cbv zeta. split; [reflexivity | intros H; now apply H].
  - split; [reflexivity|]. split; [reflexivity | discriminate].
Qed.

(** C6, amended.  For two different items [a] and [b], after
    [linkItems a b] and then [unlinkItems a b] the two are in different
    groups, and that [unlinkItems] leaves the score table as it was, so
    every score.  [unlinkItems] never changes a score: on any database
    every item reads the score it read before; the only rows it writes
    to the score table are rows with score 0 for those of [a] and [b]
    that had none, and it writes nothing when both exist. *)
Theorem link_then_unlink (d : DB) (a b : string) :
  reachable d -> a <> b ->
  let d1 := linkItems d a b in
  let d2 := unlinkItems d1 a b in
  getGroupID d2 a <> getGroupID d2 b /\
  tallies d2 = tallies d1 /\
  (forall x, getScore d2 x = getScore d1 x) /\
  (forall e x, getScore (unlinkItems e a b) x = getScore e x) /\
  (forall e, created e a -> created e b -> tallies (unlinkItems e a b) = tallies e) /\
  (forall e x v, reachable e -> In (x, v) (tallies (unlinkItems e a b)) ->
     In (x, v) (tallies e) \/ ((x = a \/ x = b) /\ v = 0 /\ ~ created e x)).
Proof.
  intros R Hab. pose proof (reachable_wf d R) as W. cbv zeta.
  set (d1 := linkItems d a b).
  pose proof (wf_link d a b W) as W1. fold d1 in W1.
  assert (Ca : created d1 a)
    by (apply created_link; apply (created_ensured_l d a b W)).
  assert (Cb : created d1 b)
    by (apply created_link; apply (created_ensured_r d a b W)).
  destruct (link_joins d a b W) as [Ja Jb]. fold d1 in Ja, Jb.
  assert (E : getGroupID d1 a = getGroupID d1 b) by congruence.
  assert (T : tallies (unlinkItems d1 a b) = tallies d1)
    by (rewrite tallies_unlink; now rewrite (ensured_created d1 a b Ca Cb)).
  repeat split.
  - rewrite !unlink_shared by assumption. rewrite String.eqb_refl.
    apply String.eqb_neq in Hab. rewrite Hab.
    pose proof (getGroupID_bound d1 a W1). lia.
  - exact T.
  - intros x. unfold getScore. now rewrite T.
  - intros e x. unfold getScore at 1. rewrite tallies_unlink.
    change (getScore (ensured e a b) x = getScore e x).
    unfold ensured. now rewrite !getScore_ensure.
  - intros e Ea Eb. rewrite tallies_unlink. now rewrite (ensured_created e a b Ea Eb).
  - intros e x v Re. pose proof (reachable_wf e Re) as We.
    rewrite tallies_unlink. unfold ensured.
    pose proof (wf_ensure e a We) as We1.
    destruct (ensure_cases _ b We1) as [[_ ->]|[Nb ->]];
      destruct (ensure_cases e a We) as [[_ Ea]|[Na Ea]]; rewrite Ea in *;
      cbn [tallies added]; rewrite ?in_app_iff; cbn [In].
    + tauto.
    + intros [H|[[= <- <-]|[]]]; tauto.
    + intros [H|[[= <- <-]|[]]]; tauto.
    + intros [[H|[[= <- <-]|[]]]|[[= <- <-]|[]]]; [tauto | tauto|].
      right. split; [tauto|]. split; [reflexivity|].
      intros C. apply Nb. unfold created. cbn [tallies added].
      rewrite items_app, in_app_iff. now left.
Qed.

Lemma link_then_unlink_witness :
  getGroupID (unlinkItems (linkItems one_vote "a" "b") "a" "b") "a" <>
  getGroupID (unlinkItems (linkItems one_vote "a" "b") "a" "b") "b".
Proof.
  assert (R : reachable one_vote) by (eexists; reflexivity).
  assert (Hab : "a"%string <> "b"%string) by discriminate.
  exact (proj1 (link_then_unlink one_vote "a" "b" R Hab)).
Defined.

End LinkTheorems.

(** ** [unlinkItems x x] *)

Section UnlinkSelf.

Lemma in_update_item (k y : string) (v g : Z) (t : Sql.table) :
  In (y, g) (Sql.update_item k v t) ->
  (y = k /\ g = v) \/ (y <> k /\ In (y, g) t).
Proof.
  induction t as [|[k0 v0] t IH]; simpl; [tauto|].
  destruct (String.eqb_spec k0 k) as [->|Hne]; simpl.
  - intros [E|H]; [injection E as <- <-; tauto|].
    destruct (IH H); tauto.
  - intros [E|H]; [injection E as <- <-; right; split; [assumption | now left]|].
    destruct (IH H); tauto.
Qed.

Lemma in_select_others (g : Z) (x z : string) (t : Sql.table) :
  In z (Sql.select_others g x t) -> In (z, g) t /\ z <> x.
Proof.
  unfold Sql.select_others, Sql.items. rewrite in_map_iff.
  intros ([k v] & E & H). simpl in E. subst k.
  apply filter_In in H. destruct H as [H F]. simpl in F.
  apply andb_prop in F. destruct F as [F1 F2].
  apply Z.eqb_eq in F1. subst v. split; [assumption|].
  apply negb_true_iff, String.eqb_neq in F2. exact F2.
Qed.

Lemma select_others_nil (g : Z) (x : string) (t : Sql.table) :
  (forall z, In (z, g) t -> z = x) -> Sql.select_others g x t = [].
Proof.
  intros H. destruct (Sql.select_others g x t) as [|z l] eqn:E; [reflexivity|].
  assert (I : In z (Sql.select_others g x t)) by (rewrite E; now left).
  apply in_select_others in I. destruct I as [I N]. now apply H in I.
Qed.

Lemma in_aliases_bound (d : DB) (y : string) (g : Z) :
  wf d -> In (y, g) (aliases d) -> 1 <= g <= groups_seq d.
Proof.
  intros W H. apply (wf_range d W). unfold referenced.
  change g with (snd (y, g)). now apply in_map.
Qed.

(** C9.  [unlinkItems x x] on a created item [x] gives [x] a group id
    that was never in use; every other item keeps its group id, so [x]
    is apart from every one of them, its former group-mates included:
    [x] has no linked items left and is listed among the linked items of
    no other item.  When [x] was alone the only change is its group
    id. *)
Theorem unlink_self (d : DB) (x : string) :
  reachable d -> created d x ->
  let d' := unlinkItems d x x in
  ~ referenced d (groups_seq d + 1) /\
  getGroupID d' x = groups_seq d + 1 /\
  (forall y, y <> x ->
     getGroupID d' y = getGroupID d y /\ getGroupID d' y <> getGroupID d' x) /\
  getLinkedItems d' x = [] /\
  (forall y, y <> x -> ~ In x (getLinkedItems d' y)) /\
  tallies d' = tallies d.
Proof.
  intros R C. pose proof (reachable_wf d R) as W. cbv zeta.
  assert (G : forall y, getGroupID (unlinkItems d x x) y =
                        if String.eqb y x then groups_seq d + 1 else getGroupID d y)
    by (intros y; now apply unlink_shared).
  assert (Gx : getGroupID (unlinkItems d x x) x = groups_seq d + 1)
    by (rewrite G; now rewrite String.eqb_refl).
  assert (Gy : forall y, y <> x -> getGroupID (unlinkItems d x x) y = getGroupID d y).
  { intros y Hy. rewrite G. apply String.eqb_neq in Hy. now rewrite Hy. }
  assert (A : aliases (unlinkItems d x x) =
              Sql.update_item x (groups_seq d + 1) (aliases d)).
  { rewrite unlinkItems_eq. cbv zeta.
    rewrite (ensured_created d x x C C), Z.eqb_refl. reflexivity. }
  split; [now apply fresh_not_referenced|].
  split; [exact Gx|].
  split.
  { intros y Hy. split; [now apply Gy|]. rewrite Gx, Gy by assumption.
    pose proof (getGroupID_bound d y W). lia. }
  split.
  { unfold getLinkedItems. rewrite Gx.
    destruct (groups_seq d + 1 =? 0); [reflexivity|].
    apply select_others_nil. intros z. rewrite A. intros H.
    apply in_update_item in H. destruct H as [[-> _]|[_ H]]; [reflexivity|].
    pose proof (in_aliases_bound d z _ W H). lia. }
  split.
  { intros y Hy. unfold getLinkedItems. rewrite (Gy y Hy).
    destruct (getGroupID d y =? 0); [intros []|].
    intros H. apply in_select_others in H. destruct H as [H _].
    rewrite A in H. apply in_update_item in H.
    pose proof (getGroupID_bound d y W).
    destruct H as [[_ H]|[H _]]; [lia | congruence]. }
  rewrite tallies_unlink. now rewrite (ensured_created d x x C C).
Qed.

Lemma unlink_self_witness :
  getGroupID (unlinkItems abc "a" "a") "a" = 5 /\
  getLinkedItems (unlinkItems abc "a" "a") "a" = [].
Proof.
  assert (R : reachable abc) by (eexists; reflexivity).
  assert (C : created abc "a") by (vm_compute; tauto).
  destruct (unlink_self abc "a" R C) as (_ & Hx & _ & Hl & _).
  split; [exact Hx | exact Hl].
Defined.

End UnlinkSelf.

(** ** The partition invariant, group ids and retirement *)

Section InvariantClaims.

(** C5.  After any sequence of operations from the empty database, every
    item of the score table has exactly one row, hence exactly one group
    id, in the membership table, and every row of the membership table is
    for an item of the score table. *)
Theorem membership_is_total_and_single_valued (ops : list op) :
  let d := run empty_db ops in
  (forall x, created d x ->
     exists g, In (x, g) (aliases d) /\ getGroupID d x = g /\
               forall g', In (x, g') (aliases d) -> g' = g) /\
  (forall x g, In (x, g) (aliases d) -> created d x) /\
  NoDup (Sql.items (aliases d)) /\
  NoDup (Sql.items (tallies d)).
Proof.
  cbv zeta. pose proof (wf_run ops empty_db wf_empty) as W.
  set (d := run empty_db ops) in *.
  split.
  { intros x C. apply (created_iff_aliased d x W), in_items_select in C.
    destruct C as [g Hg]. exists g. split; [now apply select_item_some_in|].
    split; [unfold getGroupID; now rewrite Hg|].
    intros g' H'. apply (nodup_select x g' _ (wf_nodup d W)) in H'. congruence. }
  split.
  { intros x g H. apply (created_iff_aliased d x W). unfold Sql.items.
    change x with (fst (x, g)). now apply in_map. }
  split; [apply (wf_nodup d W)|].
  rewrite (wf_items d W). apply (wf_nodup d W).
Qed.

(** C7.  A group id that was handed out and is referenced by no item is
    referenced by no item after any further operations; the ids that a
    step brings into the membership table are larger than every id
    handed out before it, and the counter never goes down. *)
Theorem retired_group_never_returns (ops more : list op) (g : Z) :
  let d := run empty_db ops in
  retired d g ->
  ~ referenced (run d more) g /\
  groups_seq d <= groups_seq (run d more) /\
  (forall o h, referenced (step d o) h -> referenced d h \/ groups_seq d < h).
Proof.
  cbv zeta. intros Hr. pose proof (wf_run ops empty_db wf_empty) as W.
  split; [apply (retired_run more _ g W Hr)|].
  split; [now apply groups_seq_run|].
  intros o h. now apply referenced_step.
Qed.

Lemma retired_group_never_returns_witness :
  ~ referenced (run (run empty_db [Link "a" "b"]) [Unlink "a" "b"; EnsureItem "c"]%string) 2.
Proof.
  apply (retired_group_never_returns [Link "a" "b"]%string
           [Unlink "a" "b"; EnsureItem "c"]%string 2).
  split; [vm_compute; split; discriminate|].
  vm_compute. intros [H|[H|[]]]; discriminate.
Defined.

(** C10.  In every reachable database each group id in the membership
    table is at least 1, so [getGroupID] is 0 exactly on the items that
    were never created, and the tests [groupID == 0] of [getTotalScore]
    and [getLinkedItems] take the "no such item" branch for those items
    only. *)
Theorem zero_means_never_created (ops : list op) (x : string) :
  let d := run empty_db ops in
  (forall y g, In (y, g) (aliases d) -> 1 <= g) /\
  (created d x -> 1 <= getGroupID d x) /\
  (getGroupID d x = 0 <-> ~ created d x) /\
  (created d x ->
     getLinkedItems d x = Sql.select_others (getGroupID d x) x (aliases d) /\
     getTotalScore d x =
     match Sql.sum_scan (Sql.join_scores (getGroupID d x) (tallies d) (aliases d)) with
     | Some total => total
     | None => 0
     end).
Proof.
  cbv zeta. pose proof (wf_run ops empty_db wf_empty) as W.
  set (d := run empty_db ops) in *.
  split; [intros y g H; pose proof (in_aliases_bound d y g W H); lia|].
  split; [intros C; pose proof (getGroupID_created d x W C); lia|].
  split.
  { split.
    - intros E C. pose proof (getGroupID_created d x W C). lia.
    - now apply getGroupID_not_created. }
  intros C. pose proof (getGroupID_created d x W C) as B.
  unfold getLinkedItems, getTotalScore.
  destruct (Z.eqb_spec (getGroupID d x) 0); [lia|]. split; reflexivity.
Qed.

End InvariantClaims.

(** ** The total of a group *)

Section TotalFacts.

Import Sql.

Lemma filter_absent (k : string) (g : Z) (t : table) :
  ~ In k (items t) ->
  filter (fun r => String.eqb (fst r) k && (snd r =? g)) t = [].
Proof.
  induction t as [|[k0 v0] t IH]; simpl; [reflexivity|].
  intros H. destruct (String.eqb_spec k0 k) as [->|Hne]; [tauto|].
  simpl. apply IH. tauto.
Qed.

(** The rows of the right table a left row joins with: at most one. *)
Lemma join_rows (k : string) (g : Z) (t : table) :
  NoDup (items t) ->
  filter (fun r => String.eqb (fst r) k && (snd r =? g)) t =
  match select_item k t with
  | Some g' => if g' =? g then [(k, g')] else []
  | None => []
  end.
Proof.
  induction t as [|[k0 v0] t IH]; simpl; [reflexivity|].
  intros Hnd. inversion Hnd as [|? ? Hnotin Hnd']; subst.
  destruct (String.eqb_spec k0 k) as [->|Hne]; simpl.
  - rewrite (filter_absent k g t Hnotin). now destruct (v0 =? g).
  - now apply IH.
Qed.

Lemma join_scores_filter (g : Z) (t a : table) :
  NoDup (items a) ->
  join_scores g t a = map snd (filter (in_group g a) t).
Proof.
  intros Hnd. unfold join_scores.
  induction t as [|[k v] t IH]; simpl; [reflexivity|].
  rewrite IH, (join_rows k g a Hnd). unfold in_group at 2. simpl.
  destruct (select_item k a) as [g'|]; [|reflexivity].
  now destruct (g' =? g).
Qed.

Lemma join_scores_members (d : DB) (g : Z) :
  wf d ->
  join_scores g (tallies d) (aliases d) = map (getScore d) (members d g).
Proof.
  intros W. rewrite join_scores_filter by apply (wf_nodup d W).
  unfold members, getScore.
  pose proof (wf_nodup d W) as Na.
  assert (Nt : NoDup (items (tallies d))) by (rewrite (wf_items d W); exact Na).
  assert (G : forall t a,
             items t = items a ->
             (forall k v, In (k, v) t -> select_item k (tallies d) = Some v) ->
             (forall k g', In (k, g') a -> select_item k (aliases d) = Some g') ->
             map snd (filter (in_group g (aliases d)) t) =
             map (fun item => match select_item item (tallies d) with
                              | Some score => score
                              | None => 0
                              end)
                 (items (filter (fun r => snd r =? g) a))).
  { induction t as [|[k v] t IH]; intros [|[k' g'] a] E Ht Ha;
      try discriminate; [reflexivity|].
    simpl in E. injection E as <- E.
    assert (IH' := IH a E (fun k0 v0 H => Ht k0 v0 (or_intror H))
                          (fun k0 g0 H => Ha k0 g0 (or_intror H))).
    simpl. unfold in_group at 1. simpl.
    rewrite (Ha k g' (or_introl eq_refl)).
    destruct (g' =? g); simpl; [|exact IH'].
    rewrite (Ht k v (or_introl eq_refl)). now f_equal. }
  apply G.
  - apply (wf_items d W).
  - intros k v. now apply nodup_select.
  - intros k g'. now apply nodup_select.
Qed.

Lemma sum_abs_nonneg (vs : list Z) : 0 <= sum_abs vs.
Proof. induction vs as [|v vs IH]; unfold sum_abs in *; simpl; lia. Qed.

Lemma sum_from_in_range (vs : list Z) (acc : Z) :
  Z.abs acc + sum_abs vs <= max_int64 ->
  sum_from acc vs = Some (acc + sumZ vs).
Proof.
  revert acc. induction vs as [|v vs IH]; intros acc H; simpl.
  - f_equal. lia.
  - unfold sum_abs in H. simpl in H. fold (sum_abs vs) in H.
    pose proof (sum_abs_nonneg vs) as P.
    assert (R : in_int64 (acc + v) = true).
    { unfold in_int64, min_int64, max_int64 in *.
      apply andb_true_intro. split; apply Z.leb_le; lia. }
    rewrite R, IH by lia. f_equal. lia.
Qed.

Lemma sum_abs_filter (p : string * Z -> bool) (t : table) :
  sum_abs (map snd (filter p t)) <= sum_abs (map snd t).
Proof.
  induction t as [|r t IH]; simpl; [lia|].
  unfold sum_abs in *. destruct (p r); simpl; lia.
Qed.

Lemma mass_sum_abs (d : DB) : mass d = sum_abs (map snd (tallies d)).
Proof. unfold mass, sum_abs. now rewrite map_map. Qed.

Lemma member_self (d : DB) (x : string) :
  wf d -> created d x -> In x (members d (getGroupID d x)).
Proof.
  intros W C. apply (created_iff_aliased d x W), in_items_select in C.
  destruct C as [g Hg]. unfold getGroupID. rewrite Hg. unfold members, items.
  change x with (fst (x, g)). apply in_map, filter_In.
  split; [now apply select_item_some_in | apply Z.eqb_refl].
Qed.

Lemma getTotalScore_created (d : DB) (x : string) :
  wf d -> mass d <= max_int64 -> created d x ->
  getTotalScore d x = sumZ (map (getScore d) (members d (getGroupID d x))).
Proof.
  intros W M C. unfold getTotalScore.
  pose proof (getGroupID_created d x W C) as B.
  destruct (Z.eqb_spec (getGroupID d x) 0); [lia|].
  pose proof (member_self d x W C) as I.
  rewrite <- (join_scores_members d _ W).
  assert (S : sum_abs (join_scores (getGroupID d x) (tallies d) (aliases d))
              <= max_int64).
  { rewrite join_scores_filter by apply (wf_nodup d W).
    pose proof (sum_abs_filter (in_group (getGroupID d x) (aliases d)) (tallies d)).
    rewrite mass_sum_abs in M. lia. }
  unfold sum_scan.
  destruct (join_scores (getGroupID d x) (tallies d) (aliases d)) as [|v vs] eqn:E.
  - rewrite (join_scores_members d _ W) in E.
    destruct (members d (getGroupID d x)); [destruct I | discriminate].
  - rewrite sum_from_in_range by (simpl; lia). reflexivity.
Qed.

Lemma select_others_members (d : DB) (g : Z) (x : string) :
  select_others g x (aliases d) =
  filter (fun y => negb (String.eqb y x)) (members d g).
Proof.
  unfold select_others, members, items.
  induction (aliases d) as [|[k v] t IH]; simpl; [reflexivity|].
  destruct (v =? g); simpl; [|exact IH].
  destruct (negb (String.eqb k x)); simpl; now rewrite IH.
Qed.

Lemma nodup_members (d : DB) (g : Z) : wf d -> NoDup (members d g).
Proof.
  intros W. pose proof (wf_nodup d W) as N. unfold members, items in *.
  induction (aliases d) as [|[k v] t IH]; simpl; [constructor|].
  inversion N as [|? ? Hnotin N']; subst.
  destruct (v =? g); simpl; [|now apply IH].
  constructor; [|now apply IH].
  intros H. apply Hnotin. rewrite in_map_iff in *.
  destruct H as (r & E & I). exists r. split; [assumption|].
  now apply filter_In in I.
Qed.

Lemma alone_members (d : DB) (x : string) :
  wf d -> created d x -> getLinkedItems d x = [] ->
  members d (getGroupID d x) = [x].
Proof.
  intros W C L. unfold getLinkedItems in L.
  pose proof (getGroupID_created d x W C) as B.
  destruct (Z.eqb_spec (getGroupID d x) 0); [lia|].
  rewrite select_others_members in L.
  pose proof (member_self d x W C) as I.
  pose proof (nodup_members d (getGroupID d x) W) as N.
  assert (A : forall y, In y (members d (getGroupID d x)) -> y = x).
  { intros y Hy. destruct (String.eqb_spec y x) as [E|E]; [assumption|].
    assert (F : In y (filter (fun y => negb (String.eqb y x))
                             (members d (getGroupID d x)))).
    { apply filter_In. split; [assumption|].
      apply String.eqb_neq in E. now rewrite E. }
    rewrite L in F. destruct F. }
  destruct (members d (getGroupID d x)) as [|y [|z l]]; [destruct I | |].
  - f_equal. apply A. now left.
  - exfalso. inversion N as [|? ? Hnotin _]; subst. apply Hnotin.
    rewrite (A y) by (now left). rewrite (A z) by (right; now left). now left.
Qed.

End TotalFacts.

(** ** Scores stay within 64 bits for 2^63 - 1 operations *)

Section MassFacts.

Import Sql.

Lemma wrap64_in_range (z : Z) :
  min_int64 <= z <= max_int64 -> wrap64 z = z.
Proof.
  unfold wrap64, min_int64, max_int64. intros H.
  rewrite Z.mod_small by lia. lia.
Qed.

Lemma update_item_absent (k : string) (v : Z) (t : table) :
  ~ In k (items t) -> update_item k v t = t.
Proof.
  induction t as [|[k0 v0] t IH]; simpl; [reflexivity|].
  intros H. destruct (String.eqb_spec k0 k) as [->|Hne]; [tauto|].
  f_equal. apply IH. tauto.
Qed.

Lemma sum_abs_update (k : string) (cur v : Z) (t : table) :
  NoDup (items t) -> select_item k t = Some cur ->
  sum_abs (map snd (update_item k v t)) =
  sum_abs (map snd t) - Z.abs cur + Z.abs v.
Proof.
  induction t as [|[k0 v0] t IH]; simpl; [discriminate|].
  intros Hnd. inversion Hnd as [|? ? Hnotin Hnd']; subst.
  destruct (String.eqb_spec k0 k) as [->|Hne]; simpl.
  - intros [= ->]. rewrite (update_item_absent k v t Hnotin).
    unfold sum_abs. simpl. lia.
  - intros H. specialize (IH Hnd' H). unfold sum_abs in *. simpl. lia.
Qed.

Lemma select_abs_le (k : string) (v : Z) (t : table) :
  select_item k t = Some v -> Z.abs v <= sum_abs (map snd t).
Proof.
  induction t as [|[k0 v0] t IH]; simpl; [discriminate|].
  pose proof (sum_abs_nonneg (map snd t)) as P.
  destruct (String.eqb k0 k).
  - intros [= ->]. unfold sum_abs in *. simpl. lia.
  - intros H. specialize (IH H). unfold sum_abs in *. simpl. lia.
Qed.

Lemma mass_ensure (d : DB) (x : string) :
  wf d -> mass (ensureItemExists d x) = mass d.
Proof.
  intros W. destruct (ensure_cases d x W) as [[_ ->]|[_ ->]]; [reflexivity|].
  unfold mass. simpl. rewrite map_app. unfold sumZ. rewrite fold_right_app.
  simpl. reflexivity.
Qed.

Lemma mass_ensured (d : DB) (a b : string) :
  wf d -> mass (ensured d a b) = mass d.
Proof.
  intros W. unfold ensured. rewrite mass_ensure by now apply wf_ensure.
  now apply mass_ensure.
Qed.

Lemma mass_applyVote (d : DB) (m : string * string) :
  wf d -> mass d < max_int64 -> mass (fst (applyVote d m)) <= mass d + 1.
Proof.
  intros W M. unfold applyVote. cbn [fst].
  set (x := Text.ToLower (fst m)). set (d1 := ensureItemExists d x).
  pose proof (wf_ensure d x W) as W1. fold d1 in W1.
  pose proof (mass_ensure d x W) as M1. fold d1 in M1.
  pose proof (created_ensure_self d x W) as C. fold d1 in C.
  apply in_items_select in C. destruct C as [cur Hcur].
  assert (G : getScore d1 x = cur) by (unfold getScore; now rewrite Hcur).
  rewrite G.
  assert (N : NoDup (items (tallies d1)))
    by (rewrite (wf_items d1 W1); apply (wf_nodup d1 W1)).
  pose proof (select_abs_le x cur _ Hcur) as B.
  rewrite <- mass_sum_abs in B.
  assert (U : forall v, mass (updateScore d1 x v) = mass d1 - Z.abs cur + Z.abs v).
  { intros v. rewrite !mass_sum_abs. unfold updateScore. simpl.
    now apply sum_abs_update. }
  rewrite U. unfold min_int64, max_int64 in *.
  destruct (String.eqb (snd m) "++");
    rewrite wrap64_in_range by (unfold min_int64, max_int64; lia); lia.
Qed.

Lemma mass_step (d : DB) (o : op) :
  wf d -> mass d < max_int64 -> mass (step d o) <= mass d + 1.
Proof.
  intros W M. destruct o as [x|x o|a b|a b|x|x]; cbn [step]; try lia.
  - rewrite mass_ensure by assumption. lia.
  - now apply mass_applyVote.
  - assert (E : mass (linkItems d a b) = mass (ensured d a b))
      by (unfold mass; now rewrite tallies_link).
    rewrite E, mass_ensured by assumption. lia.
  - assert (E : mass (unlinkItems d a b) = mass (ensured d a b))
      by (unfold mass; now rewrite tallies_unlink).
    rewrite E, mass_ensured by assumption. lia.
Qed.

Lemma mass_run (ops : list op) (d : DB) :
  wf d -> mass d + Z.of_nat (List.length ops) <= max_int64 ->
  mass (run d ops) <= mass d + Z.of_nat (List.length ops).
Proof.
  revert d. induction ops as [|o ops IH]; intros d W M.
  - simpl. lia.
  - change (run d (o :: ops)) with (run (step d o) ops).
    change (List.length (o :: ops)) with (S (List.length ops)) in *.
    rewrite Nat2Z.inj_succ in *.
    pose proof (mass_step d o W ltac:(lia)) as S1.
    pose proof (IH (step d o) (wf_step d o W) ltac:(lia)). lia.
Qed.

End MassFacts.

(** ** [getTotalScore] and [getLinkedItems] *)

Section TotalTheorems.

(** C3.  After a run of at most 2^63 - 1 operations from the empty
    database (so that no total leaves the 64-bit range): for an item
    that was never created the score, the total and the list of linked
    items are 0, 0 and empty; for a created item the total is the sum of
    the scores of the items whose membership row carries its group id,
    the item itself among them, and its linked items are those items but
    itself; and whenever an item has no linked items, created or not, its
    total is its own score. *)
Theorem total_score_of_group (ops : list op) (x : string) :
  Z.of_nat (List.length ops) <= max_int64 ->
  let d := run empty_db ops in
  (~ created d x ->
     getScore d x = 0 /\ getTotalScore d x = 0 /\ getLinkedItems d x = []) /\
  (created d x ->
     In x (members d (getGroupID d x)) /\
     getTotalScore d x = sumZ (map (getScore d) (members d (getGroupID d x))) /\
     getLinkedItems d x =
       filter (fun y => negb (String.eqb y x)) (members d (getGroupID d x))) /\
  (getLinkedItems d x = [] -> getTotalScore d x = getScore d x).
Proof.
  intros L. cbv zeta. pose proof (wf_run ops empty_db wf_empty) as W.
  pose proof (mass_run ops empty_db wf_empty) as M.
  change (mass empty_db) with 0 in M. specialize (M ltac:(lia)).
  set (d := run empty_db ops) in *.
  assert (M' : mass d <= max_int64) by lia.
  assert (N : ~ created d x ->
              getScore d x = 0 /\ getTotalScore d x = 0 /\ getLinkedItems d x = []).
  { intros C. pose proof (getGroupID_not_created d x W C) as G.
    assert (S : getScore d x = 0).
    { unfold getScore. apply select_item_none in C. now rewrite C. }
    unfold getTotalScore, getLinkedItems. rewrite G. simpl. auto. }
  split; [exact N|]. split.
  - intros C. split; [now apply member_self|].
    split; [now apply getTotalScore_created|].
    unfold getLinkedItems. pose proof (getGroupID_created d x W C).
    destruct (Z.eqb_spec (getGroupID d x) 0); [lia|].
    apply select_others_members.
  - intros E. destruct (created_dec d x) as [C|C].
    + rewrite getTotalScore_created by assumption.
      rewrite (alone_members d x W C E). simpl. lia.
    + destruct (N C) as (S & T & _). congruence.
Qed.

Lemma total_score_of_group_witness :
  getTotalScore
    (run empty_db [ApplyDelta "a" "++"; Link "a" "b"; ApplyDelta "b" "++"]%string)
    "a" = 2.
Proof.
  assert (L : Z.of_nat (List.length
                 [ApplyDelta "a" "++"; Link "a" "b"; ApplyDelta "b" "++"]%string)
              <= max_int64) by (vm_compute; discriminate).
  destruct (total_score_of_group _ "a"%string L) as (_ & H & _).
  destruct H as (_ & T & _); [vm_compute; tauto|].
  rewrite T. reflexivity.
Defined.

End TotalTheorems.


(** ** Messages *)

Section MessageTheorems.

Lemma handleMessage_accepted (active : string -> bool) (d : DB)
    (channel nick message : string) :
  accepted active channel ->
  handleMessage active d channel nick message =
  if Text.helpRegex (Text.ToLower (Text.TrimSpace message))
  then (d, [(channel, help)])
  else handleCommand channel d (Text.TrimSpace message).
Proof.
  intros A. unfold handleMessage.
  assert (E : negb (negb (Text.HasPrefix channel "#")) && negb (active channel) = false).
  { destruct A as [-> | ->]; [reflexivity|]. apply andb_false_r. }
  now rewrite E.
Qed.

Lemma handleAll_ext (f g : DB -> string -> DB * list privmsg) :
  (forall d m, f d m = g d m) ->
  forall lines d, handleAll f d lines = handleAll g d lines.
Proof.
  intros E lines. induction lines as [|l lines IH]; intros d; simpl; [reflexivity|].
  rewrite E. destruct (g d l) as [d1 out1]. now rewrite IH.
Qed.

(** C4.  From the empty database the five lines of the scenario, in
    order, are answered by the five responses of the specification, in
    order and with nothing else: in [tallybot.go] for a private message or
    an active channel, and in the single-channel variant. *)
Theorem scenario_transcript (active : string -> bool)
    (channel nick bot_channel : string) :
  accepted active channel ->
  snd (handleAll (fun d m => handleMessage active d channel nick m)
                 empty_db scenario)
  = map (pair channel) scenario_responses /\
  snd (handleAll (fun d m => SingleChannel.handleMessage bot_channel d nick m)
                 empty_db scenario)
  = map (pair bot_channel) scenario_responses.
Proof.
  intros A. split.
  - rewrite (handleAll_ext _ _
               (fun d m => handleMessage_accepted active d channel nick m A)).
    vm_compute. reflexivity.
  - vm_compute. reflexivity.
Qed.

Lemma scenario_transcript_witness :
  snd (handleAll (fun d m => handleMessage (fun _ => false) d "nick" "nick" m)
                 empty_db scenario)
  = map (pair "nick"%string) scenario_responses.
Proof.
  apply (scenario_transcript (fun _ => false) "nick" "nick" "#tallybot").
  left. reflexivity.
Defined.

(** Whether a line holds a vote does not depend on the case of its
    letters. *)
Lemma isItemChar_lower (c : ascii) :
  Text.isItemChar (Text.lowerChar c) = Text.isItemChar c.
Proof. destruct c as [[] [] [] [] [] [] [] []]; reflexivity. Qed.

Lemma eqb_plus_lower (c : ascii) :
  Ascii.eqb (Text.lowerChar c) "+" = Ascii.eqb c "+".
Proof. destruct c as [[] [] [] [] [] [] [] []]; reflexivity. Qed.

Lemma eqb_minus_lower (c : ascii) :
  Ascii.eqb (Text.lowerChar c) "-" = Ascii.eqb c "-".
Proof. destruct c as [[] [] [] [] [] [] [] []]; reflexivity. Qed.

Lemma is_empty_lower (s : string) :
  Text.is_empty (Text.ToLower s) = Text.is_empty s.
Proof. now destruct s. Qed.

Lemma ToLower_app (s t : string) :
  Text.ToLower (s ++ t) = (Text.ToLower s ++ Text.ToLower t)%string.
Proof. induction s as [|c s IH]; simpl; [reflexivity | now rewrite IH]. Qed.

Lemma upvote_scan_two (run : string) (c c' : ascii) (rest : string) :
  Text.upvote_scan run (String c (String c' rest)) =
  if Text.isItemChar c
  then Text.upvote_scan (run ++ String c EmptyString) (String c' rest)
  else if Text.is_empty run then Text.upvote_scan EmptyString (String c' rest)
  else if Ascii.eqb c "+" && Ascii.eqb c' "+"
       then (run, "++"%string) :: Text.upvote_scan EmptyString rest
  else if Ascii.eqb c "-" && Ascii.eqb c' "-"
       then (run, "--"%string) :: Text.upvote_scan EmptyString rest
  else Text.upvote_scan EmptyString (String c' rest).
Proof. reflexivity. Qed.

Lemma upvote_scan_lower_two (s : string) :
  (forall run,
     List.length (Text.upvote_scan (Text.ToLower run) (Text.ToLower s)) =
     List.length (Text.upvote_scan run s)) /\
  (forall c run,
     List.length (Text.upvote_scan (Text.ToLower run) (Text.ToLower (String c s))) =
     List.length (Text.upvote_scan run (String c s))).
Proof.
  induction s as [|c0 s [IH1 IH2]].
  - split; [reflexivity|]. intros c run.
    cbn [Text.ToLower Text.upvote_scan].
    rewrite isItemChar_lower, is_empty_lower.
    destruct (Text.isItemChar c); [reflexivity|].
    now destruct (Text.is_empty run).
  - split; [intros run; apply IH2|]. intros c run.
    change (Text.ToLower (String c (String c0 s)))
      with (String (Text.lowerChar c) (String (Text.lowerChar c0) (Text.ToLower s))).
    rewrite !upvote_scan_two.
    rewrite isItemChar_lower, is_empty_lower, !eqb_plus_lower, !eqb_minus_lower.
    change (String (Text.lowerChar c0) (Text.ToLower s))
      with (Text.ToLower (String c0 s)).
    destruct (Text.isItemChar c).
    + change (Text.ToLower run ++ String (Text.lowerChar c) EmptyString)%string
        with (Text.ToLower run ++ Text.ToLower (String c EmptyString))%string.
      rewrite <- ToLower_app. apply IH2.
    + destruct (Text.is_empty run); [apply (IH2 c0 EmptyString)|].
      destruct (Ascii.eqb c "+" && Ascii.eqb c0 "+");
        [cbn [List.length]; f_equal; apply (IH1 EmptyString)|].
      destruct (Ascii.eqb c "-" && Ascii.eqb c0 "-");
        [cbn [List.length]; f_equal; apply (IH1 EmptyString)|].
      apply (IH2 c0 EmptyString).
Qed.

Lemma upvoteRegex_lower_none (s : string) :
  Text.upvoteRegex (Text.ToLower s) = [] -> Text.upvoteRegex s = [].
Proof.
  unfold Text.upvoteRegex. intros E.
  pose proof (proj1 (upvote_scan_lower_two s) EmptyString) as L.
  change (Text.ToLower EmptyString) with EmptyString in L.
  rewrite E in L. destruct (Text.upvote_scan EmptyString s); [reflexivity | discriminate].
Qed.

(** C8 on the single-channel variant of the program: [!help] gets no
    response there. *)
Lemma help_unanswered_in_single_channel_variant :
  SingleChannel.handleMessage "#tallybot" empty_db "nick" "!help" = (empty_db, []) /\
  snd (SingleChannel.handleMessage "#tallybot" empty_db "nick" "!help")
    <> [("#tallybot"%string, help)].
Proof. split; [reflexivity | discriminate]. Qed.

(** C8, amended.  In [tallybot.go] a message that is [!help] once trimmed
    and lowercased, in a private message or an active channel, changes
    nothing in the database and is answered by the one fixed text, which
    names [item++ or item--], [!link], [!unlink] and [!total]; in the
    single-channel variant the same message changes nothing and gets no
    response. *)
Theorem help_is_static (active : string -> bool) (d : DB)
    (channel nick message bot_channel : string) :
  accepted active channel ->
  Text.ToLower (Text.TrimSpace message) = "!help"%string ->
  handleMessage active d channel nick message = (d, [(channel, help)]) /\
  (occurs "item++ or item--" help = true /\ occurs "!link item1 item2" help = true /\
   occurs "!unlink item1 item2" help = true /\ occurs "!total item" help = true) /\
  SingleChannel.handleMessage bot_channel d nick message = (d, []).
Proof.
  intros A E. split.
  - rewrite handleMessage_accepted by assumption. now rewrite E.
  - split; [repeat split; reflexivity|].
    unfold SingleChannel.handleMessage, handleCommand. cbv zeta. rewrite E.
    change (Text.unlinkRegex "!help") with (@None (string * string)).
    change (Text.linkRegex "!help") with (@None (string * string)).
    change (Text.totalRegex "!help") with (@None string).
    cbv iota. rewrite upvoteRegex_lower_none; [reflexivity|].
    rewrite E. reflexivity.
Qed.

Lemma help_is_static_witness :
  handleMessage (fun _ => false) one_vote "nick" "nick" "  !HeLp " =
  (one_vote, [("nick"%string, help)]).
Proof.
  apply (help_is_static (fun _ => false) one_vote "nick" "nick" "  !HeLp " "#tallybot").
  - left. reflexivity.
  - reflexivity.
Defined.

End MessageTheorems.

(** ** The score store: creation, reads and writes *)

Section StoreExtras.

Lemma getLinkedItems_added (d : DB) (x : string) :
  wf d -> ~ created d x -> getLinkedItems (added d x) x = [].
Proof.
  intros W C. pose proof (wf_added d x W C) as W'.
  destruct (added_alone d x W C) as [E A].
  unfold getLinkedItems. destruct (_ =? 0); [reflexivity|].
  apply select_others_nil. intros z H.
  apply A. pose proof (nodup_select z _ _ (wf_nodup _ W') H) as S.
  unfold getGroupID at 1. now rewrite S.
Qed.

(** X1.  [ensureItemExists] on any reachable database: a second call
    changes nothing; no score changes and no created item changes group;
    an item made by the call has a row in both tables, score 0, the next
    group id of the counter and no linked items, and no other item is
    created. *)
Theorem ensureItemExists_once (ops : list op) (x : string) :
  let d := run empty_db ops in
  let d' := ensureItemExists d x in
  ensureItemExists d' x = d' /\
  created d' x /\
  (created d x -> d' = d) /\
  (forall y, getScore d' y = getScore d y) /\
  (forall y, created d y -> getGroupID d' y = getGroupID d y) /\
  (forall y, created d' y -> created d y \/ y = x) /\
  (~ created d x ->
     getScore d' x = 0 /\ getGroupID d' x = groups_seq d + 1 /\
     ~ referenced d (groups_seq d + 1) /\ getLinkedItems d' x = []).
Proof.
  cbv zeta. pose proof (wf_run ops empty_db wf_empty) as W.
  set (d := run empty_db ops) in *.
  pose proof (created_ensure_self d x W) as C'.
  split; [now apply ensure_created|].
  split; [exact C'|].
  split; [apply ensure_created|].
  split; [intros y; apply getScore_ensure|].
  split; [intros y Cy; now apply getGroupID_ensure_old|].
  split; [intros y; now apply created_ensure_inv|].
  intros C. rewrite (ensure_new d x W C).
  split.
  { rewrite <- (ensure_new d x W C), getScore_ensure.
    unfold getScore. apply select_item_none in C. now rewrite C. }
  split; [apply (added_alone d x W C)|].
  split; [now apply fresh_not_referenced|].
  now apply getLinkedItems_added.
Qed.

(** X2.  [updateScore] then [getScore], on any database: the item reads
    back the score written when it has a row; without a row the UPDATE
    matches nothing, the database is unchanged and the item still reads 0;
    every other item reads what it read before, and the membership and
    group tables are untouched. *)
Theorem updateScore_then_getScore (d : DB) (x y : string) (v : Z) :
  let d' := updateScore d x v in
  (created d x -> getScore d' x = v) /\
  (~ created d x -> d' = d /\ getScore d' x = 0) /\
  (y <> x -> getScore d' y = getScore d y) /\
  aliases d' = aliases d /\ groups d' = groups d /\ groups_seq d' = groups_seq d /\
  Sql.items (tallies d') = Sql.items (tallies d).
Proof.
  cbv zeta. unfold getScore, updateScore. simpl.
  split.
  { intros C. rewrite select_update_item, String.eqb_refl.
    apply in_items_select in C. destruct C as [v0 ->]. reflexivity. }
  split.
  { intros C. rewrite (update_item_absent x v _ C).
    split; [now destruct d|]. apply select_item_none in C. now rewrite C. }
  split.
  { intros Hy. rewrite select_update_item.
    apply String.eqb_neq in Hy. now rewrite Hy. }
  repeat split. apply items_update_item.
Qed.

End StoreExtras.

(** ** Votes *)

Section VoteExtras.

Lemma wrap64_bounds (z : Z) : in_int64 (wrap64 z) = true.
Proof.
  unfold in_int64, wrap64, min_int64, max_int64.
  pose proof (Z.mod_pos_bound (z + 2 ^ 63) (2 ^ 64) ltac:(lia)).
  apply andb_true_intro. split; apply Z.leb_le; lia.
Qed.

Lemma in_int64_iff (z : Z) : in_int64 z = true <-> min_int64 <= z <= max_int64.
Proof.
  unfold in_int64. rewrite andb_true_iff, !Z.leb_le. tauto.
Qed.

Lemma wrap64_up_down (s : Z) :
  in_int64 s = true -> wrap64 (wrap64 (s + 1) - 1) = s.
Proof.
  intros H. apply in_int64_iff in H. unfold wrap64, min_int64, max_int64 in *.
  replace ((s + 1 + 2 ^ 63) mod 2 ^ 64 - 2 ^ 63 - 1 + 2 ^ 63)
    with ((s + 1 + 2 ^ 63) mod 2 ^ 64 - 1) by lia.
  rewrite Zminus_mod_idemp_l.
  replace (s + 1 + 2 ^ 63 - 1) with (s + 2 ^ 63) by lia.
  rewrite Z.mod_small by lia. lia.
Qed.

Lemma wrap64_down_up (s : Z) :
  in_int64 s = true -> wrap64 (wrap64 (s - 1) + 1) = s.
Proof.
  intros H. apply in_int64_iff in H. unfold wrap64, min_int64, max_int64 in *.
  replace ((s - 1 + 2 ^ 63) mod 2 ^ 64 - 2 ^ 63 + 1 + 2 ^ 63)
    with ((s - 1 + 2 ^ 63) mod 2 ^ 64 + 1) by lia.
  rewrite Zplus_mod_idemp_l.
  replace (s - 1 + 2 ^ 63 + 1) with (s + 2 ^ 63) by lia.
  rewrite Z.mod_small by lia. lia.
Qed.

Lemma values_update_item_in (k y : string) (v w : Z) (t : Sql.table) :
  In (y, w) (Sql.update_item k v t) -> w = v \/ In (y, w) t.
Proof.
  intros H. apply in_update_item in H. destruct H as [[_ H]|[_ H]]; auto.
Qed.

Lemma scores_in_range_ensure (d : DB) (x : string) :
  wf d -> scores_in_range d -> scores_in_range (ensureItemExists d x).
Proof.
  intros W S. destruct (ensure_cases d x W) as [[_ ->]|[_ ->]]; [assumption|].
  intros y v. simpl. rewrite in_app_iff. simpl.
  intros [H|[[= <- <-]|[]]]; [now apply (S y) | reflexivity].
Qed.

Lemma scores_in_range_step (d : DB) (o : op) :
  wf d -> scores_in_range d -> scores_in_range (step d o).
Proof.
  intros W S. destruct o as [x|x o|a b|a b|x|x]; cbn [step]; try assumption.
  - now apply scores_in_range_ensure.
  - unfold applyVote. cbn [fst]. intros y v. unfold updateScore. simpl.
    intros H. apply values_update_item_in in H. destruct H as [->|H].
    + destruct (String.eqb o "++"); apply wrap64_bounds.
    + now apply (scores_in_range_ensure d (Text.ToLower x) W S y).
  - intros y v. rewrite tallies_link. unfold ensured.
    apply scores_in_range_ensure; [now apply wf_ensure|].
    now apply scores_in_range_ensure.
  - intros y v. rewrite tallies_unlink. unfold ensured.
    apply scores_in_range_ensure; [now apply wf_ensure|].
    now apply scores_in_range_ensure.
Qed.

Lemma scores_in_range_run (ops : list op) (d : DB) :
  wf d -> scores_in_range d -> scores_in_range (run d ops).
Proof.
  revert d. induction ops as [|o ops IH]; intros d W S; [assumption|].
  apply (IH (step d o)); [now apply wf_step | now apply scores_in_range_step].
Qed.

Lemma scores_in_range_empty : scores_in_range empty_db.
Proof. intros x v []. Qed.

Lemma getScore_in_range (d : DB) (x : string) :
  scores_in_range d -> in_int64 (getScore d x) = true.
Proof.
  intros S. unfold getScore.
  destruct (Sql.select_item x (tallies d)) as [v|] eqn:E; [|reflexivity].
  apply select_item_some_in in E. now apply (S x).
Qed.

Lemma update_item_twice (k : string) (v w : Z) (t : Sql.table) :
  Sql.update_item k w (Sql.update_item k v t) = Sql.update_item k w t.
Proof.
  unfold Sql.update_item. rewrite map_map. apply map_ext.
  intros [k0 v0]. simpl. destruct (String.eqb k0 k) eqn:E; simpl; now rewrite E.
Qed.

Lemma update_item_same (k : string) (v : Z) (t : Sql.table) :
  NoDup (Sql.items t) -> Sql.select_item k t = Some v -> Sql.update_item k v t = t.
Proof.
  induction t as [|[k0 v0] t IH]; simpl; [reflexivity|].
  intros N. inversion N as [|? ? Hnotin N']; subst.
  destruct (String.eqb_spec k0 k) as [->|Hne].
  - intros [= ->]. now rewrite (update_item_absent k v t Hnotin).
  - intros H. now rewrite IH.
Qed.

Lemma nodup_tallies (d : DB) : wf d -> NoDup (Sql.items (tallies d)).
Proof. intros W. rewrite (wf_items d W). apply (wf_nodup d W). Qed.

Lemma getScore_updateScore_self (d : DB) (x : string) (v : Z) :
  created d x -> getScore (updateScore d x v) x = v.
Proof.
  intros C. unfold getScore, updateScore. simpl.
  rewrite select_update_item, String.eqb_refl.
  apply in_items_select in C. destruct C as [v0 ->]. reflexivity.
Qed.

Lemma votes_cancel (d : DB) (x : string) (v1 v2 : Z) :
  wf d -> created d x -> v2 = getScore d x ->
  updateScore (ensureItemExists (updateScore d x v1) x) x v2 = d.
Proof.
  intros W C ->. rewrite (ensure_created (updateScore d x v1) x)
    by (unfold created, updateScore; simpl; now rewrite items_update_item).
  unfold updateScore. simpl. rewrite update_item_twice.
  apply in_items_select in C. destruct C as [v0 E].
  unfold getScore. rewrite E.
  rewrite (update_item_same x v0 _ (nodup_tallies d W) E). now destruct d.
Qed.

(** X3.  A vote up followed by a vote down on the same item, or a vote
    down followed by a vote up, from any reachable database: the database
    is the one that creating the item alone would leave, so the score is
    what it was (0 for a new item), also when the first vote wrapped
    around the 64-bit range. *)
Theorem opposite_votes_cancel (ops : list op) (x : string) :
  let d := run empty_db ops in
  fst (applyVote (fst (applyVote d (x, "++"%string))) (x, "--"%string))
    = ensureItemExists d (Text.ToLower x) /\
  fst (applyVote (fst (applyVote d (x, "--"%string))) (x, "++"%string))
    = ensureItemExists d (Text.ToLower x) /\
  getScore (ensureItemExists d (Text.ToLower x)) (Text.ToLower x)
    = getScore d (Text.ToLower x).
Proof.
  cbv zeta. pose proof (wf_run ops empty_db wf_empty) as W.
  pose proof (scores_in_range_run ops empty_db wf_empty scores_in_range_empty) as S.
  set (d := run empty_db ops) in *. set (x' := Text.ToLower x).
  pose proof (wf_ensure d x' W) as W1.
  pose proof (created_ensure_self d x' W) as C1.
  pose proof (scores_in_range_ensure d x' W S) as S1.
  pose proof (getScore_in_range _ x' S1) as R.
  unfold applyVote. cbn [fst snd]. fold x'.
  change (String.eqb "++" "++") with true. change (String.eqb "--" "++") with false.
  cbv iota.
  split; [|split; [|apply getScore_ensure]].
  - apply votes_cancel; [assumption | assumption |].
    rewrite (ensure_created (updateScore _ _ _) x')
      by (unfold created, updateScore; simpl; now rewrite items_update_item).
    rewrite getScore_updateScore_self by assumption.
    now apply wrap64_up_down.
  - apply votes_cancel; [assumption | assumption |].
    rewrite (ensure_created (updateScore _ _ _) x')
      by (unfold created, updateScore; simpl; now rewrite items_update_item).
    rewrite getScore_updateScore_self by assumption.
    now apply wrap64_down_up.
Qed.

Lemma getScore_abs_le_mass (d : DB) (x : string) : Z.abs (getScore d x) <= mass d.
Proof.
  unfold getScore. rewrite mass_sum_abs.
  destruct (Sql.select_item x (tallies d)) as [v|] eqn:E.
  - now apply (select_abs_le x).
  - apply sum_abs_nonneg.
Qed.

(** X4.  One vote, from any reachable database: the voted item (its name
    lowercased) ends with its former score plus or minus one, wrapped to
    64 bits, and with exactly plus or minus one when fewer than 2^63 - 1
    operations came before; no other score changes, no created item
    changes group, and the response is the item, the score now stored in
    brackets and, when the item has linked items, their list. *)
Theorem vote_changes_one_score (ops : list op) (m : string * string) (y : string) :
  let d := run empty_db ops in
  let x := Text.ToLower (fst m) in
  let delta := if String.eqb (snd m) "++" then 1 else -1 in
  let d' := fst (applyVote d m) in
  getScore d' x = wrap64 (getScore d x + delta) /\
  (Z.of_nat (List.length ops) < max_int64 -> getScore d' x = getScore d x + delta) /\
  (y <> x -> getScore d' y = getScore d y) /\
  (created d y -> getGroupID d' y = getGroupID d y) /\
  created d' x /\
  snd (applyVote d m) =
    (x ++ ": [" ++ Text.fmt_d (getScore d' x) ++ "]" ++
     match getLinkedItems d' x with
     | [] => EmptyString
     | linked => " (linked with: " ++ Text.Join linked ", " ++ ")"
     end)%string.
Proof.
  cbv zeta. pose proof (wf_run ops empty_db wf_empty) as W.
  pose proof (mass_run ops empty_db wf_empty) as M.
  set (d := run empty_db ops) in *. set (x := Text.ToLower (fst m)).
  pose proof (created_ensure_self d x W) as C1.
  assert (E : getScore (fst (applyVote d m)) x =
              wrap64 (getScore d x + (if String.eqb (snd m) "++" then 1 else -1))).
  { unfold applyVote. cbn [fst]. fold x.
    rewrite getScore_updateScore_self by assumption.
    rewrite getScore_ensure. now destruct (String.eqb (snd m) "++"). }
  split; [exact E|].
  split.
  { intros L. rewrite E. apply wrap64_in_range.
    change (mass empty_db) with 0 in M.
    assert (M' : mass d <= Z.of_nat (List.length ops))
      by (specialize (M ltac:(lia)); lia).
    pose proof (getScore_abs_le_mass d x).
    unfold min_int64, max_int64 in *.
    destruct (String.eqb (snd m) "++"); lia. }
  split.
  { intros Hy. unfold applyVote. cbn [fst]. fold x.
    unfold getScore at 1, updateScore. simpl. rewrite select_update_item.
    apply String.eqb_neq in Hy. rewrite Hy. apply getScore_ensure. }
  split.
  { intros Cy. unfold applyVote. cbn [fst]. fold x.
    change (getGroupID (updateScore ?e x ?v) y) with (getGroupID e y).
    now apply getGroupID_ensure_old. }
  split.
  { unfold applyVote. cbn [fst]. fold x.
    unfold created, updateScore. simpl. now rewrite items_update_item. }
  rewrite E. unfold applyVote. cbn [fst snd]. fold x.
  rewrite getScore_ensure.
  set (v := if String.eqb (snd m) "++" then wrap64 (getScore d x + 1)
            else wrap64 (getScore d x - 1)).
  replace (wrap64 (getScore d x + (if String.eqb (snd m) "++" then 1 else -1)))
    with v by (unfold v; now destruct (String.eqb (snd m) "++")).
  now destruct (getLinkedItems (updateScore (ensureItemExists d x) x v) x).
Qed.

End VoteExtras.

(** ** Linked items and the [groups] table *)

Section GroupExtras.

Lemma select_others_in (g : Z) (x z : string) (t : Sql.table) :
  In (z, g) t -> z <> x -> In z (Sql.select_others g x t).
Proof.
  intros H N. unfold Sql.select_others, Sql.items.
  change z with (fst (z, g)). apply in_map, filter_In. split; [assumption|].
  simpl. rewrite Z.eqb_refl. apply String.eqb_neq in N. now rewrite N.
Qed.

Lemma in_aliases_getGroupID (d : DB) (z : string) (g : Z) :
  wf d -> In (z, g) (aliases d) -> getGroupID d z = g /\ created d z.
Proof.
  intros W H. split.
  - unfold getGroupID. now rewrite (nodup_select z g _ (wf_nodup d W) H).
  - apply (created_iff_aliased d z W). unfold Sql.items.
    change z with (fst (z, g)). now apply in_map.
Qed.

Lemma getGroupID_in_aliases (d : DB) (z : string) :
  wf d -> created d z -> In (z, getGroupID d z) (aliases d).
Proof.
  intros W C. apply (created_iff_aliased d z W), in_items_select in C.
  destruct C as [g E]. unfold getGroupID. rewrite E.
  now apply select_item_some_in.
Qed.

Lemma linked_iff (d : DB) (x y : string) :
  wf d ->
  (In y (getLinkedItems d x) <->
   y <> x /\ created d x /\ created d y /\ getGroupID d x = getGroupID d y).
Proof.
  intros W. unfold getLinkedItems.
  destruct (Z.eqb_spec (getGroupID d x) 0) as [E|E].
  - split; [intros []|]. intros (_ & C & _). 
    pose proof (getGroupID_created d x W C). lia.
  - assert (C : created d x).
    { destruct (created_dec d x) as [C|C]; [assumption|].
      now rewrite (getGroupID_not_created d x W C) in E. }
    split.
    + intros H. apply in_select_others in H. destruct H as [H N].
      destruct (in_aliases_getGroupID d y _ W H) as [G Cy]. auto.
    + intros (N & _ & Cy & G). apply select_others_in; [|assumption].
      rewrite G. now apply getGroupID_in_aliases.
Qed.

(** X5.  The linked items of [x], in any reachable database, are exactly
    the created items other than [x] that have the group id of [x]; the
    list has no duplicates and never holds [x]; and being linked is
    mutual. *)
Theorem linked_items_are_the_group_mates (ops : list op) (x y : string) :
  let d := run empty_db ops in
  (In y (getLinkedItems d x) <->
   y <> x /\ created d x /\ created d y /\ getGroupID d x = getGroupID d y) /\
  NoDup (getLinkedItems d x) /\
  ~ In x (getLinkedItems d x) /\
  (In y (getLinkedItems d x) -> In x (getLinkedItems d y)).
Proof.
  cbv zeta. pose proof (wf_run ops empty_db wf_empty) as W.
  set (d := run empty_db ops) in *.
  split; [now apply linked_iff|].
  split.
  { unfold getLinkedItems. destruct (_ =? 0); [constructor|].
    rewrite select_others_members. apply NoDup_filter. now apply nodup_members. }
  split.
  { intros H. apply (linked_iff d x x W) in H. now destruct H. }
  intros H. apply (linked_iff d x y W) in H. apply (linked_iff d y x W).
  destruct H as (N & Cx & Cy & G). auto.
Qed.

Lemma groups_ok_added (d : DB) (x : string) :
  wf d -> groups_ok d -> groups_ok (added d x).
Proof.
  intros W [L N R]. constructor; simpl.
  - intros g. unfold referenced. simpl. rewrite map_app, !in_app_iff. simpl.
    intros [H|H]; [left; now apply L | now right].
  - apply NoDup_app; [assumption | repeat constructor; simpl; tauto|].
    intros g H [<-|[]]. apply R in H. lia.
  - intros g. rewrite in_app_iff. simpl. intros [H|[<-|[]]].
    + apply R in H. lia.
    + pose proof (wf_seq d W). lia.
Qed.

Lemma groups_ok_ensure (d : DB) (x : string) :
  wf d -> groups_ok d -> groups_ok (ensureItemExists d x).
Proof.
  intros W G. destruct (ensure_cases d x W) as [[_ ->]|[_ ->]]; [assumption|].
  now apply groups_ok_added.
Qed.

Lemma groups_ok_ensured (d : DB) (a b : string) :
  wf d -> groups_ok d -> groups_ok (ensured d a b).
Proof.
  intros W G. apply groups_ok_ensure; [now apply wf_ensure|].
  now apply groups_ok_ensure.
Qed.

Lemma groups_ok_link (d : DB) (a b : string) :
  wf d -> groups_ok d -> groups_ok (linkItems d a b).
Proof.
  intros W G. pose proof (groups_ok_ensured d a b W G) as [L N R].
  pose proof (wf_ensured d a b W) as W2.
  rewrite linkItems_eq. cbv zeta.
  destruct (Z.eqb_spec (getGroupID (ensured d a b) a) (getGroupID (ensured d a b) b))
    as [E|E]; [now constructor|].
  constructor; simpl.
  - intros g. unfold referenced. simpl. rewrite values_update_value, in_map_iff.
    intros (g0 & Eg & I). apply filter_In.
    destruct (Z.eqb_spec g0 (getGroupID (ensured d a b) b)) as [E0|E0]; subst g.
    + split.
      * apply L, referenced_getGroupID;
          [assumption | apply (created_ensured_l d a b W)].
      * apply negb_true_iff, Z.eqb_neq. exact E.
    + split; [now apply L|]. apply negb_true_iff, Z.eqb_neq. exact E0.
  - now apply NoDup_filter.
  - intros g H. apply filter_In in H. now apply R.
Qed.

Lemma groups_ok_unlink (d : DB) (a b : string) :
  wf d -> groups_ok d -> groups_ok (unlinkItems d a b).
Proof.
  intros W G. pose proof (groups_ok_ensured d a b W G) as [L N R].
  pose proof (wf_ensured d a b W) as W2. pose proof (wf_seq _ W2) as Hs.
  rewrite unlinkItems_eq. cbv zeta.
  destruct (_ =? _); [|now constructor].
  constructor; simpl.
  - intros g. unfold referenced. simpl. intros H.
    apply values_update_item in H. rewrite in_app_iff. simpl.
    destruct H as [->|H]; [now right; left | left; now apply L].
  - apply NoDup_app; [assumption | repeat constructor; simpl; tauto|].
    intros g H [<-|[]]. apply R in H. lia.
  - intros g. rewrite in_app_iff. simpl. intros [H|[<-|[]]]; [|lia].
    apply R in H. lia.
Qed.

Lemma groups_ok_step (d : DB) (o : op) :
  wf d -> groups_ok d -> groups_ok (step d o).
Proof.
  intros W G. destruct o as [x|x o|a b|a b|x|x]; cbn [step]; try assumption.
  - now apply groups_ok_ensure.
  - destruct (applyVote_db d (x, o)) as [v ->].
    destruct (groups_ok_ensure d (Text.ToLower (fst (x, o))) W G) as [L N R].
    now constructor.
  - now apply groups_ok_link.
  - now apply groups_ok_unlink.
Qed.

Lemma groups_ok_run (ops : list op) (d : DB) :
  wf d -> groups_ok d -> groups_ok (run d ops).
Proof.
  revert d. induction ops as [|o ops IH]; intros d W G; [assumption|].
  apply (IH (step d o)); [now apply wf_step | now apply groups_ok_step].
Qed.

Lemma groups_ok_empty : groups_ok empty_db.
Proof. constructor; simpl; [intros g [] | constructor | intros g []]. Qed.

Lemma groups_ensure_incl (d : DB) (x : string) (g : Z) :
  wf d -> In g (groups d) -> In g (groups (ensureItemExists d x)).
Proof.
  intros W H. destruct (ensure_cases d x W) as [[_ ->]|[_ ->]]; [assumption|].
  simpl. rewrite in_app_iff. now left.
Qed.

(** X6.  The [groups] table in any reachable database: every group id
    that an item carries has its row, no id has two rows, and every row
    lies between 1 and the counter.  [unlinkItems] never removes a row;
    so when [x] is alone in its group, [unlinkItems x x] leaves the row
    of the old group behind although no item carries that id any more. *)
Theorem groups_table_covers_membership (ops : list op) (a b x : string) :
  let d := run empty_db ops in
  groups_ok d /\
  (forall g, In g (groups d) -> In g (groups (unlinkItems d a b))) /\
  (created d x -> getLinkedItems d x = [] ->
     In (getGroupID d x) (groups (unlinkItems d x x)) /\
     ~ referenced (unlinkItems d x x) (getGroupID d x)).
Proof.
  cbv zeta. pose proof (wf_run ops empty_db wf_empty) as W.
  pose proof (groups_ok_run ops empty_db wf_empty groups_ok_empty) as G.
  set (d := run empty_db ops) in *.
  assert (K : forall a b g, In g (groups d) -> In g (groups (unlinkItems d a b))).
  { intros a0 b0 g H. rewrite unlinkItems_eq. cbv zeta.
    assert (H2 : In g (groups (ensured d a0 b0))).
    { apply groups_ensure_incl; [now apply wf_ensure|].
      now apply groups_ensure_incl. }
    destruct (_ =? _); [|assumption]. simpl. rewrite in_app_iff. now left. }
  split; [exact G|]. split; [apply K|].
  intros C E. split.
  - apply K, (live_rows d G). now apply referenced_getGroupID.
  - unfold referenced. rewrite unlinkItems_eq. cbv zeta.
    rewrite (ensured_created d x x C C), Z.eqb_refl. simpl.
    rewrite in_map_iff. intros ([z w] & Ew & H). simpl in Ew. subst w.
    apply in_update_item in H. destruct H as [[_ H]|[N H]].
    + pose proof (getGroupID_bound d x W). lia.
    + assert (I : In z (getLinkedItems d x)).
      { apply (linked_iff d x z W).
        destruct (in_aliases_getGroupID d z _ W H) as [Gz Cz]. auto. }
      rewrite E in I. destruct I.
Qed.

End GroupExtras.

(** ** Totals across [linkItems] and [unlinkItems] *)

Section TotalExtras.

Lemma rows_none (d : DB) (g : Z) :
  ~ referenced d g -> filter (fun r => snd r =? g) (aliases d) = [].
Proof.
  intros N.
  destruct (filter (fun r => snd r =? g) (aliases d)) as [|[k v] l] eqn:E;
    [reflexivity|].
  exfalso. apply N. unfold referenced.
  assert (I : In (k, v) (filter (fun r => snd r =? g) (aliases d)))
    by (rewrite E; now left).
  apply filter_In in I. destruct I as [I F]. simpl in F. apply Z.eqb_eq in F.
  subst v. change g with (snd (k, g)). now apply in_map.
Qed.

Lemma members_none (d : DB) (g : Z) :
  ~ referenced d g -> members d g = [].
Proof. intros N. unfold members. now rewrite rows_none. Qed.

Lemma total_is_group_sum (d : DB) (y : string) :
  wf d -> mass d <= max_int64 ->
  getTotalScore d y = group_sum d (getGroupID d y).
Proof.
  intros W M. destruct (created_dec d y) as [C|C].
  - now apply getTotalScore_created.
  - rewrite (getGroupID_not_created d y W C). unfold getTotalScore.
    rewrite (getGroupID_not_created d y W C). simpl.
    unfold group_sum. rewrite members_none.
    + unfold getScore. apply select_item_none in C. now rewrite C.
    + intros H. pose proof (wf_range d W 0 H). lia.
Qed.

Lemma group_sum_ext (d e : DB) (g : Z) :
  members e g = members d g ->
  (forall y, In y (members d g) -> getScore e y = getScore d y) ->
  group_sum e g = group_sum d g.
Proof.
  intros E H. unfold group_sum. rewrite E. f_equal. now apply map_ext_in.
Qed.

Lemma group_sum_added (d : DB) (x : string) (g : Z) :
  wf d -> ~ created d x -> g <> groups_seq d + 1 ->
  group_sum (added d x) g = group_sum d g.
Proof.
  intros W C N. rewrite <- (ensure_new d x W C). apply group_sum_ext.
  - rewrite (ensure_new d x W C). unfold members. simpl.
    rewrite filter_app. simpl.
    destruct (Z.eqb_spec (groups_seq d + 1) g); [lia|]. now rewrite app_nil_r.
  - intros y _. apply getScore_ensure.
Qed.

Lemma total_ensure (d : DB) (x y : string) :
  wf d -> mass d <= max_int64 ->
  getTotalScore (ensureItemExists d x) y = getTotalScore d y.
Proof.
  intros W M. destruct (ensure_cases d x W) as [[_ ->]|[C E]]; [reflexivity|].
  pose proof (wf_ensure d x W) as W'. pose proof (mass_ensure d x W) as M'.
  rewrite !total_is_group_sum by (assumption || lia).
  rewrite E in *. rewrite getGroupID_added by assumption.
  destruct (String.eqb_spec x y) as [<-|Hne].
  - rewrite (getGroupID_not_created d x W C).
    unfold group_sum at 2. rewrite (members_none d 0)
      by (intros H; pose proof (wf_range d W 0 H); lia).
    assert (Mx : members (added d x) (groups_seq d + 1) = [x]).
    { unfold members. cbn [aliases added]. rewrite filter_app.
      rewrite (rows_none d _ (fresh_not_referenced d W)).
      cbn [filter snd app]. now rewrite Z.eqb_refl. }
    unfold group_sum. rewrite Mx. cbn [map sumZ fold_right].
    rewrite <- E, getScore_ensure. unfold getScore.
    apply select_item_none in C. rewrite C. reflexivity.
  - apply group_sum_added; [assumption | assumption |].
    pose proof (getGroupID_bound d y W). lia.
Qed.

Lemma total_ensured (d : DB) (a b y : string) :
  wf d -> mass d <= max_int64 ->
  getTotalScore (ensured d a b) y = getTotalScore d y.
Proof.
  intros W M. unfold ensured.
  rewrite total_ensure; [now apply total_ensure | now apply wf_ensure |].
  now rewrite mass_ensure.
Qed.

Lemma sum_items_filter_or (f : string -> Z) (p q : string * Z -> bool) (t : Sql.table) :
  (forall r, p r = true -> q r = false) ->
  sumZ (map f (Sql.items (filter (fun r => p r || q r) t))) =
  sumZ (map f (Sql.items (filter p t))) + sumZ (map f (Sql.items (filter q t))).
Proof.
  intros X. induction t as [|r t IH]; simpl; [reflexivity|].
  destruct (p r) eqn:P; simpl.
  - rewrite (X r P). simpl. lia.
  - destruct (q r); simpl; lia.
Qed.

Lemma members_merged (g1 g2 : Z) (t : Sql.table) :
  g1 <> g2 ->
  Sql.items (filter (fun r => snd r =? g1) (Sql.update_value g1 g2 t)) =
  Sql.items (filter (fun r => (snd r =? g1) || (snd r =? g2)) t).
Proof.
  intros N. induction t as [|[k v] t IH]; simpl; [reflexivity|].
  destruct (Z.eqb_spec v g2) as [->|E2]; simpl.
  - rewrite Z.eqb_refl. rewrite orb_true_r. simpl. now rewrite IH.
  - rewrite orb_false_r. destruct (v =? g1); simpl; now rewrite IH.
Qed.

Lemma members_untouched (g g1 g2 : Z) (t : Sql.table) :
  g <> g1 -> g <> g2 ->
  Sql.items (filter (fun r => snd r =? g) (Sql.update_value g1 g2 t)) =
  Sql.items (filter (fun r => snd r =? g) t).
Proof.
  intros N1 N2. induction t as [|[k v] t IH]; simpl; [reflexivity|].
  destruct (Z.eqb_spec v g2) as [->|E2]; simpl.
  - destruct (Z.eqb_spec g1 g); [lia|]. destruct (Z.eqb_spec g2 g); [lia|]. exact IH.
  - destruct (v =? g); simpl; now rewrite IH.
Qed.

Lemma mass_link (d : DB) (a b : string) :
  wf d -> mass (linkItems d a b) = mass d.
Proof.
  intros W. unfold mass. rewrite tallies_link. apply (mass_ensured d a b W).
Qed.

Lemma mass_unlink (d : DB) (a b : string) :
  wf d -> mass (unlinkItems d a b) = mass d.
Proof.
  intros W. unfold mass. rewrite tallies_unlink. apply (mass_ensured d a b W).
Qed.

Lemma getScore_link (d : DB) (a b y : string) :
  getScore (linkItems d a b) y = getScore d y.
Proof.
  unfold getScore at 1. rewrite tallies_link.
  change (getScore (ensured d a b) y = getScore d y).
  unfold ensured. now rewrite !getScore_ensure.
Qed.

Lemma getScore_unlink (d : DB) (a b y : string) :
  getScore (unlinkItems d a b) y = getScore d y.
Proof.
  unfold getScore at 1. rewrite tallies_unlink.
  change (getScore (ensured d a b) y = getScore d y).
  unfold ensured. now rewrite !getScore_ensure.
Qed.

Lemma getScore_ensured (d : DB) (a b y : string) :
  getScore (ensured d a b) y = getScore d y.
Proof. unfold ensured. now rewrite !getScore_ensure. Qed.

Lemma aliases_link (d : DB) (a b : string) :
  getGroupID (ensured d a b) a <> getGroupID (ensured d a b) b ->
  aliases (linkItems d a b) =
  Sql.update_value (getGroupID (ensured d a b) a) (getGroupID (ensured d a b) b)
                   (aliases (ensured d a b)).
Proof.
  intros N. rewrite linkItems_eq. cbv zeta.
  apply Z.eqb_neq in N. now rewrite N.
Qed.

Lemma group_sum_link_merged (d : DB) (a b : string) :
  let d2 := ensured d a b in
  getGroupID d2 a <> getGroupID d2 b ->
  group_sum (linkItems d a b) (getGroupID d2 a) =
  group_sum d2 (getGroupID d2 a) + group_sum d2 (getGroupID d2 b).
Proof.
  cbv zeta. intros N. unfold group_sum, members.
  rewrite (aliases_link d a b N), members_merged by assumption.
  rewrite (map_ext (getScore (linkItems d a b)) (getScore d))
    by (intros; apply getScore_link).
  rewrite !(map_ext (getScore (ensured d a b)) (getScore d))
    by (intros; apply getScore_ensured).
  apply sum_items_filter_or. intros [k v]. simpl.
  intros E. apply Z.eqb_eq in E. apply Z.eqb_neq. congruence.
Qed.

Lemma group_sum_link_other (d : DB) (a b : string) (g : Z) :
  let d2 := ensured d a b in
  g <> getGroupID d2 a -> g <> getGroupID d2 b ->
  group_sum (linkItems d a b) g = group_sum d2 g.
Proof.
  cbv zeta. intros N1 N2. unfold group_sum, members.
  rewrite (map_ext (getScore (linkItems d a b)) (getScore d))
    by (intros; apply getScore_link).
  rewrite (map_ext (getScore (ensured d a b)) (getScore d))
    by (intros; apply getScore_ensured).
  rewrite linkItems_eq. cbv zeta.
  destruct (_ =? _); [reflexivity|]. simpl.
  now rewrite members_untouched.
Qed.

(** X7.  Totals across [linkItems a b], for runs of at most 2^63 - 1
    operations: afterwards [a] and [b] report the same total; when their
    groups differed that total is the sum of the two totals from before
    the call, and when they were one group already it is unchanged; an
    item of any other group keeps its total. *)
Theorem link_adds_totals (ops : list op) (a b y : string) :
  Z.of_nat (List.length ops) <= max_int64 ->
  let d := run empty_db ops in
  let d2 := ensured d a b in
  let d' := linkItems d a b in
  getTotalScore d' a = getTotalScore d' b /\
  (getGroupID d2 a <> getGroupID d2 b ->
     getTotalScore d' a = getTotalScore d a + getTotalScore d b) /\
  (getGroupID d2 a = getGroupID d2 b -> getTotalScore d' a = getTotalScore d a) /\
  (getGroupID d2 y <> getGroupID d2 a -> getGroupID d2 y <> getGroupID d2 b ->
     getTotalScore d' y = getTotalScore d y).
Proof.
  intros L. cbv zeta. pose proof (wf_run ops empty_db wf_empty) as W.
  pose proof (mass_run ops empty_db wf_empty) as M.
  change (mass empty_db) with 0 in M. specialize (M ltac:(lia)).
  set (d := run empty_db ops) in *.
  assert (Md : mass d <= max_int64) by lia.
  pose proof (wf_link d a b W) as W'. pose proof (wf_ensured d a b W) as W2.
  assert (M' : mass (linkItems d a b) <= max_int64)
    by (rewrite mass_link by assumption; lia).
  assert (M2 : mass (ensured d a b) <= max_int64)
    by (rewrite mass_ensured by assumption; lia).
  destruct (link_joins d a b W) as [Ja Jb].
  split.
  { rewrite !total_is_group_sum by assumption. now rewrite Ja, Jb. }
  split.
  { intros N. rewrite total_is_group_sum by assumption.
    rewrite Ja, (group_sum_link_merged d a b N).
    rewrite <- !total_is_group_sum by assumption.
    now rewrite !total_ensured by assumption. }
  split.
  { intros E. rewrite linkItems_eq. cbv zeta. rewrite E, Z.eqb_refl.
    now apply total_ensured. }
  intros N1 N2. rewrite total_is_group_sum by assumption.
  rewrite getGroupID_link by assumption. cbv zeta.
  destruct (Z.eqb_spec (getGroupID (ensured d a b) y) (getGroupID (ensured d a b) b));
    [contradiction|].
  rewrite group_sum_link_other by assumption.
  rewrite <- total_is_group_sum by assumption.
  now apply total_ensured.
Qed.

Lemma link_adds_totals_witness :
  getTotalScore
    (linkItems (run empty_db [ApplyDelta "a" "++"; ApplyDelta "b" "--";
                              ApplyDelta "b" "--"]%string) "a" "b") "a" = -1.
Proof.
  assert (L : Z.of_nat (List.length
                 [ApplyDelta "a" "++"; ApplyDelta "b" "--"; ApplyDelta "b" "--"]%string)
              <= max_int64) by (vm_compute; discriminate).
  destruct (link_adds_totals _ "a"%string "b"%string "a"%string L) as (_ & H & _).
  rewrite H; [reflexivity | vm_compute; discriminate].
Defined.

Lemma members_without (b : string) (fresh g : Z) (t : Sql.table) :
  fresh <> g ->
  Sql.items (filter (fun r => snd r =? g) (Sql.update_item b fresh t)) =
  filter (fun y => negb (String.eqb y b)) (Sql.items (filter (fun r => snd r =? g) t)).
Proof.
  intros N. induction t as [|[k v] t IH]; simpl; [reflexivity|].
  destruct (String.eqb_spec k b) as [->|Hne]; simpl.
  - destruct (Z.eqb_spec fresh g); [lia|].
    destruct (v =? g); simpl; [rewrite String.eqb_refl; simpl|]; exact IH.
  - destruct (v =? g); simpl; [|exact IH].
    apply String.eqb_neq in Hne. rewrite Hne. simpl. now rewrite IH.
Qed.

Lemma members_moved (b : string) (fresh : Z) (t : Sql.table) :
  NoDup (Sql.items t) -> In b (Sql.items t) ->
  (forall k, ~ In (k, fresh) t) ->
  Sql.items (filter (fun r => snd r =? fresh) (Sql.update_item b fresh t)) = [b].
Proof.
  induction t as [|[k v] t IH]; simpl; [tauto|].
  intros N I F. inversion N as [|? ? Hnotin N']; subst.
  assert (F' : forall k0, ~ In (k0, fresh) t) by (intros k0 H; apply (F k0); now right).
  destruct (String.eqb_spec k b) as [->|Hne]; simpl.
  - rewrite Z.eqb_refl. simpl. f_equal.
    rewrite (update_item_absent b fresh t Hnotin).
    destruct (filter (fun r => snd r =? fresh) t) as [|[k0 v0] l] eqn:E; [reflexivity|].
    exfalso. assert (J : In (k0, v0) (filter (fun r => snd r =? fresh) t))
      by (rewrite E; now left).
    apply filter_In in J. destruct J as [J G]. simpl in G. apply Z.eqb_eq in G.
    subst v0. now apply (F' k0).
  - destruct (Z.eqb_spec v fresh) as [->|_]; [exfalso; apply (F k); now left|].
    apply IH; [assumption | tauto | assumption].
Qed.

Lemma sum_without (f : string -> Z) (b : string) (l : list string) :
  NoDup l -> In b l ->
  sumZ (map f (filter (fun y => negb (String.eqb y b)) l)) = sumZ (map f l) - f b.
Proof.
  induction l as [|y l IH]; simpl; [tauto|].
  intros N I. inversion N as [|? ? Hnotin N']; subst.
  destruct (String.eqb_spec y b) as [->|Hne]; simpl.
  - assert (E : filter (fun y => negb (String.eqb y b)) l = l).
    { clear -Hnotin. induction l as [|z l IH]; simpl; [reflexivity|].
      destruct (String.eqb_spec z b) as [->|_]; simpl.
      - exfalso. apply Hnotin. now left.
      - f_equal. apply IH. intros H. apply Hnotin. now right. }
    rewrite E. lia.
  - destruct I as [I|I]; [contradiction|]. rewrite (IH N' I). lia.
Qed.

Lemma filter_not_member (b : string) (l : list string) :
  ~ In b l -> filter (fun y => negb (String.eqb y b)) l = l.
Proof.
  induction l as [|z l IH]; simpl; [reflexivity|]. intros H.
  destruct (String.eqb_spec z b) as [->|_]; simpl; [tauto|].
  f_equal. apply IH. tauto.
Qed.

Lemma in_members (d : DB) (z : string) (g : Z) :
  wf d -> In z (members d g) -> getGroupID d z = g.
Proof.
  intros W H. unfold members, Sql.items in H. apply in_map_iff in H.
  destruct H as ([k v] & E & I). simpl in E. subst k.
  apply filter_In in I. destruct I as [I F]. simpl in F. apply Z.eqb_eq in F.
  subst v. now apply in_aliases_getGroupID.
Qed.

(** X8.  Totals across [unlinkItems a b] on two different items of one
    group, for runs of at most 2^63 - 1 operations: afterwards the total
    of [b] is its own score, every other member of the group ([a] among
    them) reports the former total less the score of [b], and every item
    outside the group keeps its total. *)
Theorem unlink_splits_totals (ops : list op) (a b y : string) :
  Z.of_nat (List.length ops) <= max_int64 ->
  let d := run empty_db ops in
  let d' := unlinkItems d a b in
  created d a -> a <> b -> getGroupID d a = getGroupID d b ->
  getTotalScore d' b = getScore d b /\
  getTotalScore d' a = getTotalScore d a - getScore d b /\
  (y <> b -> getGroupID d y = getGroupID d b ->
     getTotalScore d' y = getTotalScore d y - getScore d b) /\
  (getGroupID d y <> getGroupID d b -> getTotalScore d' y = getTotalScore d y).
Proof.
  intros L. cbv zeta. intros Ca Hab E.
  pose proof (wf_run ops empty_db wf_empty) as W.
  pose proof (mass_run ops empty_db wf_empty) as M.
  change (mass empty_db) with 0 in M. specialize (M ltac:(lia)).
  set (d := run empty_db ops) in *.
  assert (Md : mass d <= max_int64) by lia.
  pose proof (shares_created d a b W Ca E) as Cb.
  pose proof (wf_unlink d a b W) as W'.
  assert (M' : mass (unlinkItems d a b) <= max_int64)
    by (rewrite mass_unlink by assumption; lia).
  pose proof (getGroupID_created d b W Cb) as Rb.
  assert (A : aliases (unlinkItems d a b) =
              Sql.update_item b (groups_seq d + 1) (aliases d)).
  { rewrite unlinkItems_eq. cbv zeta.
    rewrite (ensured_created d a b Ca Cb), E, Z.eqb_refl. reflexivity. }
  assert (G : forall z, getGroupID (unlinkItems d a b) z =
                        if String.eqb z b then groups_seq d + 1 else getGroupID d z)
    by (intros z; now apply unlink_shared).
  assert (Sc : forall l, map (getScore (unlinkItems d a b)) l = map (getScore d) l)
    by (intros l; apply map_ext; intros; apply getScore_unlink).
  assert (Tb : getTotalScore (unlinkItems d a b) b = getScore d b).
  { rewrite total_is_group_sum by assumption. rewrite G, String.eqb_refl.
    unfold group_sum, members. rewrite A, members_moved.
    - simpl. rewrite getScore_unlink. lia.
    - apply (wf_nodup d W).
    - now apply (created_iff_aliased d b W).
    - intros k H. pose proof (in_aliases_bound d k _ W H). lia. }
  assert (Tg : forall z, z <> b -> getGroupID d z = getGroupID d b ->
                 getTotalScore (unlinkItems d a b) z = getTotalScore d z - getScore d b).
  { intros z Hz Ez. rewrite !total_is_group_sum by assumption.
    rewrite G. apply String.eqb_neq in Hz. rewrite Hz.
    unfold group_sum, members. rewrite A, members_without by lia.
    rewrite Sc. fold (members d (getGroupID d z)).
    apply sum_without; [now apply nodup_members|].
    rewrite Ez. now apply member_self. }
  split; [exact Tb|]. split; [now apply Tg|]. split; [apply Tg|].
  intros N. rewrite !total_is_group_sum by assumption.
  assert (Hy : y <> b) by congruence.
  rewrite G. apply String.eqb_neq in Hy. rewrite Hy.
  unfold group_sum, members. rewrite A, members_without.
  - rewrite Sc. fold (members d (getGroupID d y)).
    rewrite filter_not_member; [reflexivity|].
    intros H. apply (in_members d b _ W) in H. congruence.
  - pose proof (getGroupID_bound d y W). lia.
Qed.

Lemma unlink_splits_totals_witness :
  getTotalScore
    (unlinkItems (run empty_db [ApplyDelta "a" "++"; ApplyDelta "b" "--";
                                Link "a" "b"]%string) "a" "b") "a" = 1.
Proof.
  assert (L : Z.of_nat (List.length
                 [ApplyDelta "a" "++"; ApplyDelta "b" "--"; Link "a" "b"]%string)
              <= max_int64) by (vm_compute; discriminate).
  assert (C : created (run empty_db [ApplyDelta "a" "++"; ApplyDelta "b" "--";
                                     Link "a" "b"]%string) "a")
    by (vm_compute; tauto).
  assert (N : "a"%string <> "b"%string) by discriminate.
  destruct (unlink_splits_totals _ "a"%string "b"%string "a"%string L C N eq_refl)
    as (_ & H & _).
  rewrite H. reflexivity.
Defined.

End TotalExtras.

(** ** Parsing the commands *)

Section ParseExtras.

Local Open Scope string_scope.

Lemma append_assoc (s t u : string) : (s ++ t) ++ u = s ++ (t ++ u).
Proof. induction s as [|c s IH]; simpl; [reflexivity | now rewrite IH]. Qed.

Lemma append_empty_r (s : string) : s ++ "" = s.
Proof. induction s as [|c s IH]; simpl; [reflexivity | now rewrite IH]. Qed.

Lemma after_iff (p s r : string) : Text.after p s = Some r <-> s = p ++ r.
Proof.
  revert s. induction p as [|a p IH]; intros s; simpl.
  - split; [intros [= ->]; reflexivity | intros ->; reflexivity].
  - destruct s as [|b s]; [split; discriminate|].
    destruct (Ascii.eqb_spec a b) as [->|N].
    + rewrite IH. split; [intros ->; reflexivity | intros [= ->]; reflexivity].
    + split; [discriminate | intros [= E _]; now symmetry in E].
Qed.

Lemma span_item_spec (s : string) :
  s = fst (Text.span_item s) ++ snd (Text.span_item s) /\
  all_chars Text.isItemChar (fst (Text.span_item s)) = true /\
  stops (snd (Text.span_item s)) = true.
Proof.
  induction s as [|c s (E & A & S)]; [cbn; auto|].
  cbn [Text.span_item]. destruct (Text.isItemChar c) eqn:I.
  - destruct (Text.span_item s) as [run tl]. cbn [fst snd] in *.
    cbn [append all_chars]. rewrite I. split; [now f_equal | auto].
  - cbn [fst snd append all_chars stops]. now rewrite I.
Qed.

Lemma span_item_append (a tl : string) :
  all_chars Text.isItemChar a = true -> stops tl = true ->
  Text.span_item (a ++ tl) = (a, tl).
Proof.
  intros A S. induction a as [|c a IH]; cbn [append all_chars] in *.
  - destruct tl as [|c tl]; [reflexivity|]. cbn [stops] in S.
    apply negb_true_iff in S. cbn [Text.span_item]. now rewrite S.
  - apply andb_prop in A. destruct A as [Ac Aa].
    cbn [Text.span_item]. rewrite Ac, (IH Aa). reflexivity.
Qed.

Lemma is_empty_false_iff (s : string) : Text.is_empty s = false <-> s <> "".
Proof. destruct s; simpl; split; congruence. Qed.

Lemma is_item_iff (s : string) :
  is_item s = true <-> Text.is_empty s = false /\ all_chars Text.isItemChar s = true.
Proof.
  unfold is_item. rewrite andb_true_iff, negb_true_iff. tauto.
Qed.

Lemma space_stops (s : string) : stops (" " ++ s) = true.
Proof. reflexivity. Qed.

Lemma match_item_iff (cmd s a : string) :
  Text.match_item cmd s = Some a <-> s = cmd ++ a /\ is_item a = true.
Proof.
  unfold Text.match_item. rewrite is_item_iff. split.
  - destruct (Text.after cmd s) as [r|] eqn:E; [|discriminate].
    apply after_iff in E. destruct (span_item_spec r) as (Er & A & _).
    destruct (Text.span_item r) as [item tl]. cbn [fst snd] in *.
    destruct (Text.is_empty item) eqn:I; [discriminate|].
    destruct tl; [|discriminate]. intros [= <-].
    rewrite append_empty_r in Er. subst. auto.
  - intros (-> & I & A).
    assert (E : Text.after cmd (cmd ++ a) = Some a) by now apply after_iff.
    rewrite E. rewrite <- (append_empty_r a) at 1.
    rewrite (span_item_append a "" A eq_refl). now rewrite I.
Qed.

Lemma match_two_items_iff (cmd s a b : string) :
  Text.match_two_items cmd s = Some (a, b) <->
  s = cmd ++ a ++ " " ++ b /\ is_item a = true /\ is_item b = true.
Proof.
  unfold Text.match_two_items. rewrite !is_item_iff. split.
  - destruct (Text.after cmd s) as [r|] eqn:E; [|discriminate].
    apply after_iff in E. destruct (span_item_spec r) as (Er & A1 & _).
    destruct (Text.span_item r) as [item1 tl1]. cbn [fst snd] in *.
    destruct (Text.is_empty item1) eqn:I1; [discriminate|].
    destruct (Text.after " " tl1) as [r2|] eqn:E2; [|discriminate].
    apply after_iff in E2. destruct (span_item_spec r2) as (Er2 & A2 & _).
    destruct (Text.span_item r2) as [item2 tl2]. cbn [fst snd] in *.
    destruct (Text.is_empty item2) eqn:I2; [discriminate|].
    destruct tl2; [|discriminate]. intros [= <- <-].
    rewrite append_empty_r in Er2. subst. auto.
  - intros (-> & (I1 & A1) & (I2 & A2)).
    assert (E : Text.after cmd (cmd ++ a ++ " " ++ b) = Some (a ++ " " ++ b))
      by now apply after_iff.
    rewrite E, (span_item_append a (" " ++ b) A1 (space_stops b)), I1.
    assert (E2 : Text.after " " (" " ++ b) = Some b) by now apply after_iff.
    rewrite E2. rewrite <- (append_empty_r b) at 1.
    rewrite (span_item_append b "" A2 eq_refl). now rewrite I2.
Qed.

(** X9.  The three command patterns accept exactly the lines made of the
    command word, one space and one or two items separated by a single
    space, an item being one or more characters of [[\w\.]]; the
    submatches are those items.  Nothing may come before, between or
    after: no second space, no trailing text. *)
Theorem command_lines_round_trip (s a b : string) :
  (Text.linkRegex s = Some (a, b) <->
   s = "!link " ++ a ++ " " ++ b /\ is_item a = true /\ is_item b = true) /\
  (Text.unlinkRegex s = Some (a, b) <->
   s = "!unlink " ++ a ++ " " ++ b /\ is_item a = true /\ is_item b = true) /\
  (Text.totalRegex s = Some a <-> s = "!total " ++ a /\ is_item a = true) /\
  (Text.helpRegex s = true <-> s = "!help").
Proof.
  split; [apply match_two_items_iff|].
  split; [apply match_two_items_iff|].
  split; [apply match_item_iff|].
  apply String.eqb_eq.
Qed.

Lemma all_chars_app (p : ascii -> bool) (s t : string) :
  all_chars p (s ++ t) = all_chars p s && all_chars p t.
Proof.
  induction s as [|c s IH]; cbn [append all_chars]; [reflexivity|].
  now rewrite IH, andb_assoc.
Qed.

Lemma vote_in_shift (run s : string) (c : ascii) (m : string * string) :
  vote_in ((run ++ String c "") ++ s) m -> vote_in (run ++ String c s) m.
Proof.
  intros (I & O & pre & post & E). repeat split; [assumption | assumption|].
  exists pre, post. rewrite <- E, append_assoc. reflexivity.
Qed.

Lemma vote_in_skip (skipped s : string) (m : string * string) :
  vote_in s m -> vote_in (skipped ++ s) m.
Proof.
  intros (I & O & pre & post & E). repeat split; [assumption | assumption|].
  exists (skipped ++ pre), post. rewrite E, append_assoc. reflexivity.
Qed.

Lemma upvote_scan_shape (s : string) :
  (forall run m, all_chars Text.isItemChar run = true ->
     In m (Text.upvote_scan run s) -> vote_in (run ++ s) m) /\
  (forall c run m, all_chars Text.isItemChar run = true ->
     In m (Text.upvote_scan run (String c s)) -> vote_in (run ++ String c s) m).
Proof.
  induction s as [|c0 s [IH1 IH2]].
  - split; [intros run m _ []|]. intros c run m _ H.
    cbn [Text.upvote_scan] in H.
    destruct (Text.isItemChar c); [destruct H|].
    destruct (Text.is_empty run); destruct H.
  - split; [intros run m; apply IH2|]. intros c run m A H.
    rewrite upvote_scan_two in H.
    destruct (Text.isItemChar c) eqn:I.
    { apply vote_in_shift. apply IH2; [|assumption].
      rewrite all_chars_app, A. cbn [all_chars]. now rewrite I. }
    destruct (Text.is_empty run) eqn:Em.
    { destruct run; [|discriminate].
      apply (vote_in_skip (String c "")). now apply (IH2 c0 "" m eq_refl). }
    destruct (Ascii.eqb c "+" && Ascii.eqb c0 "+") eqn:Pp.
    { apply andb_prop in Pp. destruct Pp as [P1 P2].
      apply Ascii.eqb_eq in P1, P2. subst c c0.
      destruct H as [<-|H].
      - split; [apply is_item_iff; auto|]. split; [now left|].
        exists "", s. reflexivity.
      - pose proof (IH1 "" m eq_refl H) as K.
        apply (vote_in_skip (run ++ "++")) in K.
        rewrite append_assoc in K. exact K. }
    destruct (Ascii.eqb c "-" && Ascii.eqb c0 "-") eqn:Pm.
    { apply andb_prop in Pm. destruct Pm as [P1 P2].
      apply Ascii.eqb_eq in P1, P2. subst c c0.
      destruct H as [<-|H].
      - split; [apply is_item_iff; auto|]. split; [now right|].
        exists "", s. reflexivity.
      - pose proof (IH1 "" m eq_refl H) as K.
        apply (vote_in_skip (run ++ "--")) in K.
        rewrite append_assoc in K. exact K. }
    apply (IH2 c0 "" m eq_refl) in H.
    apply (vote_in_skip (run ++ String c "")) in H.
    rewrite append_assoc in H. exact H.
Qed.

Lemma upvoteRegex_shape (s : string) (m : string * string) :
  In m (Text.upvoteRegex s) -> vote_in s m.
Proof. intros H. apply (proj1 (upvote_scan_shape s) "" m eq_refl H). Qed.

(** X10.  Every match of the vote pattern in a line is an item (one or
    more characters of [[\w\.]]) followed at once by [++] or [--], and
    that text does occur in the line. *)
Theorem votes_are_items_with_an_operator (s : string) :
  Forall (vote_in s) (Text.upvoteRegex s).
Proof. apply Forall_forall. intros m H. now apply upvoteRegex_shape. Qed.

End ParseExtras.

(** ** The bot at work *)

Section BotExtras.

Lemma applyVotes_run (target : string) (ms : list (string * string)) (d : DB) :
  fst (applyVotes target d ms) =
  run d (map (fun m => ApplyDelta (fst m) (snd m)) ms).
Proof.
  revert d. induction ms as [|[x o] ms IH]; intros d; [reflexivity|].
  cbn [applyVotes map]. 
  change (run d (ApplyDelta (fst (x, o)) (snd (x, o)) :: ?l))
    with (run (fst (applyVote d (x, o))) l).
  destruct (applyVote d (x, o)) as [d1 response] eqn:E. cbn [fst].
  rewrite <- IH. now destruct (applyVotes target d1 ms).
Qed.

Lemma handleCommand_run (target : string) (d : DB) (message : string) :
  fst (handleCommand target d message) = run d (message_ops message).
Proof.
  unfold handleCommand, message_ops. cbv zeta.
  destruct (Text.unlinkRegex _) as [[i1 i2]|]; [reflexivity|].
  destruct (Text.linkRegex _) as [[i1 i2]|]; [reflexivity|].
  destruct (Text.totalRegex _) as [i|]; [reflexivity|].
  apply applyVotes_run.
Qed.

Lemma handleMessage_run (active : string -> bool) (d : DB)
    (channel nick message : string) :
  exists ops, fst (handleMessage active d channel nick message) = run d ops.
Proof.
  unfold handleMessage. cbv zeta.
  destruct (_ && _); [now exists []|].
  destruct (Text.helpRegex _); [now exists []|].
  eexists. apply handleCommand_run.
Qed.

Lemma on_event_run (channels : list string) (bot : TallyBot) (e : event) :
  exists ops, bot_db (fst (on_event channels bot e)) = run (bot_db bot) ops.
Proof.
  destruct e as [|c n|c n m]; cbn [on_event fst].
  - now exists [].
  - exists []. now destruct (negb _).
  - destruct (handleMessage_run (bot_active bot) (bot_db bot) c n m) as [ops E].
    exists ops. now destruct (handleMessage _ _ _ _ _).
Qed.

Lemma serve_run (channels : list string) (events : list event) (bot : TallyBot) :
  exists ops, bot_db (fst (serve channels bot events)) = run (bot_db bot) ops.
Proof.
  revert bot. induction events as [|e events IH]; intros bot; [now exists []|].
  cbn [serve]. destruct (on_event_run channels bot e) as [ops1 E1].
  destruct (on_event channels bot e) as [bot1 out1]. cbn [fst] in E1.
  destruct (IH bot1) as [ops2 E2].
  destruct (serve channels bot1 events) as [bot2 out2]. cbn [fst] in *.
  exists (ops1 ++ ops2). now rewrite run_app, <- E1.
Qed.

(** X11.  Whatever events reach the bot, in whatever channels, its
    database is one that the operations of the tally engine produce from
    the empty database; so the two keyed tables hold the same items, each
    once, every group id an item carries lies between 1 and the counter
    and has its row in [groups], and every score is a 64-bit integer. *)
Theorem bot_database_stays_consistent (channels activeChannels : list string)
    (events : list event) :
  let d := bot_db (fst (serve channels (NewTallyBot activeChannels empty_db) events)) in
  reachable d /\
  Sql.items (tallies d) = Sql.items (aliases d) /\
  NoDup (Sql.items (aliases d)) /\
  (forall x g, In (x, g) (aliases d) -> 1 <= g <= groups_seq d /\ In g (groups d)) /\
  (forall x v, In (x, v) (tallies d) -> min_int64 <= v <= max_int64).
Proof.
  cbv zeta.
  destruct (serve_run channels events (NewTallyBot activeChannels empty_db)) as [ops E].
  cbn [NewTallyBot bot_db] in E. rewrite E.
  pose proof (wf_run ops empty_db wf_empty) as W.
  pose proof (groups_ok_run ops empty_db wf_empty groups_ok_empty) as G.
  pose proof (scores_in_range_run ops empty_db wf_empty scores_in_range_empty) as S.
  split; [now exists ops|].
  split; [apply (wf_items _ W)|].
  split; [apply (wf_nodup _ W)|].
  split.
  - intros x g H. split; [now apply (in_aliases_bound _ x)|].
    apply (live_rows _ G). unfold referenced.
    change g with (snd (x, g)). now apply in_map.
  - intros x v H. apply in_int64_iff. now apply (S x).
Qed.

Lemma fold_set_active (l : list string) (m : string -> bool) (c : string) :
  fold_left set_active l m c = m c || existsb (String.eqb c) l.
Proof.
  revert m. induction l as [|ch l IH]; intros m; cbn [fold_left existsb].
  - now rewrite orb_false_r.
  - rewrite IH. unfold set_active.
    destruct (String.eqb c ch); [now rewrite orb_true_r | reflexivity].
Qed.

Lemma on_event_active (channels : list string) (bot : TallyBot) (e : event) (c : string) :
  bot_active (fst (on_event channels bot e)) c = bot_active bot c || invited c e.
Proof.
  destruct e as [|ch n|ch n m]; cbn [on_event fst invited].
  - now rewrite orb_false_r.
  - destruct (bot_active bot ch) eqn:A; cbn [negb bot_active]; unfold set_active.
    + destruct (String.eqb_spec c ch) as [->|_];
        [now rewrite A | now rewrite orb_false_r].
    + destruct (String.eqb c ch); [now rewrite orb_true_r | now rewrite orb_false_r].
  - destruct (handleMessage _ _ _ _ _). cbn [fst bot_active]. now rewrite orb_false_r.
Qed.

(** X12.  Where the bot answers.  The map [NewTallyBot] builds is true
    exactly on the channels of the configured list; along a session a
    channel is active when it was active at the start or an [INVITE] to
    it has come since, so a channel never stops being active; and a
    message in a channel (a target starting with [#]) that is not active
    gets no response and changes neither the database nor the map,
    whatever the message says. *)
Theorem bot_answers_in_active_channels (channels activeChannels : list string)
    (bot : TallyBot) (events : list event) (c nick message : string) :
  (activeMap activeChannels c = true <-> In c activeChannels) /\
  bot_active (fst (serve channels bot events)) c
    = bot_active bot c || existsb (invited c) events /\
  (Text.HasPrefix c "#" = true -> bot_active bot c = false ->
     on_event channels bot (Privmsg c nick message) = (bot, [])).
Proof.
  split; [|split].
  - unfold activeMap. rewrite fold_set_active. cbn [orb].
    rewrite existsb_exists. split.
    + intros (y & I & E). apply String.eqb_eq in E. now subst.
    + intros I. exists c. split; [assumption | apply String.eqb_refl].
  - revert bot. induction events as [|e events IH]; intros bot.
    + cbn. now rewrite orb_false_r.
    + cbn [serve existsb]. pose proof (on_event_active channels bot e c) as A.
      destruct (on_event channels bot e) as [bot1 out1]. cbn [fst] in A.
      specialize (IH bot1). destruct (serve channels bot1 events) as [bot2 out2].
      cbn [fst] in *. now rewrite IH, A, orb_assoc.
  - intros P A. cbn [on_event]. unfold handleMessage. rewrite P, A.
    cbn [negb andb map]. now destruct bot.
Qed.

Lemma applyVotes_out (target : string) (ms : list (string * string)) (d : DB) :
  Forall (fun r => fst r = target) (snd (applyVotes target d ms)) /\
  List.length (snd (applyVotes target d ms)) = List.length ms.
Proof.
  revert d. induction ms as [|m ms IH]; intros d; cbn [applyVotes].
  - split; [constructor | reflexivity].
  - destruct (applyVote d m) as [d1 response]. specialize (IH d1).
    destruct (applyVotes target d1 ms) as [d2 out]. cbn [snd] in *.
    destruct IH as [F L]. split; [now constructor | cbn; now rewrite L].
Qed.

Lemma handleCommand_out (target : string) (d : DB) (message : string) :
  Forall (fun r => fst r = target) (snd (handleCommand target d message)) /\
  List.length (snd (handleCommand target d message)) = List.length (message_ops message).
Proof.
  unfold handleCommand, message_ops. cbv zeta.
  destruct (Text.unlinkRegex _) as [[i1 i2]|];
    [split; [now repeat constructor | reflexivity]|].
  destruct (Text.linkRegex _) as [[i1 i2]|];
    [split; [now repeat constructor | reflexivity]|].
  destruct (Text.totalRegex _) as [i|];
    [split; [now repeat constructor | reflexivity]|].
  rewrite length_map. apply applyVotes_out.
Qed.

(** X13.  What the bot sends for one message.  Every response goes to
    the channel the message came from (in the single-channel variant, to
    the configured channel, wherever the message came from).  An ASCII
    message that is let through and is not [!help] gets one response per
    operation it stands for: one for a command line, one for each vote
    of any other line, none when there is neither; [!help] gets one. *)
Theorem responses_go_to_the_channel (active : string -> bool) (d : DB)
    (channel nick message bot_channel : string) :
  Forall (fun r => fst r = channel)
         (snd (handleMessage active d channel nick message)) /\
  Forall (fun r => fst r = bot_channel)
         (snd (SingleChannel.handleMessage bot_channel d nick message)) /\
  (ascii_text message = true ->
     List.length (snd (SingleChannel.handleMessage bot_channel d nick message))
     = List.length (message_ops (Text.TrimSpace message))) /\
  (ascii_text message = true -> accepted active channel ->
     List.length (snd (handleMessage active d channel nick message))
     = if Text.helpRegex (Text.ToLower (Text.TrimSpace message)) then 1%nat
       else List.length (message_ops (Text.TrimSpace message))).
Proof.
  split; [|split; [|split]].
  - unfold handleMessage. cbv zeta.
    destruct (_ && _); [constructor|].
    destruct (Text.helpRegex _); [now repeat constructor|].
    apply handleCommand_out.
  - apply handleCommand_out.
  - intros _. apply handleCommand_out.
  - intros _ A. rewrite handleMessage_accepted by assumption.
    destruct (Text.helpRegex _); [reflexivity|]. apply handleCommand_out.
Qed.

Lemma responses_go_to_the_channel_witness :
  List.length (snd (handleMessage (fun _ => false) empty_db "nick" "nick"
                                  "a++ b-- !link a b")) = 2%nat.
Proof.
  destruct (responses_go_to_the_channel (fun _ => false) empty_db "nick" "nick"
              "a++ b-- !link a b" "#tallybot") as (_ & _ & _ & H).
  rewrite H; [reflexivity | reflexivity | left; reflexivity].
Defined.

End BotExtras.

(** ** Case and white space *)

Section CaseExtras.

Local Open Scope string_scope.

Lemma lowerChar_idem (c : ascii) : Text.lowerChar (Text.lowerChar c) = Text.lowerChar c.
Proof. destruct c as [[] [] [] [] [] [] [] []]; reflexivity. Qed.

Lemma isSpace_lower (c : ascii) : Text.isSpace (Text.lowerChar c) = Text.isSpace c.
Proof. destruct c as [[] [] [] [] [] [] [] []]; reflexivity. Qed.

Lemma ToLower_idem (s : string) : Text.ToLower (Text.ToLower s) = Text.ToLower s.
Proof.
  induction s as [|c s IH]; cbn [Text.ToLower]; [reflexivity|].
  now rewrite lowerChar_idem, IH.
Qed.

Lemma trimLeft_lower (s : string) :
  Text.trimLeft (Text.ToLower s) = Text.ToLower (Text.trimLeft s).
Proof.
  induction s as [|c s IH]; cbn [Text.ToLower Text.trimLeft]; [reflexivity|].
  rewrite isSpace_lower. destruct (Text.isSpace c); [exact IH | reflexivity].
Qed.

Lemma trimRight_lower (s : string) :
  Text.trimRight (Text.ToLower s) = Text.ToLower (Text.trimRight s).
Proof.
  induction s as [|c s IH]; cbn [Text.ToLower Text.trimRight]; [reflexivity|].
  rewrite IH, isSpace_lower.
  destruct (Text.trimRight s); cbn [Text.ToLower]; [|reflexivity].
  now destruct (Text.isSpace c).
Qed.

Lemma TrimSpace_lower (s : string) :
  Text.TrimSpace (Text.ToLower s) = Text.ToLower (Text.TrimSpace s).
Proof. unfold Text.TrimSpace. now rewrite trimLeft_lower, trimRight_lower. Qed.

Lemma trimRight_idem (s : string) : Text.trimRight (Text.trimRight s) = Text.trimRight s.
Proof.
  induction s as [|c s IH]; [reflexivity|]. cbn [Text.trimRight].
  destruct (Text.trimRight s) as [|k ks] eqn:E.
  - destruct (Text.isSpace c) eqn:Sp; [reflexivity|].
    cbn [Text.trimRight]. now rewrite Sp.
  - cbn [Text.trimRight] in *. rewrite IH. reflexivity.
Qed.

Lemma trimLeft_fixed (s : string) :
  Text.trimLeft s = s -> Text.trimLeft (Text.trimRight s) = Text.trimRight s.
Proof.
  destruct s as [|c s]; [reflexivity|]. cbn [Text.trimLeft Text.trimRight].
  destruct (Text.isSpace c) eqn:Sp.
  - intros E. exfalso.
    assert (L : forall t, (String.length (Text.trimLeft t) <= String.length t)%nat).
    { induction t as [|k t IHt]; cbn [Text.trimLeft String.length]; [lia|].
      destruct (Text.isSpace k); cbn [String.length]; lia. }
    specialize (L s). rewrite E in L. cbn [String.length] in L. lia.
  - intros _. destruct (Text.trimRight s); cbn [Text.trimLeft]; now rewrite Sp.
Qed.

Lemma trimLeft_idem (s : string) : Text.trimLeft (Text.trimLeft s) = Text.trimLeft s.
Proof.
  induction s as [|c s IH]; [reflexivity|]. cbn [Text.trimLeft].
  destruct (Text.isSpace c) eqn:Sp; [exact IH|].
  cbn [Text.trimLeft]. now rewrite Sp.
Qed.

Lemma TrimSpace_idem (s : string) : Text.TrimSpace (Text.TrimSpace s) = Text.TrimSpace s.
Proof.
  unfold Text.TrimSpace.
  rewrite (trimLeft_fixed (Text.trimLeft s) (trimLeft_idem s)).
  apply trimRight_idem.
Qed.

Lemma upvote_scan_lower_matches (s : string) :
  (forall run,
     map lower_match (Text.upvote_scan (Text.ToLower run) (Text.ToLower s)) =
     map lower_match (Text.upvote_scan run s)) /\
  (forall c run,
     map lower_match (Text.upvote_scan (Text.ToLower run) (Text.ToLower (String c s))) =
     map lower_match (Text.upvote_scan run (String c s))).
Proof.
  induction s as [|c0 s [IH1 IH2]].
  - split; [reflexivity|]. intros c run.
    cbn [Text.ToLower Text.upvote_scan].
    rewrite isItemChar_lower, is_empty_lower.
    destruct (Text.isItemChar c); [reflexivity|].
    now destruct (Text.is_empty run).
  - split; [intros run; apply IH2|]. intros c run.
    change (Text.ToLower (String c (String c0 s)))
      with (String (Text.lowerChar c) (String (Text.lowerChar c0) (Text.ToLower s))).
    rewrite !upvote_scan_two.
    rewrite isItemChar_lower, is_empty_lower, !eqb_plus_lower, !eqb_minus_lower.
    change (String (Text.lowerChar c0) (Text.ToLower s))
      with (Text.ToLower (String c0 s)).
    destruct (Text.isItemChar c).
    + change (Text.ToLower run ++ String (Text.lowerChar c) EmptyString)
        with (Text.ToLower run ++ Text.ToLower (String c EmptyString)).
      rewrite <- ToLower_app. apply IH2.
    + destruct (Text.is_empty run); [apply (IH2 c0 EmptyString)|].
      destruct (Ascii.eqb c "+" && Ascii.eqb c0 "+").
      { cbn [map]. unfold lower_match at 1 3. cbn [fst snd].
        rewrite ToLower_idem. f_equal. apply (IH1 EmptyString). }
      destruct (Ascii.eqb c "-" && Ascii.eqb c0 "-").
      { cbn [map]. unfold lower_match at 1 3. cbn [fst snd].
        rewrite ToLower_idem. f_equal. apply (IH1 EmptyString). }
      apply (IH2 c0 EmptyString).
Qed.

Lemma applyVote_lower (d : DB) (m : string * string) :
  applyVote d (lower_match m) = applyVote d m.
Proof. unfold applyVote, lower_match. cbn [fst snd]. now rewrite ToLower_idem. Qed.

Lemma applyVotes_lower (target : string) (ms : list (string * string)) (d : DB) :
  applyVotes target d (map lower_match ms) = applyVotes target d ms.
Proof.
  revert d. induction ms as [|m ms IH]; intros d; [reflexivity|].
  cbn [map applyVotes]. rewrite applyVote_lower.
  destruct (applyVote d m) as [d1 r]. now rewrite IH.
Qed.

Lemma handleCommand_lower (target : string) (d : DB) (message : string) :
  handleCommand target d (Text.ToLower message) = handleCommand target d message.
Proof.
  unfold handleCommand. cbv zeta. rewrite ToLower_idem.
  destruct (Text.unlinkRegex _) as [[i1 i2]|]; [reflexivity|].
  destruct (Text.linkRegex _) as [[i1 i2]|]; [reflexivity|].
  destruct (Text.totalRegex _) as [i|]; [reflexivity|].
  rewrite <- (applyVotes_lower target (Text.upvoteRegex message)).
  rewrite <- (applyVotes_lower target (Text.upvoteRegex (Text.ToLower message))).
  f_equal. unfold Text.upvoteRegex.
  apply (proj1 (upvote_scan_lower_matches message) EmptyString).
Qed.

(** X14.  The bot does not look at the case of an ASCII message or at
    the white space around it: such a message and its lowercased form,
    and the message and its trimmed form, change the database in the same
    way and get the same responses, in both variants of the program. *)
Theorem messages_are_case_insensitive (active : string -> bool) (d : DB)
    (channel nick message bot_channel : string) :
  ascii_text message = true ->
  handleMessage active d channel nick (Text.ToLower message)
    = handleMessage active d channel nick message /\
  handleMessage active d channel nick (Text.TrimSpace message)
    = handleMessage active d channel nick message /\
  SingleChannel.handleMessage bot_channel d nick (Text.ToLower message)
    = SingleChannel.handleMessage bot_channel d nick message /\
  SingleChannel.handleMessage bot_channel d nick (Text.TrimSpace message)
    = SingleChannel.handleMessage bot_channel d nick message.
Proof.
  intros _. unfold handleMessage, SingleChannel.handleMessage. cbv zeta.
  rewrite !TrimSpace_idem, !TrimSpace_lower, !ToLower_idem, !handleCommand_lower.
  repeat split.
Qed.

Lemma messages_are_case_insensitive_witness :
  handleMessage (fun _ => false) one_vote "nick" "nick" "  a++ b-- !total a  "
  = handleMessage (fun _ => false) one_vote "nick" "nick" "  A++ B-- !Total A  ".
Proof.
  apply (messages_are_case_insensitive (fun _ => false) one_vote "nick" "nick"
           "  A++ B-- !Total A  " "#tallybot").
  reflexivity.
Defined.

End CaseExtras.

(** ** What a message can change *)

Section FrameExtras.

Local Open Scope string_scope.

Lemma getScore_applyVote_other (d : DB) (m : string * string) (y : string) :
  y <> Text.ToLower (fst m) -> getScore (fst (applyVote d m)) y = getScore d y.
Proof.
  intros Hy. unfold applyVote. cbn [fst].
  unfold getScore at 1, updateScore. simpl. rewrite select_update_item.
  apply String.eqb_neq in Hy. rewrite Hy. apply getScore_ensure.
Qed.

Lemma getScore_applyVotes_other (target : string) (ms : list (string * string))
    (d : DB) (y : string) :
  ~ In y (map (fun v => Text.ToLower (fst v)) ms) ->
  getScore (fst (applyVotes target d ms)) y = getScore d y.
Proof.
  revert d. induction ms as [|m ms IH]; intros d N; [reflexivity|].
  cbn [applyVotes]. cbn [map In] in N.
  pose proof (getScore_applyVote_other d m y) as E.
  destruct (applyVote d m) as [d1 r]. cbn [fst] in E.
  specialize (IH d1). destruct (applyVotes target d1 ms) as [d2 out].
  cbn [fst] in *. rewrite IH by tauto. apply E. intros ->. tauto.
Qed.

Lemma all_chars_no_sign_item (s : string) :
  all_chars Text.isItemChar s = true -> all_chars no_sign s = true.
Proof.
  induction s as [|c s IH]; cbn [all_chars]; [reflexivity|].
  intros H. apply andb_prop in H. destruct H as [Hc Hs]. rewrite (IH Hs), andb_true_r.
  clear -Hc. destruct c as [[] [] [] [] [] [] [] []]; try reflexivity; discriminate.
Qed.

Lemma no_sign_no_votes (s : string) :
  all_chars no_sign s = true -> Text.upvoteRegex s = [].
Proof.
  intros A. destruct (Text.upvoteRegex s) as [|m l] eqn:E; [reflexivity|].
  exfalso. assert (F : vote_in s m) by (apply upvoteRegex_shape; rewrite E; now left).
  destruct F as (_ & O & pre & post & Es).
  rewrite Es, !all_chars_app in A.
  apply andb_prop in A. destruct A as [_ A].
  apply andb_prop in A. destruct A as [_ A].
  apply andb_prop in A. destruct A as [A _].
  destruct O as [O|O]; rewrite O in A; discriminate.
Qed.

Lemma is_item_no_sign (a : string) : is_item a = true -> all_chars no_sign a = true.
Proof. intros H. apply is_item_iff in H. now apply all_chars_no_sign_item. Qed.

Lemma command_line_no_votes (message : string) :
  Text.unlinkRegex (Text.ToLower message) <> None \/
  Text.linkRegex (Text.ToLower message) <> None \/
  Text.totalRegex (Text.ToLower message) <> None \/
  Text.helpRegex (Text.ToLower message) = true ->
  Text.upvoteRegex message = [].
Proof.
  intros H. apply upvoteRegex_lower_none, no_sign_no_votes.
  destruct H as [H|[H|[H|H]]].
  - destruct (Text.unlinkRegex _) as [[a b]|] eqn:E; [|contradiction].
    apply match_two_items_iff in E. destruct E as (-> & Ia & Ib).
    rewrite !all_chars_app, (is_item_no_sign a Ia), (is_item_no_sign b Ib).
    reflexivity.
  - destruct (Text.linkRegex _) as [[a b]|] eqn:E; [|contradiction].
    apply match_two_items_iff in E. destruct E as (-> & Ia & Ib).
    rewrite !all_chars_app, (is_item_no_sign a Ia), (is_item_no_sign b Ib).
    reflexivity.
  - destruct (Text.totalRegex _) as [a|] eqn:E; [|contradiction].
    apply match_item_iff in E. destruct E as (-> & Ia).
    rewrite !all_chars_app, (is_item_no_sign a Ia). reflexivity.
  - apply String.eqb_eq in H. rewrite H. reflexivity.
Qed.

Lemma getScore_handleCommand (target : string) (d : DB) (message y : string) :
  ~ In y (map (fun v => Text.ToLower (fst v)) (Text.upvoteRegex message)) ->
  getScore (fst (handleCommand target d message)) y = getScore d y.
Proof.
  intros N. unfold handleCommand. cbv zeta.
  destruct (Text.unlinkRegex _) as [[i1 i2]|]; [apply getScore_unlink|].
  destruct (Text.linkRegex _) as [[i1 i2]|]; [apply getScore_link|].
  destruct (Text.totalRegex _) as [i|]; [reflexivity|].
  now apply getScore_applyVotes_other.
Qed.

(** X15.  Only votes change scores.  After any message the score of an
    item is what it was unless the trimmed message holds a vote for it
    (its name compared lowercased); and a line that matches [!help],
    [!link], [!unlink] or [!total] holds no vote, so it changes no score
    at all. *)
Theorem only_votes_change_scores (active : string -> bool) (d : DB)
    (channel nick message y : string) :
  let trimmed := Text.TrimSpace message in
  let d' := fst (handleMessage active d channel nick message) in
  (~ In y (map (fun v => Text.ToLower (fst v)) (Text.upvoteRegex trimmed)) ->
     getScore d' y = getScore d y) /\
  (Text.unlinkRegex (Text.ToLower trimmed) <> None \/
   Text.linkRegex (Text.ToLower trimmed) <> None \/
   Text.totalRegex (Text.ToLower trimmed) <> None \/
   Text.helpRegex (Text.ToLower trimmed) = true ->
     Text.upvoteRegex trimmed = [] /\ forall z, getScore d' z = getScore d z).
Proof.
  cbv zeta.
  assert (F : forall z,
             ~ In z (map (fun v => Text.ToLower (fst v))
                         (Text.upvoteRegex (Text.TrimSpace message))) ->
             getScore (fst (handleMessage active d channel nick message)) z
             = getScore d z).
  { intros z N. unfold handleMessage. cbv zeta.
    destruct (_ && _); [reflexivity|].
    destruct (Text.helpRegex _); [reflexivity|].
    now apply getScore_handleCommand. }
  split; [apply F|]. intros H.
  pose proof (command_line_no_votes _ H) as E. split; [exact E|].
  intros z. apply F. rewrite E. intros [].
Qed.

End FrameExtras.

(** ** The names of the items *)

Section NameExtras.

Local Open Scope string_scope.

Lemma length_ToLower (s : string) : String.length (Text.ToLower s) = String.length s.
Proof. induction s as [|c s IH]; cbn; [reflexivity | now rewrite IH]. Qed.

Lemma append_inj (a a' r r' : string) :
  String.length a = String.length a' -> a ++ r = a' ++ r' -> a = a' /\ r = r'.
Proof.
  revert a'. induction a as [|c a IH]; intros [|c' a'] L E; try discriminate.
  - auto.
  - cbn in L, E. injection L as L. injection E as -> E.
    destruct (IH a' L E) as [-> ->]. auto.
Qed.

Lemma is_item_lower (x : string) : is_item (Text.ToLower x) = is_item x.
Proof.
  unfold is_item. rewrite is_empty_lower. f_equal.
  induction x as [|c x IH]; cbn [Text.ToLower all_chars]; [reflexivity|].
  now rewrite isItemChar_lower, IH.
Qed.

Lemma good_name_lower (x : string) : is_item x = true -> good_name (Text.ToLower x).
Proof.
  intros I. split; [now rewrite is_item_lower | apply ToLower_idem].
Qed.

Lemma two_items_good (cmd message a b : string) :
  Text.match_two_items cmd (Text.ToLower message) = Some (a, b) ->
  good_name a /\ good_name b.
Proof.
  intros E. apply match_two_items_iff in E. destruct E as (E & Ia & Ib).
  pose proof (ToLower_idem message) as L. rewrite E in L.
  rewrite !ToLower_app in L.
  apply append_inj in L; [|apply length_ToLower]. destruct L as [_ L].
  apply append_inj in L; [|apply length_ToLower]. destruct L as [La L].
  apply append_inj in L; [|apply length_ToLower]. destruct L as [_ Lb].
  repeat split; assumption.
Qed.

Lemma one_item_good (cmd message a : string) :
  Text.match_item cmd (Text.ToLower message) = Some a -> good_name a.
Proof.
  intros E. apply match_item_iff in E. destruct E as (E & Ia).
  pose proof (ToLower_idem message) as L. rewrite E in L.
  rewrite !ToLower_app in L.
  apply append_inj in L; [|apply length_ToLower]. destruct L as [_ L].
  split; assumption.
Qed.

Lemma message_ops_good (message : string) : Forall good_op (message_ops message).
Proof.
  unfold message_ops. cbv zeta.
  destruct (Text.unlinkRegex _) as [[a b]|] eqn:U.
  { repeat constructor; apply (two_items_good _ _ _ _ U). }
  destruct (Text.linkRegex _) as [[a b]|] eqn:K.
  { repeat constructor; apply (two_items_good _ _ _ _ K). }
  destruct (Text.totalRegex _) as [a|]; [now repeat constructor|].
  apply Forall_forall. intros o H. apply in_map_iff in H.
  destruct H as (m & <- & I). cbn [good_op].
  destruct (upvoteRegex_shape message m I) as (Im & _).
  now apply good_name_lower.
Qed.

Lemma good_names_step (d : DB) (o : op) :
  wf d -> good_op o ->
  (forall x, created d x -> good_name x) ->
  forall x, created (step d o) x -> good_name x.
Proof.
  intros W G A x. destruct o as [y|y o|a b|a b|y|y]; cbn [step good_op] in *.
  - intros C. apply created_ensure_inv in C; [|assumption].
    destruct C as [C| ->]; auto.
  - destruct (applyVote_db d (y, o)) as [v ->]. cbn [fst].
    unfold created, updateScore. simpl. rewrite items_update_item.
    intros C. apply created_ensure_inv in C; [|assumption].
    destruct C as [C| ->]; auto.
  - rewrite created_link, created_ensured_iff by assumption.
    intros [C|[->| ->]]; [auto | apply G | apply G].
  - rewrite created_unlink, created_ensured_iff by assumption.
    intros [C|[->| ->]]; [auto | apply G | apply G].
  - apply A.
  - apply A.
Qed.

Lemma good_names_run (ops : list op) (d : DB) :
  wf d -> Forall good_op ops ->
  (forall x, created d x -> good_name x) ->
  forall x, created (run d ops) x -> good_name x.
Proof.
  revert d. induction ops as [|o ops IH]; intros d W F A; [exact A|].
  inversion F as [|? ? Go Gops]; subst.
  apply (IH (step d o)); [now apply wf_step | assumption|].
  now apply good_names_step.
Qed.

Lemma on_event_good (channels : list string) (bot : TallyBot) (e : event) :
  exists ops, Forall good_op ops /\
              bot_db (fst (on_event channels bot e)) = run (bot_db bot) ops.
Proof.
  destruct e as [|c n|c n m]; cbn [on_event fst].
  - exists []. now split.
  - exists []. split; [constructor | now destruct (negb _)].
  - assert (H : exists ops, Forall good_op ops /\
                  fst (handleMessage (bot_active bot) (bot_db bot) c n m)
                  = run (bot_db bot) ops).
    { unfold handleMessage. cbv zeta.
      destruct (_ && _); [exists []; now split|].
      destruct (Text.helpRegex _); [exists []; now split|].
      exists (message_ops (Text.TrimSpace m)).
      split; [apply message_ops_good | apply handleCommand_run]. }
    destruct H as (ops & G & E). exists ops. split; [assumption|].
    now destruct (handleMessage _ _ _ _ _).
Qed.

Lemma serve_good (channels : list string) (events : list event) (bot : TallyBot) :
  exists ops, Forall good_op ops /\
              bot_db (fst (serve channels bot events)) = run (bot_db bot) ops.
Proof.
  revert bot. induction events as [|e events IH]; intros bot.
  - exists []. now split.
  - cbn [serve]. destruct (on_event_good channels bot e) as (ops1 & G1 & E1).
    destruct (on_event channels bot e) as [bot1 out1]. cbn [fst] in E1.
    destruct (IH bot1) as (ops2 & G2 & E2).
    destruct (serve channels bot1 events) as [bot2 out2]. cbn [fst] in *.
    exists (ops1 ++ ops2)%list. split; [now apply Forall_app|].
    now rewrite run_app, <- E1.
Qed.

(** X16.  Every item the bot ever stores, whatever messages it is sent,
    has a name of one or more characters of [[\w\.]] with no upper-case
    letter: the names come from the lowercased command line or are
    lowercased by the vote loop. *)
Theorem stored_names_are_lowercase_items (channels activeChannels : list string)
    (events : list event) (x : string) :
  let d := bot_db (fst (serve channels (NewTallyBot activeChannels empty_db) events)) in
  created d x -> is_item x = true /\ Text.ToLower x = x.
Proof.
  cbv zeta.
  destruct (serve_good channels events (NewTallyBot activeChannels empty_db))
    as (ops & G & E).
  cbn [NewTallyBot bot_db] in E. rewrite E.
  apply (good_names_run ops empty_db wf_empty G). intros y [].
Qed.

Lemma stored_names_are_lowercase_items_witness :
  is_item "alice.b" = true /\ Text.ToLower "alice.b" = "alice.b".
Proof.
  apply (stored_names_are_lowercase_items [] [] [Privmsg "me" "n" "Alice.B++"]).
  vm_compute. tauto.
Defined.

End NameExtras.

(** ** Configuration *)

Section ConfigExtras.

Local Open Scope string_scope.






Lemma scan_keeps_active (lines : list string) (c : Config) :
  (forall line v, In line lines -> key_value line <> Some ("active_channels", v)) ->
  ActiveChannels (fst (scan_lines c lines)) = ActiveChannels c.
Proof.
  revert c. induction lines as [|line lines IH]; intros c N; [reflexivity|].
  cbn [scan_lines].
  assert (N' : forall l v, In l lines -> key_value l <> Some ("active_channels", v))
    by (intros l v H; apply N; now right).
  destruct (key_value line) as [[k v]|] eqn:E; [|now apply IH].
  assert (A : ActiveChannels (fst (assign c k v)) = ActiveChannels c).
  { unfold assign.
    destruct (String.eqb k "nickname"); [reflexivity|].
    destruct (String.eqb k "server"); [reflexivity|].
    destruct (String.eqb k "channels"); [reflexivity|].
    destruct (String.eqb_spec k "active_channels") as [->|_];
      [exfalso; apply (N line v); [now left | exact E]|].
    destruct (String.eqb k "use_tls"); reflexivity. }
  destruct (assign c k v) as [c1 p1]. cbn [fst] in A.
  specialize (IH c1 N'). destruct (scan_lines c1 lines) as [c2 p2].
  cbn [fst] in *. congruence.
Qed.

Lemma scan_keeps_unset (lines : list string) (c : Config) :
  (last_value "nickname" lines = None ->
     Nickname (fst (scan_lines c lines)) = Nickname c) /\
  (last_value "channels" lines = None ->
     Channels (fst (scan_lines c lines)) = Channels c).
Proof.
  revert c. induction lines as [|line lines IH]; intros c; [now split|].
  cbn [scan_lines last_value].
  destruct (key_value line) as [[k v]|].
  - pose proof (IH (fst (assign c k v))) as [I1 I2].
    destruct (assign c k v) as [c1 p1] eqn:A. cbn [fst] in *.
    destruct (scan_lines c1 lines) as [c2 p2]. cbn [fst] in *.
    unfold assign in A.
    split; intros L.
    + destruct (last_value "nickname" lines); [discriminate|].
      rewrite (I1 eq_refl).
      destruct (String.eqb k "nickname"); [discriminate|].
      repeat (destruct (String.eqb k _); [now injection A as <- _|]).
      now injection A as <- _.
    + destruct (last_value "channels" lines); [discriminate|].
      rewrite (I2 eq_refl).
      destruct (String.eqb k "nickname"); [now injection A as <- _|].
      destruct (String.eqb k "server"); [now injection A as <- _|].
      destruct (String.eqb k "channels"); [discriminate|].
      repeat (destruct (String.eqb k _); [now injection A as <- _|]).
      now injection A as <- _.
  - destruct (IH c) as [I1 I2].
    split; intros L.
    + destruct (last_value "nickname" lines); [discriminate | now apply I1].
    + destruct (last_value "channels" lines); [discriminate | now apply I2].
Qed.

(** X18.  What [readConfig] returns.  The file of the current directory
    is read when it opens, the one of the home directory only otherwise.
    There is no error exactly when the file read was scanned to its end
    without error.  For an ASCII file: after an error of the scanner the
    error is returned and no default is filled in (without a [nickname]
    line the nickname is empty, without a [channels] line there is no
    channel); without error the nickname and the server are not empty,
    there is at least one channel and at least one active channel, and a
    file with no [active_channels] line makes the active channels the
    channels. *)
Theorem readConfig_fills_every_field (here home : option scanned)
    (lines : list string) (err : string) :
  (forall f, here = Some f -> readConfig here home = readConfig (Some f) None) /\
  (here = None -> readConfig here home = readConfig home None) /\
  (snd (fst (readConfig here home)) = None <->
   exists ls, here = Some (ls, None) \/ (here = None /\ home = Some (ls, None))) /\
  (Forall (fun l => ascii_text l = true) lines ->
   (let r := readConfig (Some (lines, Some err)) home in
    snd (fst r) = Some err /\
    (last_value "nickname" lines = None -> Nickname (fst (fst r)) = "") /\
    (last_value "channels" lines = None -> Channels (fst (fst r)) = [])) /\
   (let c := fst (fst (readConfig (Some (lines, None)) home)) in
    Nickname c <> "" /\ Server c <> "" /\ Channels c <> [] /\ ActiveChannels c <> [] /\
    ((forall line v, In line lines -> key_value line <> Some ("active_channels", v)) ->
     ActiveChannels c = Channels c))).
Proof.
  split; [intros f ->; reflexivity|].
  split; [intros ->; now destruct home|].
  split.
  { unfold readConfig.
    destruct here as [[ls [e|]]|]; [| |destruct home as [[ls [e|]]|]];
      try destruct (scan_lines zero_config ls); cbn.
    - split; [discriminate | intros (l0 & [H|[H _]]); discriminate].
    - split; [intros _; exists ls; now left | reflexivity].
    - split; [discriminate | intros (l0 & [H|[_ H]]); discriminate].
    - split; [intros _; exists ls; now right | reflexivity].
    - split; [discriminate | intros (l0 & [H|[_ H]]); discriminate]. }
  intros _. cbv zeta. unfold readConfig.
  pose proof (scan_keeps_active lines zero_config) as K.
  pose proof (scan_keeps_unset lines zero_config) as [U1 U2].
  destruct (scan_lines zero_config lines) as [c p]. cbn [fst snd] in *.
  split; [split; [reflexivity | split; assumption]|].
  unfold with_defaults. cbn [Nickname Server Channels ActiveChannels].
  split; [destruct (String.eqb_spec (Nickname c) ""); [discriminate | assumption]|].
  split; [destruct (String.eqb_spec (Server c) ""); [discriminate | assumption]|].
  assert (C : (if Nat.eqb (List.length (Channels c)) 0 then ["#tallybot"] else Channels c)
              <> []).
  { destruct (Channels c); cbn; discriminate. }
  split; [exact C|]. split.
  - destruct (ActiveChannels c) eqn:A; cbn [List.length Nat.eqb]; [exact C | discriminate].
  - intros N. rewrite (K N). reflexivity.
Qed.

Lemma Split_nonempty (s : string) (sep : ascii) : Split s sep <> [].
Proof.
  destruct s as [|c s]; cbn [Split]; [discriminate|].
  destruct (Ascii.eqb c sep); [discriminate|].
  destruct (Split s sep); discriminate.
Qed.

Lemma concat_cons (sep f : string) (fs : list string) :
  fs <> [] -> String.concat sep (f :: fs) = f ++ sep ++ String.concat sep fs.
Proof. destruct fs; [contradiction | reflexivity]. Qed.

Lemma Join_Split (s : string) (sep : ascii) :
  Text.Join (Split s sep) (String sep "") = s.
Proof.
  unfold Text.Join. induction s as [|c s IH]; [reflexivity|].
  cbn [Split]. destruct (Ascii.eqb_spec c sep) as [->|N].
  - rewrite concat_cons by apply Split_nonempty. cbn [append] in *. now rewrite IH.
  - pose proof (Split_nonempty s sep) as NE.
    destruct (Split s sep) as [|f fs]; [contradiction|].
    destruct fs as [|g gs].
    + cbn in *. now rewrite IH.
    + rewrite concat_cons in * by discriminate. cbn [append] in *. now rewrite IH.
Qed.

Lemma Split_fields_without (s : string) (sep : ascii) :
  Forall (fun f => without sep f = true) (Split s sep).
Proof.
  induction s as [|c s IH]; cbn [Split]; [now repeat constructor|].
  destruct (Ascii.eqb c sep) eqn:E; [now constructor|].
  pose proof (Split_nonempty s sep) as NE.
  destruct (Split s sep) as [|f fs]; [contradiction|].
  inversion IH as [|? ? Hf Hfs]; subst. constructor; [|assumption].
  unfold without in *. cbn [all_chars]. now rewrite E, Hf.
Qed.

Lemma Split_field (f rest : string) (sep : ascii) :
  without sep f = true ->
  Split (f ++ String sep rest) sep = f :: Split rest sep.
Proof.
  intros W. induction f as [|c f IH]; cbn [append Split].
  - now rewrite Ascii.eqb_refl.
  - unfold without in W. cbn [all_chars] in W. apply andb_prop in W.
    destruct W as [Wc Wf]. apply negb_true_iff in Wc. rewrite Wc.
    now rewrite (IH Wf).
Qed.

Lemma Split_last (f : string) (sep : ascii) :
  without sep f = true -> Split f sep = [f].
Proof.
  intros W. induction f as [|c f IH]; [reflexivity|]. cbn [Split].
  unfold without in W. cbn [all_chars] in W. apply andb_prop in W.
  destruct W as [Wc Wf]. apply negb_true_iff in Wc. rewrite Wc.
  now rewrite (IH Wf).
Qed.

Lemma Split_Join (fields : list string) (sep : ascii) :
  fields <> [] -> Forall (fun f => without sep f = true) fields ->
  Split (Text.Join fields (String sep "")) sep = fields.
Proof.
  unfold Text.Join. induction fields as [|f fs IH]; [contradiction|].
  intros _ F. inversion F as [|? ? Wf Wfs]; subst.
  destruct fs as [|g gs]; [now apply Split_last|].
  rewrite concat_cons by discriminate. cbn [append].
  rewrite Split_field by assumption. f_equal. apply IH; [discriminate | assumption].
Qed.

Ltac by_last_value lines :=
  match goal with
  | |- context [last_value ?key lines] => now destruct (last_value key lines)
  end.

Lemma scan_last_value (lines : list string) (c : Config) :
  let c' := fst (scan_lines c lines) in
  Nickname c' = match last_value "nickname" lines with
                | Some v => v | None => Nickname c end /\
  Server c' = match last_value "server" lines with
              | Some v => v | None => Server c end /\
  Channels c' = match last_value "channels" lines with
                | Some v => Split v "," | None => Channels c end /\
  ActiveChannels c' = match last_value "active_channels" lines with
                      | Some v => Split v "," | None => ActiveChannels c end /\
  UseTLS c' = match last_value "use_tls" lines with
              | Some v => String.eqb (Text.ToLower v) "true"
                          || String.eqb (Text.ToLower v) "yes"
                          || String.eqb (Text.ToLower v) "1"
              | None => UseTLS c end.
Proof.
  cbv zeta. revert c. induction lines as [|line lines IH]; intros c.
  - cbn. auto.
  - cbn [scan_lines last_value].
    destruct (key_value line) as [[k v]|].
    + pose proof (IH (fst (assign c k v))) as (I1 & I2 & I3 & I4 & I5).
      destruct (assign c k v) as [c1 p1] eqn:A. cbn [fst] in *.
      destruct (scan_lines c1 lines) as [c2 p2]. cbn [fst] in *.
      rewrite I1, I2, I3, I4, I5. clear I1 I2 I3 I4 I5.
      unfold assign in A.
      destruct (String.eqb_spec k "nickname") as [->|N1].
      { injection A as <- _. cbn.
        repeat split; by_last_value lines. }
      destruct (String.eqb_spec k "server") as [->|N2].
      { injection A as <- _. cbn.
        repeat split; by_last_value lines. }
      destruct (String.eqb_spec k "channels") as [->|N3].
      { injection A as <- _. cbn.
        repeat split; by_last_value lines. }
      destruct (String.eqb_spec k "active_channels") as [->|N4].
      { injection A as <- _. cbn.
        repeat split; by_last_value lines. }
      destruct (String.eqb_spec k "use_tls") as [->|N5].
      { injection A as <- _. cbn.
        repeat split; by_last_value lines. }
      injection A as <- _.
      repeat split; by_last_value lines.
    + specialize (IH c). destruct IH as (I1 & I2 & I3 & I4 & I5).
      rewrite I1, I2, I3, I4, I5.
      repeat split; by_last_value lines.
Qed.

(** X19.  The last line wins, key by key.  Each field of the
    configuration read from an ASCII file that is scanned without error
    is decided by the last line of the file that has its key, whatever
    comes before it and whatever lines for other keys come after it: the
    nickname and the server are its value, or the default when there is
    no such line or the value is empty; the channels are the fields of
    its value between the commas, untrimmed, so that joining them with
    commas gives the value back and an empty value is one channel with
    the empty name and not the default; the active channels likewise,
    and the channels when there is no such line; TLS is on when its
    value, lowercased, is [true], [yes] or [1]. *)
Theorem readConfig_last_line_wins (lines : list string) (home : option scanned) :
  Forall (fun l => ascii_text l = true) lines ->
  let c := fst (fst (readConfig (Some (lines, None)) home)) in
  Nickname c = match last_value "nickname" lines with
               | Some v => if String.eqb v "" then "TallyBot" else v
               | None => "TallyBot" end /\
  Server c = match last_value "server" lines with
             | Some v => if String.eqb v "" then "irc.libera.chat:6667" else v
             | None => "irc.libera.chat:6667" end /\
  Channels c = match last_value "channels" lines with
               | Some v => Split v ","
               | None => ["#tallybot"] end /\
  ActiveChannels c = match last_value "active_channels" lines with
                     | Some v => Split v ","
                     | None => Channels c end /\
  UseTLS c = match last_value "use_tls" lines with
             | Some v => String.eqb (Text.ToLower v) "true"
                         || String.eqb (Text.ToLower v) "yes"
                         || String.eqb (Text.ToLower v) "1"
             | None => false end /\
  (forall v, last_value "channels" lines = Some v ->
     Text.Join (Channels c) "," = v /\ (v = "" -> Channels c = [""])).
Proof.
  intros _. cbv zeta. unfold readConfig.
  pose proof (scan_last_value lines zero_config) as (I1 & I2 & I3 & I4 & I5).
  destruct (scan_lines zero_config lines) as [c p]. cbn [fst] in *.
  unfold with_defaults. cbn [Nickname Server Channels ActiveChannels UseTLS].
  rewrite I1, I2, I3, I4, I5. cbn [zero_config Nickname Server Channels ActiveChannels UseTLS].
  assert (L : forall v, Nat.eqb (List.length (Split v ",")) 0 = false).
  { intros v. pose proof (Split_nonempty v ","). now destruct (Split v ","). }
  split; [now destruct (last_value "nickname" lines)|].
  split; [now destruct (last_value "server" lines)|].
  split; [destruct (last_value "channels" lines); [now rewrite L | reflexivity]|].
  split.
  { destruct (last_value "active_channels" lines); [now rewrite L | reflexivity]. }
  split; [reflexivity|].
  intros v E. rewrite E, L. split; [apply Join_Split | intros ->; reflexivity].
Qed.

Lemma readConfig_last_line_wins_witness :
  Channels (fst (fst (readConfig
     (Some (["channels=#a"; "nickname=x"; "channels="; "nickname=Bob"], None)) None)))
  = [""] /\
  Nickname (fst (fst (readConfig
     (Some (["channels=#a"; "nickname=x"; "channels="; "nickname=Bob"], None)) None)))
  = "Bob".
Proof.
  assert (A : Forall (fun l => ascii_text l = true)
                     ["channels=#a"; "nickname=x"; "channels="; "nickname=Bob"])
    by repeat constructor.
  destruct (readConfig_last_line_wins _ None A) as (N & _ & C & _).
  split; [exact C | exact N].
Defined.

Lemma length_trimLeft (s : string) :
  (String.length (Text.trimLeft s) <= String.length s)%nat.
Proof.
  induction s as [|c s IH]; cbn [Text.trimLeft String.length]; [lia|].
  destruct (Text.isSpace c); cbn [String.length]; lia.
Qed.

Lemma length_trimRight (s : string) :
  (String.length (Text.trimRight s) <= String.length s)%nat.
Proof.
  induction s as [|c s IH]; cbn [Text.trimRight String.length]; [lia|].
  destruct (Text.trimRight s); [destruct (Text.isSpace c)|]; cbn [String.length] in *; lia.
Qed.

Lemma trimLeft_same_length (s : string) :
  String.length (Text.trimLeft s) = String.length s -> Text.trimLeft s = s.
Proof.
  destruct s as [|c s]; [reflexivity|]. cbn [Text.trimLeft].
  destruct (Text.isSpace c); [|reflexivity].
  pose proof (length_trimLeft s). cbn [String.length]. lia.
Qed.

Lemma trimmed_both (s : string) :
  Text.TrimSpace s = s -> Text.trimLeft s = s /\ Text.trimRight s = s.
Proof.
  unfold Text.TrimSpace. intros E.
  assert (L : Text.trimLeft s = s).
  { apply trimLeft_same_length. pose proof (length_trimLeft s).
    pose proof (length_trimRight (Text.trimLeft s)). rewrite E in *. lia. }
  split; [exact L|]. now rewrite L in E.
Qed.

Lemma trimRight_keeps (a b : string) :
  b <> "" -> Text.trimRight b = b -> Text.trimRight (a ++ b) = a ++ b.
Proof.
  intros N E. induction a as [|c a IH]; [exact E|].
  cbn [append Text.trimRight]. rewrite IH.
  destruct (a ++ b) eqn:D; [|reflexivity].
  destruct a; [contradiction | discriminate].
Qed.

Lemma trimLeft_keeps (a b : string) (c : ascii) :
  Text.isSpace c = false -> Text.trimLeft a = a ->
  Text.trimLeft (a ++ String c b) = a ++ String c b.
Proof.
  intros Sp E. destruct a as [|k a]; cbn [append Text.trimLeft] in *.
  - now rewrite Sp.
  - destruct (Text.isSpace k); [|reflexivity].
    pose proof (length_trimLeft a) as L. rewrite E in L. cbn [String.length] in L. lia.
Qed.

Lemma SplitN2_first (key value : string) (sep : ascii) :
  without sep key = true ->
  SplitN2 (key ++ String sep value) sep = Some (key, value).
Proof.
  intros W. induction key as [|c key IH]; cbn [append SplitN2].
  - now rewrite Ascii.eqb_refl.
  - unfold without in W. cbn [all_chars] in W. apply andb_prop in W.
    destruct W as [Wc Wk]. apply negb_true_iff in Wc. rewrite Wc.
    now rewrite (IH Wk).
Qed.

(** X20.  A configuration line read back.  An ASCII key without [=] and
    without white space around it that does not start with [#], then
    [=], then an ASCII value without white space around it, is read as
    that key and that value; the line is cut at the first [=], so the
    value may hold further ones. *)
Theorem key_value_round_trip (key value : string) :
  ascii_text key = true -> ascii_text value = true ->
  Text.TrimSpace key = key -> Text.TrimSpace value = value ->
  without "=" key = true -> Text.HasPrefix key "#" = false ->
  key_value (key ++ "=" ++ value) = Some (key, value).
Proof.
  intros _ _ Tk Tv W P. destruct (trimmed_both key Tk) as [Lk _].
  destruct (trimmed_both value Tv) as [_ Rv].
  assert (T : Text.TrimSpace (key ++ "=" ++ value) = key ++ "=" ++ value).
  { unfold Text.TrimSpace. cbn [append].
    rewrite (trimLeft_keeps key value "=" eq_refl Lk).
    apply trimRight_keeps; [discriminate|].
    cbn [Text.trimRight]. rewrite Rv. now destruct value. }
  unfold key_value. cbv zeta. rewrite T.
  assert (E : Text.is_empty (key ++ "=" ++ value) = false) by now destruct key.
  assert (H : Text.HasPrefix (key ++ "=" ++ value) "#" = false).
  { destruct key as [|c key]; [reflexivity|].
    unfold Text.HasPrefix in *. cbn [append String.prefix] in *.
    destruct (Ascii.ascii_dec "#" c); [|reflexivity].
    destruct key; [exact P | exact P]. }
  rewrite E, H. cbn [orb append].
  rewrite (SplitN2_first key value "=" W). now rewrite Tk, Tv.
Qed.

Lemma key_value_round_trip_witness :
  key_value "server=irc://host/?a=b" = Some ("server", "irc://host/?a=b").
Proof.
  apply (key_value_round_trip "server" "irc://host/?a=b"); reflexivity.
Defined.

End ConfigExtras.

(** ** Life cycle of items and groups *)

Section LifeCycleExtras.

Lemma created_step_iff (d : DB) (o : op) (x : string) :
  wf d -> (created (step d o) x <-> created d x \/ In x (op_creates o)).
Proof.
  intros W. destruct o as [y|y o|a b|a b|y|y]; cbn [step op_creates In].
  - split.
    + intros C. apply created_ensure_inv in C; [|assumption].
      destruct C as [C| ->]; auto.
    + intros [C|[<-|[]]];
        [now apply created_ensure_mono | now apply created_ensure_self].
  - destruct (applyVote_db d (y, o)) as [v ->]. cbn [fst].
    unfold created at 1, updateScore. simpl. rewrite items_update_item.
    fold (created (ensureItemExists d (Text.ToLower y)) x). split.
    + intros C. apply created_ensure_inv in C; [|assumption].
      destruct C as [C| ->]; auto.
    + intros [C|[<-|[]]];
        [now apply created_ensure_mono | now apply created_ensure_self].
  - rewrite created_link, created_ensured_iff by assumption.
    split; [intros [C|[->| ->]]; auto | intros [C|[<-|[<-|[]]]]; auto].
  - rewrite created_unlink, created_ensured_iff by assumption.
    split; [intros [C|[->| ->]]; auto | intros [C|[<-|[<-|[]]]]; auto].
  - tauto.
  - tauto.
Qed.

(** X21.  Items are made by being named and are never deleted.  After
    further operations on a reachable database an item exists exactly
    when it existed before or one of the operations is an ensure, a vote,
    a link or an unlink that names it (a vote names the lowercased item);
    the two queries never create an item. *)
Theorem items_exist_once_named (ops more : list op) (x : string) :
  let d := run empty_db ops in
  created (run d more) x <->
  created d x \/ Exists (fun o => In x (op_creates o)) more.
Proof.
  cbv zeta. pose proof (wf_run ops empty_db wf_empty) as W.
  set (d := run empty_db ops) in *. clearbody d.
  revert d W. induction more as [|o more IH]; intros d W.
  - cbn. split; [auto | intros [C|E]; [assumption | inversion E]].
  - change (run d (o :: more)) with (run (step d o) more).
    rewrite (IH (step d o) (wf_step d o W)), (created_step_iff d o x W).
    rewrite Exists_cons. tauto.
Qed.

Lemma update_value_absent (new old : Z) (t : Sql.table) :
  (forall k, ~ In (k, old) t) -> Sql.update_value new old t = t.
Proof.
  induction t as [|[k v] t IH]; intros N; [reflexivity|]. cbn.
  destruct (Z.eqb_spec v old) as [->|_]; [exfalso; apply (N k); now left|].
  f_equal. apply IH. intros k0 H. apply (N k0). now right.
Qed.

Lemma update_back (b : string) (g fresh : Z) (t : Sql.table) :
  NoDup (Sql.items t) -> Sql.select_item b t = Some g ->
  (forall k, ~ In (k, fresh) t) ->
  Sql.update_value g fresh (Sql.update_item b fresh t) = t.
Proof.
  induction t as [|[k v] t IH]; cbn [Sql.select_item]; [discriminate|].
  intros N S F. inversion N as [|? ? Hnotin N']; subst.
  assert (F' : forall k0, ~ In (k0, fresh) t) by (intros k0 H; apply (F k0); now right).
  cbn [Sql.update_item map fst]. destruct (String.eqb_spec k b) as [->|Hne].
  - injection S as ->. cbn [Sql.update_value map snd fst]. rewrite Z.eqb_refl.
    f_equal. fold (Sql.update_item b fresh t).
    rewrite (update_item_absent b fresh t Hnotin).
    now apply update_value_absent.
  - cbn [Sql.update_value map snd fst].
    destruct (Z.eqb_spec v fresh) as [->|_]; [exfalso; apply (F k); now left|].
    f_equal. now apply IH.
Qed.

Lemma filter_keeps_all (fresh : Z) (l : list Z) :
  ~ In fresh l -> filter (fun h => negb (h =? fresh)) l = l.
Proof.
  induction l as [|h l IH]; intros N; [reflexivity|]. cbn.
  destruct (Z.eqb_spec h fresh) as [->|_]; [exfalso; apply N; now left|].
  cbn. f_equal. apply IH. intros H. apply N. now right.
Qed.

(** X22.  [linkItems a b] undoes [unlinkItems a b].  When two different
    items of one group are unlinked and then linked again, on a reachable
    database, the three tables are exactly what they were: every item is
    back in its group with its score, and the group made for [b] in
    between is gone; only the counter of group ids has moved on by
    one. *)
Theorem link_undoes_unlink (ops : list op) (a b : string) :
  let d := run empty_db ops in
  let d' := linkItems (unlinkItems d a b) a b in
  created d a -> a <> b -> getGroupID d a = getGroupID d b ->
  tallies d' = tallies d /\ aliases d' = aliases d /\ groups d' = groups d /\
  groups_seq d' = groups_seq d + 1.
Proof.
  cbv zeta. intros Ca Hab E.
  pose proof (wf_run ops empty_db wf_empty) as W.
  pose proof (groups_ok_run ops empty_db wf_empty groups_ok_empty) as G.
  set (d := run empty_db ops) in *.
  pose proof (shares_created d a b W Ca E) as Cb.
  pose proof (wf_unlink d a b W) as W1.
  assert (U : unlinkItems d a b =
              mkDB (tallies d) (Sql.update_item b (groups_seq d + 1) (aliases d))
                   (groups d ++ [groups_seq d + 1]) (groups_seq d + 1)).
  { rewrite unlinkItems_eq. cbv zeta.
    rewrite (ensured_created d a b Ca Cb), E, Z.eqb_refl. reflexivity. }
  assert (Ca1 : created (unlinkItems d a b) a)
    by (apply created_unlink; now rewrite (ensured_created d a b Ca Cb)).
  assert (Cb1 : created (unlinkItems d a b) b)
    by (apply created_unlink; now rewrite (ensured_created d a b Ca Cb)).
  assert (Ga : getGroupID (unlinkItems d a b) a = getGroupID d a).
  { rewrite unlink_shared by assumption.
    apply String.eqb_neq in Hab. now rewrite Hab. }
  assert (Gb : getGroupID (unlinkItems d a b) b = groups_seq d + 1).
  { rewrite unlink_shared by assumption. now rewrite String.eqb_refl. }
  pose proof (getGroupID_bound d a W) as Ba.
  rewrite linkItems_eq. cbv zeta.
  rewrite (ensured_created _ a b Ca1 Cb1), Ga, Gb.
  destruct (Z.eqb_spec (getGroupID d a) (groups_seq d + 1)) as [X|_]; [lia|].
  rewrite U. cbn [tallies aliases groups groups_seq].
  split; [reflexivity|]. split.
  - apply update_back.
    + apply (wf_nodup d W).
    + rewrite E. apply (nodup_select b _ _ (wf_nodup d W)).
      now apply getGroupID_in_aliases.
    + intros k H. pose proof (in_aliases_bound d k _ W H). lia.
  - split; [|reflexivity].
    rewrite filter_app. cbn [filter]. rewrite Z.eqb_refl. cbn [negb].
    rewrite app_nil_r. apply filter_keeps_all.
    intros H. apply (rows_range d G) in H. lia.
Qed.

Lemma link_undoes_unlink_witness :
  aliases (linkItems (unlinkItems (run empty_db [Link "a" "b"; Link "b" "c"]%string)
                                  "a" "b") "a" "b")
  = aliases (run empty_db [Link "a" "b"; Link "b" "c"]%string).
Proof.
  apply (link_undoes_unlink [Link "a" "b"; Link "b" "c"]%string "a" "b").
  - vm_compute. tauto.
  - discriminate.
  - reflexivity.
Defined.

Lemma same_group_link (d : DB) (a b x y : string) :
  wf d ->
  let d2 := ensured d a b in
  same_group (linkItems d a b) x y <->
  same_group d2 x y \/
  ((same_group d2 x a \/ same_group d2 x b) /\
   (same_group d2 y a \/ same_group d2 y b)).
Proof.
  intros W. cbv zeta. unfold same_group.
  rewrite !getGroupID_link by assumption. cbv zeta.
  destruct (Z.eqb_spec (getGroupID (ensured d a b) x) (getGroupID (ensured d a b) b));
    destruct (Z.eqb_spec (getGroupID (ensured d a b) y) (getGroupID (ensured d a b) b));
    lia.
Qed.

Lemma same_group_ensured_swap (d : DB) (a b x y : string) :
  wf d -> same_group (ensured d a b) x y -> same_group (ensured d b a) x y.
Proof.
  intros W. unfold same_group.
  pose proof (wf_ensured d a b W) as W1. pose proof (wf_ensured d b a W) as W2.
  assert (K : forall z, created (ensured d a b) z <-> created (ensured d b a) z)
    by (intros z; rewrite !created_ensured_iff by assumption; tauto).
  assert (New : forall z, created (ensured d a b) z -> ~ created d z ->
                  forall t, getGroupID (ensured d a b) t = getGroupID (ensured d a b) z
                            \/ getGroupID (ensured d b a) t = getGroupID (ensured d b a) z
                            -> t = z).
  { intros z C N t [H|H].
    - now apply (ensured_new_alone d a b z W C N).
    - apply (ensured_new_alone d b a z W); [now apply K | assumption | assumption]. }
  intros E.
  destruct (created_dec d x) as [Cx|Nx]; destruct (created_dec d y) as [Cy|Ny].
  - rewrite !getGroupID_ensured_old in * by assumption. exact E.
  - destruct (created_dec (ensured d a b) y) as [Cy2|Ny2].
    + assert (x = y) as -> by (apply (New y Cy2 Ny x); now left). reflexivity.
    + pose proof (getGroupID_created _ x W1
                    (proj2 (created_ensured_iff d a b x W) (or_introl Cx))).
      rewrite (getGroupID_not_created _ y W1 Ny2) in E. lia.
  - destruct (created_dec (ensured d a b) x) as [Cx2|Nx2].
    + assert (y = x) as -> by (apply (New x Cx2 Nx y); now left). reflexivity.
    + pose proof (getGroupID_created _ y W1
                    (proj2 (created_ensured_iff d a b y W) (or_introl Cy))).
      rewrite (getGroupID_not_created _ x W1 Nx2) in E. lia.
  - destruct (created_dec (ensured d a b) x) as [Cx2|Nx2].
    + assert (y = x) as -> by (apply (New x Cx2 Nx y); now left). reflexivity.
    + destruct (created_dec (ensured d a b) y) as [Cy2|Ny2].
      * assert (x = y) as -> by (apply (New y Cy2 Ny x); now left). reflexivity.
      * rewrite !getGroupID_not_created; trivial; now rewrite <- K.
Qed.

Lemma same_group_ensured_iff (d : DB) (a b x y : string) :
  wf d -> (same_group (ensured d a b) x y <-> same_group (ensured d b a) x y).
Proof. intros W. split; now apply same_group_ensured_swap. Qed.

(** X24.  The order of the two items of a link matters for nothing but
    the group id that survives: on a reachable database two items share a
    group after [linkItems a b] exactly when they do after
    [linkItems b a], and every item has the same score either way. *)
Theorem link_order_only_picks_the_id (ops : list op) (a b x y : string) :
  let d := run empty_db ops in
  (same_group (linkItems d a b) x y <-> same_group (linkItems d b a) x y) /\
  getScore (linkItems d a b) x = getScore (linkItems d b a) x /\
  (created (linkItems d a b) x <-> created (linkItems d b a) x).
Proof.
  cbv zeta. pose proof (wf_run ops empty_db wf_empty) as W.
  set (d := run empty_db ops) in *.
  split; [|split].
  - rewrite !same_group_link by assumption. cbv zeta.
    rewrite !(same_group_ensured_iff d a b) by assumption. tauto.
  - now rewrite !getScore_link.
  - rewrite !created_link, !created_ensured_iff by assumption. tauto.
Qed.

End LifeCycleExtras.

